(** * libqtile.images: the image handle, its transform matrix and the icon loader

    A shallow embedding of [libqtile/images.py].

    - [Cairo]   : cairo's affine matrices and [get_cairo_pattern]'s matrix,
                  over the real numbers.
    - [Py]      : the Python values the image handle computes with
                  (ints, finite floats), truthiness, [round], [float] and
                  the arithmetic of doubles, rounded as IEEE 754 has it.
    - [Images]  : [Img] as an object with optional attributes, in a
                  state-and-exception monad over the decoder's world.
    - [Loading] : [Loader.__init__] and [Loader.__call__]. *)

From Stdlib Require Import ZArith QArith Qround Qabs Qpower Reals Psatz.
From Stdlib Require Qcanon.
From Stdlib.Strings Require Import Ascii String Byte.
From stdpp Require Import gmap strings list.

(* ===================================================================== *)
(** ** cairo matrices and [get_cairo_pattern]                              *)
(* ===================================================================== *)

Module Cairo.
Local Open Scope R_scope.

(** [cairo_matrix_t]: a point (x, y) is sent to
    (xx*x + xy*y + x0, yx*x + yy*y + y0). *)
Record Matrix : Type := mkMatrix
  { xx : R; yx : R; xy : R; yy : R; x0 : R; y0 : R }.

(** [cairocffi.Matrix()] *)
Definition identity : Matrix := mkMatrix 1 0 0 1 0 0.

Definition transform_point (m : Matrix) (p : R * R) : R * R :=
  (xx m * fst p + xy m * snd p + x0 m, yx m * fst p + yy m * snd p + y0 m).

(** [cairo_matrix_multiply(result, a, b)]: first [a], then [b]. *)
Definition multiply (a b : Matrix) : Matrix :=
  mkMatrix (xx a * xx b + yx a * xy b)
           (xx a * yx b + yx a * yy b)
           (xy a * xx b + yy a * xy b)
           (xy a * yx b + yy a * yy b)
           (x0 a * xx b + y0 a * xy b + x0 b)
           (x0 a * yx b + y0 a * yy b + y0 b).

Definition init_scale (sx sy : R) : Matrix := mkMatrix sx 0 0 sy 0 0.
Definition init_translate (tx ty : R) : Matrix := mkMatrix 1 0 0 1 tx ty.
Definition init_rotate (radians : R) : Matrix :=
  mkMatrix (cos radians) (sin radians) (- sin radians) (cos radians) 0 0.

(** [Matrix.scale], [Matrix.translate], [Matrix.rotate]: the new
    transformation is applied first, then the one already in the matrix. *)
Definition scale (m : Matrix) (sx sy : R) : Matrix := multiply (init_scale sx sy) m.
Definition translate (m : Matrix) (tx ty : R) : Matrix := multiply (init_translate tx ty) m.
Definition rotate (m : Matrix) (radians : R) : Matrix := multiply (init_rotate radians) m.

Definition epsilon : R := 1 / 1000000.
Definition pi : R := 3141592653589793 / 1000000000000000.

(** [tr_width] (and [tr_height]) of [get_cairo_pattern]; [None] is the
    ZeroDivisionError of [surf_width / width] at [width = 0]. *)
Definition tr_factor (surf_size : Z) (size : option Z) : option R :=
  match size with
  | None => Some 1
  | Some w =>
      if Z.eqb w surf_size then Some 1
      else if Z.eqb w 0 then None
      else Some (IZR surf_size / IZR w)
  end.

(** The rotation [mat_rot] of [get_cairo_pattern]. *)
Definition mat_rot (xt yt theta_rad : R) : Matrix :=
  translate (rotate (translate identity xt yt) theta_rad) (- xt) (- yt).

(** The matrix [get_cairo_pattern] sets on the pattern of a surface of
    size [surf_width] x [surf_height]. *)
Definition get_cairo_pattern (surf_width surf_height : Z)
    (width height : option Z) (theta : R) : option Matrix :=
  match tr_factor surf_width width with
  | None => None
  | Some tr_width =>
      match tr_factor surf_height height with
      | None => None
      | Some tr_height =>
          let matrix := scale identity tr_width tr_height in
          if Rgt_dec (Rabs theta) epsilon then
            let theta_rad := pi / 180 * theta in
            let xt := IZR surf_width * tr_width * (1 / 2) in
            let yt := IZR surf_height * tr_height * (1 / 2) in
            Some (multiply (mat_rot xt yt theta_rad) matrix)
          else Some matrix
      end
  end.

(** Rotation of the plane by [a] radians about the point [c]. *)
Definition rotate_about (c : R * R) (a : R) (p : R * R) : R * R :=
  (fst c + (cos a * (fst p - fst c) - sin a * (snd p - snd c)),
   snd c + (sin a * (fst p - fst c) + cos a * (snd p - snd c))).

Definition scale_point (sx sy : R) (p : R * R) : R * R := (sx * fst p, sy * snd p).

End Cairo.

(* ===================================================================== *)
(** ** Python values                                                       *)
(* ===================================================================== *)

Module Py.

(** A Python number: an [int], or a finite [float] given by its exact
    value, a rational.  The results of float arithmetic are rounded to the
    nearest double ([round_double]); the floats that are not finite are no
    [num]: they can only come out of a product ([computed]). *)
Inductive num : Type :=
| Int (z : Z)
| Float (q : Q).

Inductive exn : Type :=
| ValueError (msg : string)
| TypeError
| ZeroDivisionError
| OverflowError
| AttributeError (attr : string)
| ImageLoadingError
| OSError (filename : string)
| LoadingError (names : gset string).

Inductive Result (A : Type) : Type :=
| Ok (a : A)
| Raise (e : exn).
Arguments Ok {A} a.
Arguments Raise {A} e.

(** [bool(v)] *)
Definition truthy (v : num) : bool :=
  match v with
  | Int z => negb (Z.eqb z 0)
  | Float q => negb (Qeq_bool q 0)
  end.

(** Truth value of an argument that may be [None]. *)
Definition truthy_opt (o : option num) : bool :=
  match o with
  | None => false
  | Some v => truthy v
  end.

(** [float.__round__] without digits: to the nearest integer, a tie to
    the even one. *)
Definition round_half_even (q : Q) : Z :=
  let f := Qfloor q in
  match Qcompare (q - inject_Z f) (1 # 2) with
  | Lt => f
  | Gt => (f + 1)%Z
  | Eq => if Z.even f then f else (f + 1)%Z
  end.

(** [round(v)] *)
Definition round (v : num) : Z :=
  match v with
  | Int z => z
  | Float q => round_half_even q
  end.

(** The exact value of a number, that of an int unrounded: what [round]
    is measured against.  Python's [float(v)] is [to_float] below. *)
Definition float (v : num) : Q :=
  match v with
  | Int z => inject_Z z
  | Float q => q
  end.

(** *** Doubles *)

(** [2 ** e], for an exponent of either sign. *)
Definition pow2 (e : Z) : Q := Qpower (2 # 1) e.

(** The exponent of the unit in the last place of the doubles about a
    positive rational [a]: 52 places below the leading bit of [a], and not
    below that of the subnormal doubles. *)
Definition ulp_exponent (a : Q) : Z :=
  let e0 := (Z.log2 (Qnum a) - Z.log2 (Zpos (Qden a)))%Z in
  let e := if Qle_bool (pow2 e0) a then e0 else (e0 - 1)%Z in
  Z.max (e - 52) (-1074).

(** The double nearest to a rational, a tie going to the even mantissa:
    what IEEE 754 arithmetic in its default rounding makes of an exact
    result.  [None] is the overflow, from half a unit beyond the largest
    double on. *)
Definition round_double (q : Q) : option Q :=
  if Qeq_bool q 0 then Some 0%Q
  else
    let a := Qabs q in
    let u := ulp_exponent a in
    let r := (inject_Z (round_half_even (a / pow2 u)) * pow2 u)%Q in
    if Qle_bool (pow2 1024) r then None
    else Some (Qred (if Qle_bool 0 q then r else - r)).

(** [float(v)]: an int is rounded to the nearest double, and one beyond
    the range of the doubles raises OverflowError. *)
Definition to_float (v : num) : Result Q :=
  match v with
  | Int z =>
      match round_double (inject_Z z) with
      | Some r => Ok r
      | None => Raise OverflowError
      end
  | Float q => Ok q
  end.

(** What float arithmetic can give: a number, an infinity, or the value
    that is not a number. *)
Inductive computed : Type :=
| Fin (v : num)
| Inf (negative : bool)
| Nan.

(** [a / b] for an int [b], as every quotient of the source has it.  Two
    ints give the correctly rounded quotient, or OverflowError when it is
    beyond the doubles.  A float is divided by the double of [b]
    (OverflowError when [b] has none); the divisor is 1 or more in
    magnitude, so that the quotient of a double is within the doubles, and
    the last branch is taken by no float. *)
Definition truediv (a : num) (b : Z) : Result num :=
  match a with
  | Int x =>
      if Z.eqb b 0 then Raise ZeroDivisionError
      else match round_double (inject_Z x / inject_Z b) with
           | Some r => Ok (Float r)
           | None => Raise OverflowError
           end
  | Float q =>
      match to_float (Int b) with
      | Raise e => Raise e
      | Ok fb =>
          if Qeq_bool fb 0 then Raise ZeroDivisionError
          else match round_double (q / fb) with
               | Some r => Ok (Float r)
               | None => Raise OverflowError
               end
      end
  end.

(** The product of two doubles: rounded, an infinity beyond the range. *)
Definition mul_double (x y : Q) : computed :=
  match round_double (x * y) with
  | Some r => Fin (Float r)
  | None => Inf (negb (Qle_bool 0 (x * y)))
  end.

(** [a * b] for a number [a] and a [b] that may itself be a product.
    Two ints give an int; otherwise an int is made a float first
    (OverflowError when it has none) and the doubles are multiplied. *)
Definition mul (a : num) (b : computed) : Result computed :=
  match a, b with
  | Int x, Fin (Int y) => Ok (Fin (Int (x * y)))
  | _, _ =>
      match to_float a with
      | Raise e => Raise e
      | Ok fa =>
          match b with
          | Fin v =>
              match to_float v with
              | Raise e => Raise e
              | Ok fb => Ok (mul_double fa fb)
              end
          | Inf negative =>
              if Qeq_bool fa 0 then Ok Nan
              else Ok (Inf (xorb negative (negb (Qle_bool 0 fa))))
          | Nan => Ok Nan
          end
      end
  end.

(** Half the distance between 1 and the next double: the relative error
    of one rounding to a double in the normal range. *)
Definition roundoff : Q := pow2 (-53).

(** [x] is [y] up to the relative error [a]. *)
Definition within (x y a : Q) : Prop := (Qabs (x - y) <= Qabs y * a)%Q.

End Py.

(* ===================================================================== *)
(** ** The image handle                                                    *)
(* ===================================================================== *)

Module Images.
Import Py.

(** What [cairocffi.pixbuf.decode_to_image_surface] does with the bytes
    and the target size: it decodes to a surface of some size, refuses the
    size arguments (TypeError, cairocffi <= 0.8.0), or fails to load. *)
Inductive Decoded : Type :=
| DecodedSurface (w h : Z)
| DecodeTypeError
| DecodeFailure.

(** A cairo [ImageSurface]; [surf_id] is the identity of the object. *)
Record Surface : Type := mkSurface
  { surf_id : nat; surf_width : Z; surf_height : Z }.

(** A cairo [SurfacePattern], as [get_cairo_pattern] builds it: the
    surface and the arguments that determine its matrix. *)
Record Pattern : Type := mkPattern
  { pat_id : nat; pat_surface : Surface;
    pat_width : Z; pat_height : Z; pat_theta : Q }.

(** The matrix set on a pattern. *)
Definition pattern_matrix (p : Pattern) : option Cairo.Matrix :=
  Cairo.get_cairo_pattern (surf_width (pat_surface p)) (surf_height (pat_surface p))
    (Some (pat_width p)) (Some (pat_height p)) (Q2R (pat_theta p)).

(** The attributes of an [Img] instance; [None] is an attribute that is
    not set. *)
Record Img : Type := mkImg
  { bytes_img : list Byte.byte;
    name : string;
    path : string;
    _theta : option Q;
    _width : option Z;
    _height : option Z;
    _default_surface : option Surface;
    _default_size : option (Z * Z);
    _surface : option Surface;
    _pattern : option Pattern }.

(** [Img.__init__] *)
Definition Img_init (bytes : list Byte.byte) (name path : string) : Img :=
  mkImg bytes name path None None None None None None None.

(** The image and what lies outside it: the next free object identity,
    the calls made to the decoder, the surfaces that were [finish()]ed
    and the number of logged warnings. *)
Record State : Type := mkState
  { img : Img;
    next_id : nat;
    decode_calls : list (list Byte.byte * option Z * option Z);
    finished : list nat;
    warnings : nat }.

Definition initial (i : Img) : State := mkState i 0 [] [] 0.

Definition with_img (f : Img -> Img) (st : State) : State :=
  mkState (f (img st)) (next_id st) (decode_calls st) (finished st) (warnings st).

Definition set_theta_attr (o : option Q) (i : Img) : Img :=
  mkImg (bytes_img i) (name i) (path i) o (_width i) (_height i)
    (_default_surface i) (_default_size i) (_surface i) (_pattern i).
Definition set_width_attr (o : option Z) (i : Img) : Img :=
  mkImg (bytes_img i) (name i) (path i) (_theta i) o (_height i)
    (_default_surface i) (_default_size i) (_surface i) (_pattern i).
Definition set_height_attr (o : option Z) (i : Img) : Img :=
  mkImg (bytes_img i) (name i) (path i) (_theta i) (_width i) o
    (_default_surface i) (_default_size i) (_surface i) (_pattern i).
Definition set_default_surface_attr (o : option Surface) (i : Img) : Img :=
  mkImg (bytes_img i) (name i) (path i) (_theta i) (_width i) (_height i)
    o (_default_size i) (_surface i) (_pattern i).
Definition set_default_size_attr (o : option (Z * Z)) (i : Img) : Img :=
  mkImg (bytes_img i) (name i) (path i) (_theta i) (_width i) (_height i)
    (_default_surface i) o (_surface i) (_pattern i).
Definition set_surface_attr (o : option Surface) (i : Img) : Img :=
  mkImg (bytes_img i) (name i) (path i) (_theta i) (_width i) (_height i)
    (_default_surface i) (_default_size i) o (_pattern i).
Definition set_pattern_attr (o : option Pattern) (i : Img) : Img :=
  mkImg (bytes_img i) (name i) (path i) (_theta i) (_width i) (_height i)
    (_default_surface i) (_default_size i) (_surface i) o.

(** Computations on the state that return or raise; the state a raising
    computation leaves behind is kept. *)
Definition M (A : Type) : Type := State -> Result A * State.

Definition ret {A} (a : A) : M A := fun st => (Ok a, st).
Definition raise {A} (e : exn) : M A := fun st => (Raise e, st).
Definition bind {A B} (m : M A) (k : A -> M B) : M B :=
  fun st =>
    match m st with
    | (Ok a, st') => k a st'
    | (Raise e, st') => (Raise e, st')
    end.
Definition get_img : M Img := fun st => (Ok (img st), st).
Definition modify_img (f : Img -> Img) : M unit := fun st => (Ok tt, with_img f st).
Definition lift {A} (r : Result A) : M A := fun st => (r, st).

Declare Scope py_scope.
Delimit Scope py_scope with py.
Notation "'let*' x ':=' m 'in' k" := (bind m (fun x => k))
  (at level 10, x name, m at level 100, k at level 200) : py_scope.
Notation "m '>>' k" := (bind m (fun _ => k))
  (at level 65, right associativity) : py_scope.
Local Open Scope py_scope.

Section WithDecoder.

Variable decode_to_image_surface : list Byte.byte -> option Z -> option Z -> Decoded.

(** One call of the decoder: it is recorded, and a decoded surface is a
    new object. *)
Definition decode (bytes : list Byte.byte) (width height : option Z) : M Surface :=
  fun st =>
    let st1 := mkState (img st) (next_id st)
                 (decode_calls st ++ [(bytes, width, height)])
                 (finished st) (warnings st) in
    match decode_to_image_surface bytes width height with
    | DecodedSurface w h =>
        (Ok (mkSurface (next_id st) w h),
         mkState (img st1) (S (next_id st1)) (decode_calls st1)
           (finished st1) (warnings st1))
    | DecodeTypeError => (Raise TypeError, st1)
    | DecodeFailure => (Raise ImageLoadingError, st1)
    end.

Definition log_exception : M unit :=
  fun st => (Ok tt, mkState (img st) (next_id st) (decode_calls st)
                      (finished st) (S (warnings st))).

(** [get_cairo_surface(bytes_img, width, height)].  The call of the
    decoder without size arguments, the fallback, is taken to be the call
    with [None] for both, as it is where the decoder has the two
    parameters. *)
Definition get_cairo_surface (bytes : list Byte.byte) (width height : option Z)
    : M Surface :=
  fun st =>
    match decode bytes width height st with
    | (Raise TypeError, st') =>
        (log_exception >> decode bytes None None) st'
    | other => other
    end.

(** [get_cairo_pattern(surface, width, height, theta)]: a new pattern
    object, unless one of the two divisions is by zero. *)
Definition get_cairo_pattern (surface : Surface) (width height : Z) (theta : Q)
    : M Pattern :=
  fun st =>
    if negb (Z.eqb width (surf_width surface)) && Z.eqb width 0
    then (Raise ZeroDivisionError, st)
    else if negb (Z.eqb height (surf_height surface)) && Z.eqb height 0
    then (Raise ZeroDivisionError, st)
    else (Ok (mkPattern (next_id st) surface width height theta),
          mkState (img st) (S (next_id st)) (decode_calls st)
            (finished st) (warnings st)).

(** [Surface.finish()] *)
Definition finish (s : Surface) : M unit :=
  fun st => (Ok tt, mkState (img st) (next_id st) (decode_calls st)
                      (surf_id s :: finished st) (warnings st)).

(** [Img.default_surface] *)
Definition default_surface : M Surface :=
  let* i := get_img in
  match _default_surface i with
  | Some surf => ret surf
  | None =>
      let* surf := get_cairo_surface (bytes_img i) None None in
      modify_img (set_default_surface_attr (Some surf)) >>
      ret surf
  end.

(** [Img.default_size] *)
Definition default_size : M (Z * Z) :=
  let* i := get_img in
  match _default_size i with
  | Some size => ret size
  | None =>
      let* surf := default_surface in
      let size := (surf_width surf, surf_height surf) in
      modify_img (set_default_size_attr (Some size)) >>
      ret size
  end.

(** [_Descriptor.__get__] for [theta], [width] and [height] *)
Definition theta : M Q :=
  let* i := get_img in
  match _theta i with
  | Some t => ret t
  | None => ret 0%Q
  end.

Definition width : M Z :=
  let* i := get_img in
  match _width i with
  | Some w => ret w
  | None => let* size := default_size in ret (fst size)
  end.

Definition height : M Z :=
  let* i := get_img in
  match _height i with
  | Some h => ret h
  | None => let* size := default_size in ret (snd size)
  end.

(** [Img.surface] and its deleter *)
Definition surface : M Surface :=
  let* i := get_img in
  match _surface i with
  | Some surf => ret surf
  | None =>
      let* w := width in
      let* h := height in
      let* surf := get_cairo_surface (bytes_img i) (Some w) (Some h) in
      modify_img (set_surface_attr (Some surf)) >>
      ret surf
  end.

Definition del_surface : M unit := modify_img (set_surface_attr None).

(** [Img.pattern] and its deleter *)
Definition pattern : M Pattern :=
  let* i := get_img in
  match _pattern i with
  | Some pat => ret pat
  | None =>
      let* surf := surface in
      let* w := width in
      let* h := height in
      let* t := theta in
      let* pat := get_cairo_pattern surf w h t in
      modify_img (set_pattern_attr (Some pat)) >>
      ret pat
  end.

Definition del_pattern : M unit := modify_img (set_pattern_attr None).

(** [hasattr(self, ...)] on a property: the getter runs; an
    AttributeError is [False], any other exception goes on. *)
Definition hasattr {A} (getter : M A) : M bool :=
  fun st =>
    match getter st with
    | (Ok _, st') => (Ok true, st')
    | (Raise (AttributeError _), st') => (Ok false, st')
    | (Raise e, st') => (Raise e, st')
    end.

(** [Img._reset]: its two statements, on the surface and on the pattern. *)
Definition reset_surface : M unit :=
  let* has_surface := hasattr surface in
  if has_surface
  then let* surf := surface in finish surf >> del_surface
  else ret tt.

Definition reset_pattern : M unit :=
  let* has_pattern := hasattr pattern in
  if has_pattern then del_pattern else ret tt.

Definition _reset : M unit := reset_surface >> reset_pattern.

(** [_PixelSize.__set__] for [width] and [height], [_Rotation.__set__]
    for [theta]: the value is stored, then the image is reset. *)
Definition set_width (value : num) : M unit :=
  let value := Z.max (round value) 1 in
  modify_img (set_width_attr (Some value)) >> _reset.

Definition set_height (value : num) : M unit :=
  let value := Z.max (round value) 1 in
  modify_img (set_height_attr (Some value)) >> _reset.

Definition set_theta (value : num) : M unit :=
  let* value := lift (to_float value) in
  modify_img (set_theta_attr (Some value)) >> _reset.

(** [_Descriptor.__delete__]: [delattr] of the stored attribute. *)
Definition del_width : M unit :=
  let* i := get_img in
  match _width i with
  | Some _ => modify_img (set_width_attr None)
  | None => raise (AttributeError "_width")
  end.

Definition del_height : M unit :=
  let* i := get_img in
  match _height i with
  | Some _ => modify_img (set_height_attr None)
  | None => raise (AttributeError "_height")
  end.

Definition del_theta : M unit :=
  let* i := get_img in
  match _theta i with
  | Some _ => modify_img (set_theta_attr None)
  | None => raise (AttributeError "_theta")
  end.

(** [_PixelSize.__set__] on the outcome of a product: [round] refuses the
    floats that are not finite, with OverflowError for the infinities and
    ValueError for the value that is not a number, before anything is
    stored. *)
Definition set_computed (set : num -> M unit) (value : computed) : M unit :=
  match value with
  | Fin v => set v
  | Inf _ => raise OverflowError
  | Nan => raise (ValueError "cannot convert float NaN to integer")
  end.

(** [Img._scale_lock]; the message of its error is given without the
    two factors that the source formats into it. *)
Definition _scale_lock (width_factor height_factor : option num)
    (initial_size : Z * Z) : Result (computed * computed) :=
  if truthy_opt width_factor && truthy_opt height_factor
  then Raise (ValueError
    "Can't rescale with locked aspect ratio and give width_factor and height_factor.")
  else
    let '(width0, height0) := initial_size in
    if truthy_opt width_factor then
      match width_factor with
      | Some wf =>
          match mul (Int width0) (Fin wf) with
          | Raise e => Raise e
          | Ok width =>
              match truediv (Int height0) width0 with
              | Raise e => Raise e
              | Ok r =>
                  match mul r width with
                  | Raise e => Raise e
                  | Ok height => Ok (width, height)
                  end
              end
          end
      | None => Raise TypeError
      end
    else
      match height_factor with
      | Some hf =>
          match mul (Int height0) (Fin hf) with
          | Raise e => Raise e
          | Ok height =>
              match truediv (Int width0) height0 with
              | Raise e => Raise e
              | Ok r =>
                  match mul r height with
                  | Raise e => Raise e
                  | Ok width => Ok (width, height)
                  end
              end
          end
      | None => Raise TypeError
      end.

(** [Img._scale_free] *)
Definition _scale_free (width_factor height_factor : option num)
    (initial_size : Z * Z) : Result (computed * computed) :=
  let width_factor := match width_factor with None => Int 1 | Some f => f end in
  let height_factor := match height_factor with None => Int 1 | Some f => f end in
  let '(width0, height0) := initial_size in
  match mul (Int width0) (Fin width_factor) with
  | Raise e => Raise e
  | Ok width =>
      match mul (Int height0) (Fin height_factor) with
      | Raise e => Raise e
      | Ok height => Ok (width, height)
      end
  end.

(** [Img.scale] *)
Definition scale (width_factor height_factor : option num)
    (lock_aspect_ratio : bool) : M unit :=
  if negb (truthy_opt width_factor || truthy_opt height_factor)
  then raise (ValueError "You must supply width_factor or height_factor")
  else
    let* size := default_size in
    let* res := lift (if lock_aspect_ratio
                      then _scale_lock width_factor height_factor size
                      else _scale_free width_factor height_factor size) in
    set_computed set_width (fst res) >> set_computed set_height (snd res).

(** [Img.resize] *)
Definition resize (width height : option num) : M unit :=
  let* size := default_size in
  let '(width0, height0) := size in
  let* width_factor :=
    match width with
    | Some w => let* f := lift (truediv w width0) in ret (Some f)
    | None => ret None
    end in
  let* height_factor :=
    match height with
    | Some h => let* f := lift (truediv h height0) in ret (Some f)
    | None => ret None
    end in
  if truthy_opt width && truthy_opt height
  then scale width_factor height_factor false
  else if truthy_opt width || truthy_opt height
  then scale width_factor height_factor true
  else raise (ValueError "You must supply either width or height!").

(** What a client does with an image. *)
Inductive op : Type :=
| ReadDefaultSize
| ReadWidth | ReadHeight | ReadTheta
| WriteWidth (value : num) | WriteHeight (value : num) | WriteTheta (value : num)
| DeleteWidth | DeleteHeight | DeleteTheta
| ReadSurface | DeleteSurface
| ReadPattern | DeletePattern
| Resize (width height : option num)
| Scale (width_factor height_factor : option num) (lock_aspect_ratio : bool).

Definition void {A} (m : M A) : M unit := let* _ := m in ret tt.

Definition run_op (o : op) : M unit :=
  match o with
  | ReadDefaultSize => void default_size
  | ReadWidth => void width
  | ReadHeight => void height
  | ReadTheta => void theta
  | WriteWidth v => set_width v
  | WriteHeight v => set_height v
  | WriteTheta v => set_theta v
  | DeleteWidth => del_width
  | DeleteHeight => del_height
  | DeleteTheta => del_theta
  | ReadSurface => void surface
  | DeleteSurface => del_surface
  | ReadPattern => void pattern
  | DeletePattern => del_pattern
  | Resize w h => resize w h
  | Scale wf hf lock => scale wf hf lock
  end.

(** The state after a sequence of operations, the caller going on after
    an operation that raised. *)
Fixpoint exec (ops : list op) (st : State) : State :=
  match ops with
  | [] => st
  | o :: ops' => exec ops' (snd (run_op o st))
  end.

(** Whether every operation of the sequence returns. *)
Fixpoint returns (ops : list op) (st : State) : bool :=
  match ops with
  | [] => true
  | o :: ops' =>
      match run_op o st with
      | (Ok _, st') => returns ops' st'
      | (Raise _, _) => false
      end
  end.

(** *** What the attributes and the caches stand for *)

Definition size_of (s : Surface) : Z * Z := (surf_width s, surf_height s).

(** The size of the surface that [get_cairo_surface] yields for these
    arguments, if it yields one. *)
Definition decoded_size (bytes : list Byte.byte) (width height : option Z)
    : option (Z * Z) :=
  match decode_to_image_surface bytes width height with
  | DecodedSurface w h => Some (w, h)
  | DecodeTypeError =>
      match decode_to_image_surface bytes None None with
      | DecodedSurface w h => Some (w, h)
      | _ => None
      end
  | DecodeFailure => None
  end.

Definition natural_size (bytes : list Byte.byte) : option (Z * Z) :=
  decoded_size bytes None None.

(** The width, height and angle of the image as its attributes and its
    bytes give them. *)
Definition current_width (st : State) : option Z :=
  match _width (img st) with
  | Some w => Some w
  | None => option_map fst (natural_size (bytes_img (img st)))
  end.

Definition current_height (st : State) : option Z :=
  match _height (img st) with
  | Some h => Some h
  | None => option_map snd (natural_size (bytes_img (img st)))
  end.

Definition current_theta (st : State) : Q :=
  match _theta (img st) with
  | Some t => t
  | None => 0%Q
  end.

(** The memoized natural surface and size are those of the bytes. *)
Definition defaults_ok (st : State) : Prop :=
  (forall s, _default_surface (img st) = Some s ->
     natural_size (bytes_img (img st)) = Some (size_of s) /\ surf_id s < next_id st) /\
  (forall sz, _default_size (img st) = Some sz ->
     natural_size (bytes_img (img st)) = Some sz).

(** A surface decoded for the current width and height. *)
Definition surface_current (st : State) (s : Surface) : Prop :=
  exists w h, current_width st = Some w /\ current_height st = Some h /\
    decoded_size (bytes_img (img st)) (Some w) (Some h) = Some (size_of s).

(** A pattern built from the current width, height and angle. *)
Definition pattern_current (st : State) (p : Pattern) : Prop :=
  current_width st = Some (pat_width p) /\
  current_height st = Some (pat_height p) /\
  current_theta st = pat_theta p /\
  surface_current st (pat_surface p).

Definition surface_ok (st : State) : Prop :=
  forall s, _surface (img st) = Some s ->
    surface_current st s /\ surf_id s < next_id st.

Definition pattern_ok (st : State) : Prop :=
  forall p, _pattern (img st) = Some p ->
    pattern_current st p /\ pat_id p < next_id st.

Definition sizes_ok (st : State) : Prop :=
  (forall w, _width (img st) = Some w -> (1 <= w)%Z) /\
  (forall h, _height (img st) = Some h -> (1 <= h)%Z).

(** The invariant of an image handle. *)
Definition Inv (st : State) : Prop :=
  defaults_ok st /\ surface_ok st /\ pattern_ok st /\ sizes_ok st.

(** A step that at most memoizes the natural surface and size, calls the
    decoder and makes new objects. *)
Record Memo (st st' : State) : Prop := mkMemo
  { memo_bytes : bytes_img (img st') = bytes_img (img st);
    memo_name : name (img st') = name (img st);
    memo_path : path (img st') = path (img st);
    memo_theta : _theta (img st') = _theta (img st);
    memo_width : _width (img st') = _width (img st);
    memo_height : _height (img st') = _height (img st);
    memo_default_surface : forall s,
      _default_surface (img st) = Some s -> _default_surface (img st') = Some s;
    memo_default_size : forall sz,
      _default_size (img st) = Some sz -> _default_size (img st') = Some sz;
    memo_next_id : next_id st <= next_id st';
    memo_finished : forall i, i ∈ finished st -> i ∈ finished st' }.

(** A [Memo] step that leaves the two caches and the finished surfaces
    as they are. *)
Definition Quiet (st st' : State) : Prop :=
  Memo st st' /\
  _surface (img st') = _surface (img st) /\
  _pattern (img st') = _pattern (img st) /\
  finished st' = finished st.

(** What every operation keeps, whether it returns or raises: the
    bytes, the memoized natural surface and size, and sizes that are
    positive. *)
Record Keeps (st st' : State) : Prop := mkKeeps
  { keeps_bytes : bytes_img (img st') = bytes_img (img st);
    keeps_default_surface : forall s,
      _default_surface (img st) = Some s -> _default_surface (img st') = Some s;
    keeps_default_size : forall sz,
      _default_size (img st) = Some sz -> _default_size (img st') = Some sz;
    keeps_next_id : next_id st <= next_id st';
    keeps_defaults_ok : defaults_ok st -> defaults_ok st';
    keeps_sizes_ok : sizes_ok st -> sizes_ok st' }.

(** No getter of the image raises an AttributeError. *)
Definition not_attribute_error (e : exn) : Prop :=
  match e with
  | AttributeError _ => False
  | _ => True
  end.

(** The natural size that the decoder finds is positive. *)
Definition decoder_positive : Prop :=
  forall bytes w h,
    decode_to_image_surface bytes None None = DecodedSurface w h ->
    (1 <= w)%Z /\ (1 <= h)%Z.

(** The operations that delete a stored attribute. *)
Definition deletes_attribute (o : op) : bool :=
  match o with
  | DeleteWidth | DeleteHeight | DeleteTheta => true
  | _ => false
  end.

(** *** Equality of two handles *)

(** What [Img.__eq__] is given to compare with: the handle itself,
    another handle, or an object that is no [Img]. *)
Inductive operand : Type :=
| Itself
| Another (other : Img)
| NotAnImg.

(** The value that [==] compares: bytes, theta, width and height. *)
Definition compared : M (list Byte.byte * Q * Z * Z) :=
  let* i := get_img in
  let* t := theta in
  let* w := width in
  let* h := height in
  ret (bytes_img i, t, w, h).

(** [==] on two [bytes] objects. *)
Fixpoint bytes_eqb (a b : list Byte.byte) : bool :=
  match a, b with
  | [], [] => true
  | x :: a', y :: b' => Byte.eqb x y && bytes_eqb a' b'
  | _, _ => false
  end.

(** [s0 == s1] on the two tuples. *)
Definition tuple_eqb (s0 s1 : list Byte.byte * Q * Z * Z) : bool :=
  let '(b0, t0, w0, h0) := s0 in
  let '(b1, t1, w1, h1) := s1 in
  bytes_eqb b0 b1 && Qeq_bool t0 t1 && Z.eqb w0 w1 && Z.eqb h0 h1.

(** A computation run on another handle in the same world; the handle
    comes back as the computation left it. *)
Definition on_other {A} (m : M A) (other : Img) : State -> Result A * State * Img :=
  fun st =>
    let '(r, st') := m (mkState other (next_id st) (decode_calls st)
                          (finished st) (warnings st)) in
    (r, mkState (img st) (next_id st') (decode_calls st') (finished st') (warnings st'),
     img st').

(** [Img.__eq__]: the result, the state of the handle and the other
    handle after the comparison. *)
Definition __eq__ (other : operand) (st : State)
    : Result bool * State * option Img :=
  match other with
  | NotAnImg => (Ok false, st, None)
  | Itself =>
      match compared st with
      | (Raise e, st1) => (Raise e, st1, None)
      | (Ok s0, st1) =>
          match compared st1 with
          | (Raise e, st2) => (Raise e, st2, None)
          | (Ok s1, st2) => (Ok (tuple_eqb s0 s1), st2, None)
          end
      end
  | Another o =>
      match compared st with
      | (Raise e, st1) => (Raise e, st1, Some o)
      | (Ok s0, st1) =>
          match on_other compared o st1 with
          | (Raise e, st2, o') => (Raise e, st2, Some o')
          | (Ok s1, st2, o') => (Ok (tuple_eqb s0 s1), st2, Some o')
          end
      end
  end.

(** *** Surfaces in use *)

(** No surface that the handle holds, in its cache or under its cached
    pattern, was finished. *)
Definition Live (st : State) : Prop :=
  (forall i, i ∈ finished st -> i < next_id st) /\
  (forall s, _surface (img st) = Some s ->
     (surf_id s ∉ finished st) /\ surf_id s < next_id st) /\
  (forall p, _pattern (img st) = Some p ->
     (surf_id (pat_surface p) ∉ finished st) /\
     surf_id (pat_surface p) < next_id st).

(** The natural surface is an object of its own: it was not finished,
    and it is not the cached surface. *)
Definition Apart (st : State) : Prop :=
  forall s0, _default_surface (img st) = Some s0 ->
    (surf_id s0 ∉ finished st) /\
    forall s, _surface (img st) = Some s -> surf_id s <> surf_id s0.

(** A computation that keeps a property of the state, whether it returns
    or raises. *)
Definition preserves (P : State -> Prop) {A} (m : M A) : Prop :=
  forall st, P st -> P (snd (m st)).


(** *** What a write costs *)

(** The outcome of a write [m] that leaves the image with width [w] and
    height [h]: it returns; it has called the decoder at that size once
    for each of the two caches that was empty; it has finished one
    surface; it leaves no pattern cached, and a surface exactly when no
    pattern was cached before. *)
Definition resets_eagerly (m : M unit) (st : State) (w h : Z) : Prop :=
  exists st1,
    m st = (Ok tt, st1) /\
    decode_calls st1
      = decode_calls st ++
        repeat (bytes_img (img st), Some w, Some h)
          (match _surface (img st) with Some _ => 0 | None => 1 end
           + match _pattern (img st) with Some _ => 0 | None => 1 end) /\
    length (finished st1) = S (length (finished st)) /\
    _pattern (img st1) = None /\
    (_surface (img st1) = None <-> _pattern (img st) <> None).

End WithDecoder.

(** *** Two decoders to run the model on *)

(** A decoder that finds a 100 x 50 image in any bytes and decodes it at
    the size it is asked for. *)
Definition sizing_decoder (bytes : list Byte.byte) (width height : option Z)
    : Decoded :=
  match width, height with
  | Some w, Some h => DecodedSurface w h
  | _, _ => DecodedSurface 100 50
  end.

(** The same image behind a decoder that raises the TypeError whenever a
    width or a height is given, and decodes at the natural size when both
    are [None]. *)
Definition legacy_decoder (bytes : list Byte.byte) (width height : option Z)
    : Decoded :=
  match width, height with
  | None, None => DecodedSurface 100 50
  | _, _ => DecodeTypeError
  end.

(** A new handle to run the model on. *)
Definition icon : State := initial (Img_init [] "icon" "/icons/icon.png").

(** The sequences of operations that delete no stored attribute. *)
Definition keeps_attributes (ops : list op) : bool :=
  forallb (fun o => negb (deletes_attribute o)) ops.

End Images.

(* ===================================================================== *)
(** ** The icon loader                                                     *)
(* ===================================================================== *)

Module Loading.
Import Py.
Local Open Scope string_scope.
Local Open Scope char_scope.
Local Open Scope stdpp_scope.

(** [str.rfind] of one character: the last index, or -1. *)
Fixpoint rfind_from (c : ascii) (s : string) (i last : Z) : Z :=
  match s with
  | EmptyString => last
  | String a s' => rfind_from c s' (i + 1)%Z (if Ascii.eqb a c then i else last)
  end.

Definition rfind (c : ascii) (s : string) : Z := rfind_from c s 0 (-1).

(** [p[i:j]] for [0 <= i]. *)
Definition slice (p : string) (i j : Z) : string :=
  substring (Z.to_nat i) (Z.to_nat (j - i)) p.

(** Whether the character [c] stands in [s]. *)
Fixpoint occurs (c : ascii) (s : string) : bool :=
  match s with
  | EmptyString => false
  | String a s' => Ascii.eqb a c || occurs c s'
  end.

(** Whether a character other than the dot stands in [s]. *)
Fixpoint has_non_dot (s : string) : bool :=
  match s with
  | EmptyString => false
  | String a s' => if Ascii.eqb a "." then has_non_dot s' else true
  end.

(** [os.path.splitext] (posixpath over [genericpath._splitext]): the
    extension starts at the last dot of the last path component, the
    leading dots of the component apart. *)
Definition splitext (p : string) : string * string :=
  let sepIndex := rfind "/" p in
  let dotIndex := rfind "." p in
  if (sepIndex <? dotIndex)%Z && has_non_dot (slice p (sepIndex + 1) dotIndex)
  then (slice p 0 dotIndex, slice p dotIndex (Z.of_nat (String.length p)))
  else (p, EmptyString).

(** [os.path.basename] *)
Definition basename (p : string) : string :=
  let i := (rfind "/" p + 1)%Z in
  slice p i (Z.of_nat (String.length p)).

(** [bool(s)] of a string *)
Definition nonempty (s : string) : bool :=
  match s with
  | EmptyString => false
  | String _ _ => true
  end.

(** [name[:-2]] *)
Definition drop_last2 (s : string) : string :=
  substring 0 (String.length s - 2) s.

(** A value that a keyword argument can carry. *)
Inductive object : Type :=
| ONone
| ONum (v : num)
| OStr (s : string)
| OList (l : list string).

(** A [Loader] instance: its attributes by name. *)
Abbreviation Loader := (gmap string object).

(** The keywords that a call [Loader(..., key=value)] cannot store. *)
Definition reserved : list string :=
  ["self"; "__class__"; "__dict__"; "__weakref__"].

(** What [setattr(self, key, value)] raises for a reserved name: for
    [__class__] and [__dict__] the TypeError of a value that is no class
    and no dict, which no [object] here is; [__weakref__] is not
    writable. *)
Definition refused (key : string) : option exn :=
  if String.eqb key "__class__" || String.eqb key "__dict__" then Some TypeError
  else if String.eqb key "__weakref__" then Some (AttributeError "__weakref__")
  else None.

(** The loop [for k, v in kwargs.items(): setattr(self, k, v)]. *)
Fixpoint set_kwargs (self : Loader) (kwargs : list (string * object))
    : Result Loader :=
  match kwargs with
  | [] => Ok self
  | (k, v) :: rest =>
      match refused k with
      | Some e => Raise e
      | None => set_kwargs (<[k := v]> self) rest
      end
  end.

(** [Loader.__init__] on the positional directories and the keyword
    arguments.  A keyword [self] collides with the first parameter: Python
    raises the TypeError at the call, before the body runs. *)
Definition Loader_init (directories : list string)
    (kwargs : list (string * object)) : Result Loader :=
  if existsb (fun kv => String.eqb (fst kv) "self") kwargs
  then Raise TypeError
  else
    match set_kwargs ∅ kwargs with
    | Raise e => Raise e
    | Ok self => Ok (<["directories" := OList directories]> self)
    end.

(** [self.directories] *)
Definition directories (self : Loader) : Result (list string) :=
  match self !! "directories" with
  | Some (OList l) => Ok l
  | Some _ => Raise TypeError
  | None => Raise (AttributeError "directories")
  end.

(** The state of one call of the loader: the dictionary [d], the set
    [seen], and what it asked of the file system so far: the scans
    (directory and queries) and the files read (query and path). *)
Record Progress : Type := mkProgress
  { d : gmap string Images.Img;
    seen : gset string;
    scans : list (string * list string);
    loads : list (string * string) }.

(** The queries [set_names] synthesized from the requested names. *)
Definition query_of (n : string) : string :=
  if nonempty (snd (splitext n)) then n else n ++ ".*".

Definition set_names (names : list string) : gset string :=
  foldl (fun s n => s ∪ {[query_of n]}) ∅ names.

(** The key under which a resolved query is returned. *)
Definition key_of (names : list string) (name : string) : string :=
  if bool_decide (name ∈ names) then name else drop_last2 name.

Section WithFiles.

(** The file system: the content of a file, if it can be read, and the
    paths below a directory that match a query, in the order of the scan. *)
Variable read_file : string -> option (list Byte.byte).
Variable glob : string -> string -> list string.

(** The order in which a Python set is iterated. *)
Variable iter : gset string -> list string.

(** Modelled from the spec: [libqtile.utils.scan_files], which is not
    among the sources.  For each of the queries it gives the ordered list
    of the candidate paths found in the directory, empty if there is none. *)
Definition scan_files (dirpath : string) (names : list string)
    : list (string * list string) :=
  map (fun n => (n, glob dirpath n)) names.

(** [Img.from_path] *)
Definition from_path (image_path : string) : Result Images.Img :=
  match read_file image_path with
  | None => Raise (OSError image_path)
  | Some bytes_img =>
      let name := basename image_path in
      let '(name, file_type) := splitext name in
      Ok (Images.Img_init bytes_img name image_path)
  end.

(** The loop over [d_matches.items()]. *)
Fixpoint load_matches (names : list string) (d_matches : list (string * list string))
    (pr : Progress) : Result Progress :=
  match d_matches with
  | [] => Ok pr
  | (name, paths) :: rest =>
      match paths with
      | [] => load_matches names rest pr
      | path0 :: _ =>
          match from_path path0 with
          | Raise e => Raise e
          | Ok i =>
              load_matches names rest
                (mkProgress (<[key_of names name := i]> (d pr))
                            (seen pr ∪ {[name]})
                            (scans pr)
                            (loads pr ++ [(name, path0)]))
          end
      end
  end.

(** The loop over [self.directories]. *)
Fixpoint scan_directories (names : list string) (queries : gset string)
    (dirs : list string) (pr : Progress) : Result Progress :=
  match dirs with
  | [] => Ok pr
  | directory :: rest =>
      let wanted := iter (queries ∖ seen pr) in
      let d_matches := scan_files directory wanted in
      match load_matches names d_matches
              (mkProgress (d pr) (seen pr) (scans pr ++ [(directory, wanted)]) (loads pr)) with
      | Raise e => Raise e
      | Ok pr' => scan_directories names queries rest pr'
      end
  end.

(** The run of [Loader.__call__] on the names, up to its last test. *)
Definition Loader_scan (self : Loader) (names : list string) : Result Progress :=
  match directories self with
  | Raise e => Raise e
  | Ok dirs =>
      scan_directories names (set_names names) dirs (mkProgress ∅ ∅ [] [])
  end.

(** [Loader.__call__] on the names; the error carries the set that the source
    formats into its message. *)
Definition Loader_call (self : Loader) (names : list string)
    : Result (gmap string Images.Img) :=
  match Loader_scan self names with
  | Raise e => Raise e
  | Ok pr =>
      if bool_decide (seen pr = set_names names) then Ok (d pr)
      else Raise (LoadingError (set_names names ∖ seen pr))
  end.

(** *** What the resolution is to give *)

(** In the spec's words: the first directory, in priority order, that
    has a candidate for the query wins, with its first candidate. *)
Fixpoint first_match (dirs : list string) (query : string) : option string :=
  match dirs with
  | [] => None
  | directory :: rest =>
      match glob directory query with
      | path0 :: _ => Some path0
      | [] => first_match rest query
      end
  end.

(** The dictionary that a sequence of loads builds. *)
Definition built (names : list string) (loaded : list (string * string))
    : gmap string Images.Img :=
  foldl (fun m qp =>
           match from_path (snd qp) with
           | Ok i => <[key_of names (fst qp) := i]> m
           | Raise _ => m
           end) ∅ loaded.


(** The state of a call after the directories [done]. *)
Record Scanned (names : list string) (done : list string) (pr : Progress) : Prop :=
  mkScanned
  { scanned_d : d pr = built names (loads pr);
    scanned_seen : forall q,
      q ∈ seen pr <-> q ∈ set_names names /\ first_match done q <> None;
    scanned_loads : forall q p,
      (q, p) ∈ loads pr <-> q ∈ set_names names /\ first_match done q = Some p;
    scanned_loads_once : NoDup (map fst (loads pr));
    scanned_dirs : map fst (scans pr) = done;
    scanned_scans : forall i directory qs,
      scans pr !! i = Some (directory, qs) ->
      forall q, q ∈ qs <-> q ∈ set_names names /\ first_match (take i done) q = None }.

End WithFiles.

(** *** A file system to run the loader on *)

(** Two icon directories: [/A] holds [icon.png] and [logo.svg], [/B]
    holds [icon.svg]. *)
Definition two_dirs_glob (directory query : string) : list string :=
  if String.eqb directory "/A" then
    if String.eqb query "icon.*" then ["/A/icon.png"]
    else if String.eqb query "logo.svg" then ["/A/logo.svg"]
    else []
  else if String.eqb directory "/B" then
    if String.eqb query "icon.*" then ["/B/icon.svg"] else []
  else [].

Definition two_dirs_read (image_path : string) : option (list Byte.byte) :=
  if String.eqb image_path "/A/icon.png" then Some [x89; x50; x4e; x47]
  else if String.eqb image_path "/A/logo.svg" then Some [x3c; x73; x76; x67]
  else if String.eqb image_path "/B/icon.svg" then Some [x3c; x73; x76; x67]
  else None.

(** A file system in which no file can be opened. *)
Definition no_file_opens (image_path : string) : option (list Byte.byte) := None.

End Loading.

(* ===================================================================== *)
(** ** The transform matrix                                                *)
(* ===================================================================== *)

Section CairoFacts.
Import Cairo.
Local Open Scope R_scope.

Lemma transform_multiply a b p :
  transform_point (multiply a b) p = transform_point b (transform_point a p).
Proof.
  destruct a, b, p. unfold transform_point, multiply. simpl.
  f_equal; ring.
Qed.

Lemma transform_mat_rot xt yt a p :
  transform_point (mat_rot xt yt a) p = rotate_about (xt, yt) a p.
Proof.
  destruct p as [x y].
  unfold mat_rot, translate, rotate, rotate_about, transform_point, multiply,
    init_translate, init_rotate, identity. simpl.
  f_equal; ring.
Qed.

Lemma transform_scale sx sy p :
  transform_point (scale identity sx sy) p = scale_point sx sy p.
Proof.
  destruct p as [x y].
  unfold scale, scale_point, transform_point, multiply, init_scale, identity. simpl.
  f_equal; ring.
Qed.

(** Whenever the angle is above the threshold, the matrix rotates about
    (surf_width * tr_width / 2, surf_height * tr_height / 2) and then scales
    into the surface's coordinates. *)
Lemma get_cairo_pattern_rotated sw sh w h theta trw trh :
  tr_factor sw w = Some trw ->
  tr_factor sh h = Some trh ->
  Rabs theta > epsilon ->
  exists m, get_cairo_pattern sw sh w h theta = Some m /\
    forall p, transform_point m p =
      scale_point trw trh
        (rotate_about (IZR sw * trw * (1 / 2), IZR sh * trh * (1 / 2))
                      (pi / 180 * theta) p).
Proof.
  intros Hw Hh Hth. unfold get_cairo_pattern. rewrite Hw, Hh.
  destruct (Rgt_dec (Rabs theta) epsilon) as [_ | Hn]; [| contradiction].
  eexists; split; [reflexivity |].
  intros p. rewrite transform_multiply, transform_mat_rot, transform_scale.
  reflexivity.
Qed.

Lemma pi_is_obtuse : PI / 2 < pi /\ pi < 3 * (PI / 2).
Proof.
  pose proof PI_4. pose proof PI2_3_2. unfold pi. split; lra.
Qed.

Lemma cos_pi_negative : cos pi < 0.
Proof. destruct pi_is_obtuse. apply cos_lt_0; assumption. Qed.

Lemma half_turn_above_threshold : Rabs 180 > epsilon.
Proof. rewrite Rabs_right; unfold epsilon; lra. Qed.

(** With a surface of the target size the factors are 1 and the pivot is
    the centre of the image. *)
Lemma get_cairo_pattern_same_size w h theta :
  Rabs theta > epsilon ->
  exists m, get_cairo_pattern w h (Some w) (Some h) theta = Some m /\
    forall p, transform_point m p =
      rotate_about (IZR w / 2, IZR h / 2) (pi / 180 * theta) p.
Proof.
  intros Hth.
  destruct (get_cairo_pattern_rotated w h (Some w) (Some h) theta 1 1)
    as (m & Hm & Hp); try assumption.
  - unfold tr_factor. rewrite Z.eqb_refl. reflexivity.
  - unfold tr_factor. rewrite Z.eqb_refl. reflexivity.
  - exists m. split; [assumption |]. intros p. rewrite Hp.
    unfold scale_point, rotate_about. simpl. f_equal; field.
Qed.

(** C2, at a surface of 100 x 50 shown at 200 x 50 and turned by 180
    degrees.  The resized image has its centre at (100, 25); a rotation
    about that centre, composed with the stretch, would send the point
    (110, 25) to the surface position of (90, 25), which is (45, 25).
    The matrix of [get_cairo_pattern] pivots about (25, 25) instead (the
    surface width times [tr_width], halved) and sends the point to the
    left of 12.5. *)
Theorem get_cairo_pattern_pivot_off_centre :
  exists m, get_cairo_pattern 100 50 (Some 200%Z) (Some 50%Z) 180 = Some m /\
    scale_point (1 / 2) 1 (100 - 10, 25) = (45, 25) /\
    fst (transform_point m (100 + 10, 25)) < 45 - 32.
Proof.
  destruct (get_cairo_pattern_rotated 100 50 (Some 200%Z) (Some 50%Z) 180
              (100 / 200) 1) as (m & Hm & Hp).
  - reflexivity.
  - reflexivity.
  - apply half_turn_above_threshold.
  - exists m. split; [exact Hm |]. split.
    + unfold scale_point. simpl. f_equal; lra.
    + rewrite Hp. unfold scale_point, rotate_about. simpl.
      replace (pi / 180 * 180) with pi by field.
      pose proof cos_pi_negative. nra.
Qed.

End CairoFacts.

(* ===================================================================== *)
(** ** The image handle: memoized reads                                    *)
(* ===================================================================== *)

Section ImageReads.
Import Py Images.

Variable decode : list Byte.byte -> option Z -> option Z -> Decoded.

Lemma Memo_refl st : Memo st st.
Proof. constructor; auto. Qed.

Lemma Memo_trans st1 st2 st3 : Memo st1 st2 -> Memo st2 st3 -> Memo st1 st3.
Proof.
  intros [] []. constructor; try congruence; auto.
  lia.
Qed.

Lemma Quiet_refl st : Quiet st st.
Proof. split; [apply Memo_refl | auto]. Qed.

Lemma Quiet_trans st1 st2 st3 : Quiet st1 st2 -> Quiet st2 st3 -> Quiet st1 st3.
Proof.
  intros (M1 & S1 & P1 & F1) (M2 & S2 & P2 & F2).
  split; [eapply Memo_trans; eassumption |].
  split; [congruence |]. split; congruence.
Qed.

Lemma Quiet_Memo st st' : Quiet st st' -> Memo st st'.
Proof. intros H. apply H. Qed.

(** A step outside the image that finishes nothing is quiet. *)
Lemma Quiet_outside st st' :
  img st' = img st -> finished st' = finished st -> next_id st <= next_id st' ->
  Quiet st st'.
Proof.
  intros Hi Hf Hn. split; [| rewrite Hi, Hf; auto].
  constructor; rewrite ?Hi, ?Hf; auto.
Qed.

Lemma Memo_current_width st st' :
  Memo st st' -> current_width decode st' = current_width decode st.
Proof.
  intros M. unfold current_width.
  rewrite (memo_width _ _ M), (memo_bytes _ _ M). reflexivity.
Qed.

Lemma Memo_current_height st st' :
  Memo st st' -> current_height decode st' = current_height decode st.
Proof.
  intros M. unfold current_height.
  rewrite (memo_height _ _ M), (memo_bytes _ _ M). reflexivity.
Qed.

Lemma Memo_current_theta st st' :
  Memo st st' -> current_theta st' = current_theta st.
Proof.
  intros M. unfold current_theta.
  rewrite (memo_theta _ _ M). reflexivity.
Qed.

Lemma Memo_surface_current st st' s :
  Memo st st' -> surface_current decode st s -> surface_current decode st' s.
Proof.
  intros M (w & h & Hw & Hh & Hs). exists w, h.
  rewrite (Memo_current_width _ _ M), (Memo_current_height _ _ M), (memo_bytes _ _ M).
  auto.
Qed.

Lemma Memo_pattern_current st st' p :
  Memo st st' -> pattern_current decode st p -> pattern_current decode st' p.
Proof.
  intros M (Hw & Hh & Ht & Hs). unfold pattern_current.
  rewrite (Memo_current_width _ _ M), (Memo_current_height _ _ M),
    (Memo_current_theta _ _ M).
  eauto using Memo_surface_current.
Qed.

Lemma Memo_sizes_ok st st' : Memo st st' -> sizes_ok st -> sizes_ok st'.
Proof.
  intros M (Hw & Hh). unfold sizes_ok.
  rewrite (memo_width _ _ M), (memo_height _ _ M). auto.
Qed.

Lemma get_cairo_surface_spec b w h st r st' :
  get_cairo_surface decode b w h st = (r, st') ->
  img st' = img st /\ finished st' = finished st /\
  match r with
  | Ok s => decoded_size decode b w h = Some (size_of s) /\
            surf_id s = next_id st /\ next_id st' = S (next_id st)
  | Raise e => decoded_size decode b w h = None /\
               not_attribute_error e /\ next_id st' = next_id st
  end.
Proof.
  unfold get_cairo_surface, Images.decode, decoded_size, bind, log_exception.
  destruct (decode b w h); simpl.
  - intros [= <- <-]. simpl. auto.
  - destruct (decode b None None); intros [= <- <-]; simpl; auto.
  - intros [= <- <-]. simpl. auto.
Qed.

Lemma get_cairo_surface_Quiet b w h st r st' :
  get_cairo_surface decode b w h st = (r, st') -> Quiet st st'.
Proof.
  intros H. apply get_cairo_surface_spec in H. destruct H as (Hi & Hf & Hr).
  apply Quiet_outside; auto. destruct r; lia.
Qed.

Lemma default_surface_spec st r st' :
  default_surface decode st = (r, st') ->
  Quiet st st' /\
  _default_size (img st') = _default_size (img st) /\
  (defaults_ok decode st ->
   defaults_ok decode st' /\
   match r with
   | Ok s => _default_surface (img st') = Some s /\
             natural_size decode (bytes_img (img st)) = Some (size_of s)
   | Raise e => natural_size decode (bytes_img (img st)) = None /\
                not_attribute_error e
   end).
Proof.
  unfold default_surface, bind, get_img, ret, modify_img.
  destruct (_default_surface (img st)) as [s |] eqn:E.
  - intros [= <- <-]. split; [apply Quiet_refl |]. split; [reflexivity |].
    intros Hd. split; [assumption |]. split; [assumption |].
    destruct Hd as [Hd1 _]. apply (Hd1 s E).
  - destruct (get_cairo_surface decode (bytes_img (img st)) None None st)
      as [[s | e] st1] eqn:G;
      apply get_cairo_surface_spec in G; destruct G as (Hi & Hf & Hr);
      intros [= <- <-].
    + destruct Hr as (Hsz & Hid & Hn).
      split; [| split].
      * split; [| simpl; rewrite Hi, Hf; auto].
        constructor; simpl; rewrite ?Hi, ?Hf, ?Hn; auto.
        intros s0 Hs0. congruence.
      * simpl. rewrite Hi. reflexivity.
      * intros (Hd1 & Hd2). split; [| split; [reflexivity | exact Hsz]].
        unfold defaults_ok; simpl. rewrite Hi; simpl. split.
        -- intros s0 [= <-]. split; [exact Hsz | lia].
        -- exact Hd2.
    + destruct Hr as (Hsz & Hna & Hn).
      split; [| split].
      * apply Quiet_outside; auto. lia.
      * rewrite Hi. reflexivity.
      * intros (Hd1 & Hd2). split; [| split; assumption].
        unfold defaults_ok. rewrite Hi, Hn. split; assumption.
Qed.

Lemma Quiet_set_default_size st sz :
  _default_size (img st) = None ->
  Quiet st (with_img (set_default_size_attr (Some sz)) st).
Proof.
  intros Hn. split; [| simpl; auto].
  constructor; simpl; auto. intros sz0 H0. congruence.
Qed.

Lemma default_size_spec st r st' :
  default_size decode st = (r, st') ->
  Quiet st st' /\
  (defaults_ok decode st ->
   defaults_ok decode st' /\
   match r with
   | Ok sz => _default_size (img st') = Some sz /\
              natural_size decode (bytes_img (img st)) = Some sz
   | Raise e => natural_size decode (bytes_img (img st)) = None /\
                not_attribute_error e
   end).
Proof.
  unfold default_size, bind, get_img, ret, modify_img.
  destruct (_default_size (img st)) as [sz |] eqn:E.
  - intros [= <- <-]. split; [apply Quiet_refl |].
    intros Hd. split; [assumption |]. split; [assumption |].
    destruct Hd as [_ Hd2]. apply (Hd2 sz E).
  - destruct (default_surface decode st) as [[s | e] st1] eqn:G;
      apply default_surface_spec in G; destruct G as (HQ & Hsz & Hr);
      intros [= <- <-].
    + split.
      * eapply Quiet_trans; [exact HQ |].
        apply Quiet_set_default_size. congruence.
      * intros Hd. destruct (Hr Hd) as ((Hd1 & Hd2) & Hs & Hnat).
        split; [| split; [reflexivity | exact Hnat]].
        unfold defaults_ok; simpl. split; [exact Hd1 |].
        intros sz0 [= <-]. rewrite (memo_bytes _ _ (Quiet_Memo _ _ HQ)). exact Hnat.
    + split; [exact HQ |]. intros Hd. exact (Hr Hd).
Qed.

Lemma theta_spec st :
  theta st = (Ok (current_theta st), st).
Proof.
  unfold theta, current_theta, bind, get_img, ret.
  destruct (_theta (img st)); reflexivity.
Qed.

Lemma width_spec st r st' :
  width decode st = (r, st') ->
  Quiet st st' /\
  (defaults_ok decode st ->
   defaults_ok decode st' /\
   match r with
   | Ok w => current_width decode st = Some w
   | Raise e => current_width decode st = None /\ not_attribute_error e
   end).
Proof.
  unfold width, current_width, bind, get_img, ret.
  destruct (_width (img st)) as [w |] eqn:E.
  - intros [= <- <-]. split; [apply Quiet_refl |]. auto.
  - destruct (default_size decode st) as [[sz | e] st1] eqn:G;
      apply default_size_spec in G; destruct G as (HQ & Hr);
      intros [= <- <-]; (split; [exact HQ |]); intros Hd;
      destruct (Hr Hd) as (Hd' & Hm); (split; [exact Hd' |]).
    + destruct Hm as [_ ->]. reflexivity.
    + destruct Hm as [-> Hna]. auto.
Qed.

Lemma height_spec st r st' :
  height decode st = (r, st') ->
  Quiet st st' /\
  (defaults_ok decode st ->
   defaults_ok decode st' /\
   match r with
   | Ok h => current_height decode st = Some h
   | Raise e => current_height decode st = None /\ not_attribute_error e
   end).
Proof.
  unfold height, current_height, bind, get_img, ret.
  destruct (_height (img st)) as [h |] eqn:E.
  - intros [= <- <-]. split; [apply Quiet_refl |]. auto.
  - destruct (default_size decode st) as [[sz | e] st1] eqn:G;
      apply default_size_spec in G; destruct G as (HQ & Hr);
      intros [= <- <-]; (split; [exact HQ |]); intros Hd;
      destruct (Hr Hd) as (Hd' & Hm); (split; [exact Hd' |]).
    + destruct Hm as [_ ->]. reflexivity.
    + destruct Hm as [-> Hna]. auto.
Qed.

Lemma defaults_ok_frame st st' :
  bytes_img (img st') = bytes_img (img st) ->
  _default_surface (img st') = _default_surface (img st) ->
  _default_size (img st') = _default_size (img st) ->
  next_id st <= next_id st' ->
  defaults_ok decode st -> defaults_ok decode st'.
Proof.
  intros Hb Hs Hz Hn (H1 & H2). unfold defaults_ok.
  rewrite Hb, Hs, Hz. split; [| exact H2].
  intros s E. destruct (H1 s E). split; [assumption | lia].
Qed.

Lemma Memo_set_surface st o : Memo st (with_img (set_surface_attr o) st).
Proof. constructor; simpl; auto. Qed.

Lemma Memo_set_pattern st o : Memo st (with_img (set_pattern_attr o) st).
Proof. constructor; simpl; auto. Qed.

Lemma Memo_finish st s :
  Memo st (mkState (img st) (next_id st) (decode_calls st)
             (surf_id s :: finished st) (warnings st)).
Proof. constructor; simpl; auto. intros i Hi. now apply list_elem_of_further. Qed.

Lemma surface_spec st r st' :
  surface decode st = (r, st') ->
  Memo st st' /\
  _pattern (img st') = _pattern (img st) /\
  finished st' = finished st /\
  (defaults_ok decode st ->
   defaults_ok decode st' /\
   match r with
   | Ok s =>
       _surface (img st') = Some s /\
       ((_surface (img st) = Some s /\ st' = st) \/
        (_surface (img st) = None /\ surface_current decode st' s /\
         next_id st <= surf_id s /\ surf_id s < next_id st'))
   | Raise e => not_attribute_error e /\ _surface (img st') = _surface (img st)
   end).
Proof.
  unfold surface, bind, get_img, ret, modify_img.
  destruct (_surface (img st)) as [s0 |] eqn:E.
  { intros [= <- <-]. split; [apply Memo_refl |].
    split; [reflexivity |]. split; [reflexivity |].
    intros Hd. split; [exact Hd |]. split; [exact E |].
    left. split; reflexivity. }
  destruct (width decode st) as [[w | e] st1] eqn:G1;
    apply width_spec in G1; destruct G1 as (Q1 & R1).
  2:{ intros [= <- <-]. destruct Q1 as (M1 & S1 & P1 & F1).
      split; [exact M1 |]. split; [exact P1 |]. split; [exact F1 |].
      intros Hd. destruct (R1 Hd) as (Hd1 & Hc & Hna).
      split; [exact Hd1 |]. split; [exact Hna | congruence]. }
  destruct (height decode st1) as [[h | e] st2] eqn:G2;
    apply height_spec in G2; destruct G2 as (Q2 & R2).
  2:{ intros [= <- <-].
      destruct (Quiet_trans _ _ _ Q1 Q2) as (M & S & P & F).
      split; [exact M |]. split; [exact P |]. split; [exact F |].
      intros Hd. destruct (R1 Hd) as (Hd1 & Hw).
      destruct (R2 Hd1) as (Hd2 & Hc & Hna).
      split; [exact Hd2 |]. split; [exact Hna | congruence]. }
  pose proof (Quiet_trans _ _ _ Q1 Q2) as Q12.
  destruct (get_cairo_surface decode (bytes_img (img st)) (Some w) (Some h) st2)
    as [[s | e] st3] eqn:G3;
    pose proof (get_cairo_surface_Quiet _ _ _ _ _ _ G3) as Q3;
    apply get_cairo_surface_spec in G3; destruct G3 as (Hi & Hf & Hr);
    pose proof (Quiet_trans _ _ _ Q12 Q3) as Q;
    destruct Q as (M & S & P & F);
    intros [= <- <-].
  - destruct Hr as (Hsz & Hid & Hn).
    pose proof (Memo_trans _ _ _ M (Memo_set_surface st3 (Some s))) as M'.
    split; [exact M' |]. split; [simpl; exact P |]. split; [simpl; exact F |].
    intros Hd. destruct (R1 Hd) as (Hd1 & Hw). destruct (R2 Hd1) as (Hd2 & Hh).
    split.
    + apply (defaults_ok_frame st2); simpl; rewrite ?Hi; auto. lia.
    + split; [reflexivity |]. right. split; [reflexivity |].
      split.
      * exists w, h.
        rewrite (Memo_current_width _ _ M'), (Memo_current_height _ _ M'),
          (memo_bytes _ _ M').
        rewrite <- (Memo_current_height _ _ (Quiet_Memo _ _ Q1)).
        auto.
      * simpl. pose proof (memo_next_id _ _ (Quiet_Memo _ _ Q12)). lia.
  - destruct Hr as (Hsz & Hna & Hn).
    split; [exact M |]. split; [exact P |]. split; [exact F |].
    intros Hd. destruct (R1 Hd) as (Hd1 & Hw). destruct (R2 Hd1) as (Hd2 & Hh).
    split.
    + apply (defaults_ok_frame st2); rewrite ?Hi; auto. lia.
    + split; [exact Hna | congruence].
Qed.

Lemma Memo_surface_ok st st' :
  Memo st st' -> _surface (img st') = _surface (img st) ->
  surface_ok decode st -> surface_ok decode st'.
Proof.
  intros M E H s Hs. rewrite E in Hs. destruct (H s Hs) as (Hc & Hid).
  split; [eapply Memo_surface_current; eassumption |].
  pose proof (memo_next_id _ _ M). lia.
Qed.

Lemma Memo_pattern_ok st st' :
  Memo st st' -> _pattern (img st') = _pattern (img st) ->
  pattern_ok decode st -> pattern_ok decode st'.
Proof.
  intros M E H p Hp. rewrite E in Hp. destruct (H p Hp) as (Hc & Hid).
  split; [eapply Memo_pattern_current; eassumption |].
  pose proof (memo_next_id _ _ M). lia.
Qed.

Lemma surface_keeps_surface_ok st r st' :
  surface decode st = (r, st') ->
  defaults_ok decode st -> surface_ok decode st -> surface_ok decode st'.
Proof.
  intros G Hd Hs. apply surface_spec in G. destruct G as (M & P & F & R).
  destruct (R Hd) as (Hd' & Hr). destruct r as [s | e].
  - destruct Hr as (Es & [(E0 & ->) | (E0 & Hc & Hlo & Hhi)]); [exact Hs |].
    intros s1 E1. rewrite Es in E1. injection E1 as <-. auto.
  - destruct Hr as (_ & Es). eapply Memo_surface_ok; eassumption.
Qed.

(** A surface found cached after a read is the one cached before it or
    a new object. *)
Lemma surface_same_or_new st r st' :
  surface decode st = (r, st') ->
  defaults_ok decode st ->
  forall s, _surface (img st') = Some s ->
    _surface (img st) = Some s \/ next_id st <= surf_id s.
Proof.
  intros G Hd s Hs. apply surface_spec in G. destruct G as (M & P & F & R).
  destruct (R Hd) as (Hd' & Hr). destruct r as [s1 | e].
  - destruct Hr as (Es & [(E0 & ->) | (E0 & Hc & Hlo & Hhi)]); [auto |].
    right. congruence.
  - destruct Hr as (_ & Es). left. congruence.
Qed.

Lemma get_cairo_pattern_spec surf w h t st r st' :
  get_cairo_pattern surf w h t st = (r, st') ->
  img st' = img st /\ finished st' = finished st /\
  match r with
  | Ok p => p = mkPattern (next_id st) surf w h t /\ next_id st' = S (next_id st)
  | Raise e => e = ZeroDivisionError /\ st' = st /\ ((w <= 0)%Z \/ (h <= 0)%Z)
  end.
Proof.
  unfold get_cairo_pattern.
  destruct (negb (w =? surf_width surf)%Z && (w =? 0)%Z) eqn:E1.
  { intros [= <- <-]. repeat split; auto. left.
    apply andb_true_iff in E1. destruct E1 as [_ E1]. apply Z.eqb_eq in E1. lia. }
  destruct (negb (h =? surf_height surf)%Z && (h =? 0)%Z) eqn:E2.
  { intros [= <- <-]. repeat split; auto. right.
    apply andb_true_iff in E2. destruct E2 as [_ E2]. apply Z.eqb_eq in E2. lia. }
  intros [= <- <-]. simpl. auto.
Qed.

Lemma pattern_spec st r st' :
  pattern decode st = (r, st') ->
  Memo st st' /\
  finished st' = finished st /\
  (defaults_ok decode st ->
   defaults_ok decode st' /\
   (forall s, _surface (img st') = Some s ->
      _surface (img st) = Some s \/ next_id st <= surf_id s) /\
   (surface_ok decode st -> surface_ok decode st') /\
   match r with
   | Ok p =>
       _pattern (img st') = Some p /\
       ((_pattern (img st) = Some p /\ st' = st) \/
        (_pattern (img st) = None /\
         next_id st <= pat_id p /\ pat_id p < next_id st' /\
         _surface (img st') = Some (pat_surface p) /\
         (surface_ok decode st -> pattern_current decode st' p)))
   | Raise e => not_attribute_error e /\ _pattern (img st') = _pattern (img st)
   end).
Proof.
  unfold pattern, bind, get_img, ret, modify_img.
  destruct (_pattern (img st)) as [p0 |] eqn:E.
  { intros [= <- <-]. split; [apply Memo_refl |]. split; [reflexivity |].
    intros Hd. split; [exact Hd |]. split; [auto |]. split; [auto |].
    split; [exact E |]. left. split; reflexivity. }
  destruct (surface decode st) as [rs st1] eqn:G1.
  pose proof (surface_keeps_surface_ok _ _ _ G1) as K1.
  pose proof (surface_same_or_new _ _ _ G1) as N1.
  apply surface_spec in G1. destruct G1 as (M1 & P1 & F1 & R1).
  destruct rs as [surf | e].
  2:{ intros [= <- <-]. split; [exact M1 |]. split; [exact F1 |].
      intros Hd. destruct (R1 Hd) as (Hd1 & Hna & Es).
      split; [exact Hd1 |]. split; [auto |]. split; [auto |].
      split; [exact Hna | congruence]. }
  destruct (width decode st1) as [[w | e] st2] eqn:G2;
    apply width_spec in G2; destruct G2 as (Q2 & R2).
  2:{ intros [= <- <-]. destruct Q2 as (M2 & S2 & P2 & F2).
      split; [eapply Memo_trans; eassumption |]. split; [congruence |].
      intros Hd. destruct (R1 Hd) as (Hd1 & Es & _).
      destruct (R2 Hd1) as (Hd2 & Hc & Hna).
      split; [exact Hd2 |].
      split; [intros s Hs2; apply N1; [exact Hd | congruence] |].
      split; [intros Hs; exact (Memo_surface_ok st1 _ M2 S2 (K1 Hd Hs)) |].
      split; [exact Hna | congruence]. }
  destruct (height decode st2) as [[h | e] st3] eqn:G3;
    apply height_spec in G3; destruct G3 as (Q3 & R3);
    pose proof (Quiet_trans _ _ _ Q2 Q3) as Q23.
  2:{ intros [= <- <-]. destruct Q23 as (M2 & S2 & P2 & F2).
      split; [eapply Memo_trans; eassumption |]. split; [congruence |].
      intros Hd. destruct (R1 Hd) as (Hd1 & Es & _).
      destruct (R2 Hd1) as (Hd2 & Hw). destruct (R3 Hd2) as (Hd3 & Hc & Hna).
      split; [exact Hd3 |].
      split; [intros s Hs2; apply N1; [exact Hd | congruence] |].
      split; [intros Hs; exact (Memo_surface_ok st1 _ M2 S2 (K1 Hd Hs)) |].
      split; [exact Hna | congruence]. }
  rewrite theta_spec.
  destruct (get_cairo_pattern surf w h (current_theta st3) st3) as [[p | e] st4] eqn:G4;
    apply get_cairo_pattern_spec in G4; destruct G4 as (Hi & Hf & Hr);
    destruct Q23 as (M23 & S23 & P23 & F23);
    pose proof (Memo_trans _ _ _ M1 M23) as M13;
    intros [= <- <-].
  - destruct Hr as (-> & Hn).
    assert (M4 : Memo st3 st4).
    { constructor; rewrite ?Hi, ?Hf; auto. lia. }
    pose proof (Memo_trans _ _ _ M13 M4) as M14.
    pose proof (Memo_trans _ _ _ M14 (Memo_set_pattern st4 (Some
      (mkPattern (next_id st3) surf w h (current_theta st3))))) as M'.
    split; [exact M' |]. split; [simpl; congruence |].
    intros Hd. destruct (R1 Hd) as (Hd1 & Es & _).
    destruct (R2 Hd1) as (Hd2 & Hw). destruct (R3 Hd2) as (Hd3 & Hh).
    assert (Es4 : _surface (img st4) = Some surf) by congruence.
    assert (Hs' : surface_ok decode st ->
              surface_ok decode
                (with_img (set_pattern_attr (Some (mkPattern (next_id st3) surf w h
                   (current_theta st3)))) st4)).
    { intros Hs. eapply (Memo_surface_ok st3);
        [| simpl; congruence | exact (Memo_surface_ok st1 st3 M23 S23 (K1 Hd Hs))].
      eapply Memo_trans; [exact M4 | apply Memo_set_pattern]. }
    split.
    { apply (defaults_ok_frame st3); simpl; rewrite ?Hi; auto. lia. }
    split; [intros s Hs2; apply N1; [exact Hd | simpl in Hs2; congruence] |].
    split; [exact Hs' |].
    split; [reflexivity |]. right. split; [reflexivity |].
    simpl. pose proof (memo_next_id _ _ M13).
    split; [lia |]. split; [lia |]. split; [exact Es4 |].
    intros Hs. unfold pattern_current; simpl.
    rewrite (Memo_current_width _ _ M'), (Memo_current_height _ _ M'),
      (Memo_current_theta _ _ M').
    rewrite <- (Memo_current_width _ _ M1), <- (Memo_current_theta _ _ M13).
    rewrite <- (Memo_current_height _ _ (Memo_trans _ _ _ M1 (Quiet_Memo _ _ Q2))).
    split; [exact Hw |]. split; [exact Hh |]. split; [reflexivity |].
    apply (Hs' Hs surf). simpl. exact Es4.
  - destruct Hr as (-> & -> & _).
    split; [exact M13 |]. split; [congruence |].
    intros Hd. destruct (R1 Hd) as (Hd1 & Es & _).
    destruct (R2 Hd1) as (Hd2 & Hw). destruct (R3 Hd2) as (Hd3 & Hh).
    split; [exact Hd3 |].
    split; [intros s Hs2; apply N1; [exact Hd | congruence] |].
    split; [intros Hs; exact (Memo_surface_ok st1 _ M23 S23 (K1 Hd Hs)) |].
    split; [exact I | congruence].
Qed.

Lemma surface_cached st s :
  _surface (img st) = Some s -> surface decode st = (Ok s, st).
Proof.
  intros E. unfold surface, bind, get_img, ret. rewrite E. reflexivity.
Qed.

Lemma reset_surface_spec st r st' :
  reset_surface decode st = (r, st') ->
  Memo st st' /\
  _pattern (img st') = _pattern (img st) /\
  (defaults_ok decode st ->
   defaults_ok decode st' /\
   (r = Ok tt ->
    _surface (img st') = None /\
    forall s, _surface (img st) = Some s -> surf_id s ∈ finished st')).
Proof.
  unfold reset_surface, bind, hasattr.
  destruct (surface decode st) as [[s | e] st1] eqn:G1;
    apply surface_spec in G1; destruct G1 as (M1 & P1 & F1 & R1).
  - unfold del_surface, finish, modify_img, bind.
    destruct (surface decode st1) as [rs st2] eqn:G2.
    pose proof G2 as G2'. apply surface_spec in G2'.
    destruct G2' as (M2 & P2 & F2 & R2).
    pose proof (Memo_trans _ _ _ M1 M2) as M12.
    destruct rs as [s2 | e2]; intros [= <- <-].
    + split.
      { eapply Memo_trans; [exact M12 |].
        eapply Memo_trans; [apply (Memo_finish st2 s2) | apply Memo_set_surface]. }
      split; [simpl; congruence |].
      intros Hd. destruct (R1 Hd) as (Hd1 & Es1 & Hcase).
      rewrite (surface_cached _ _ Es1) in G2. injection G2 as <- <-.
      split.
      { apply (defaults_ok_frame st1); simpl; auto. }
      intros _. split; [reflexivity |].
      intros s0 E0. simpl.
      destruct Hcase as [(E & _) | (E & _)]; [| congruence].
      assert (s0 = s) as -> by congruence. apply list_elem_of_here.
    + split; [exact M12 |]. split; [congruence |].
      intros Hd. destruct (R1 Hd) as (Hd1 & _). destruct (R2 Hd1) as (Hd2 & _).
      split; [exact Hd2 | discriminate].
  - assert (Hraise : Memo st st1 /\ _pattern (img st1) = _pattern (img st) /\
              (defaults_ok decode st -> defaults_ok decode st1 /\
               (@Raise unit e = Ok tt -> _surface (img st1) = None /\
                forall s, _surface (img st) = Some s -> surf_id s ∈ finished st1))).
    { split; [exact M1 |]. split; [exact P1 |]. intros Hd.
      split; [apply (R1 Hd) | discriminate]. }
    destruct e; try (intros [= <- <-]; exact Hraise).
    simpl. unfold ret. intros [= <- <-].
    split; [exact M1 |]. split; [exact P1 |]. intros Hd.
    destruct (R1 Hd) as (_ & [] & _).
Qed.

Lemma reset_pattern_spec st r st' :
  reset_pattern decode st = (r, st') ->
  Memo st st' /\
  (defaults_ok decode st ->
   defaults_ok decode st' /\
   (r = Ok tt ->
    _pattern (img st') = None /\
    (surface_ok decode st -> surface_ok decode st') /\
    forall s, _surface (img st') = Some s ->
      _surface (img st) = Some s \/ next_id st <= surf_id s)).
Proof.
  unfold reset_pattern, bind, hasattr.
  destruct (pattern decode st) as [[p | e] st1] eqn:G1;
    apply pattern_spec in G1; destruct G1 as (M1 & F1 & R1).
  - unfold del_pattern, modify_img. intros [= <- <-].
    split; [eapply Memo_trans; [exact M1 | apply Memo_set_pattern] |].
    intros Hd. destruct (R1 Hd) as (Hd1 & Hn1 & Hs1 & _).
    split; [apply (defaults_ok_frame st1); simpl; auto |].
    intros _. split; [reflexivity |]. split.
    + intros Hs.
      apply (Memo_surface_ok st1); [apply Memo_set_pattern | reflexivity | auto].
    + simpl. exact Hn1.
  - assert (Hraise : Memo st st1 /\
              (defaults_ok decode st ->
               defaults_ok decode st1 /\
               (@Raise unit e = Ok tt ->
                _pattern (img st1) = None /\
                (surface_ok decode st -> surface_ok decode st1) /\
                forall s, _surface (img st1) = Some s ->
                  _surface (img st) = Some s \/ next_id st <= surf_id s))).
    { split; [exact M1 |]. intros Hd.
      split; [apply (R1 Hd) | discriminate]. }
    destruct e; try (intros [= <- <-]; exact Hraise).
    simpl. unfold ret. intros [= <- <-].
    split; [exact M1 |]. intros Hd.
    destruct (R1 Hd) as (_ & _ & _ & [] & _).
Qed.

Lemma _reset_spec st r st' :
  _reset decode st = (r, st') ->
  Memo st st' /\
  (defaults_ok decode st ->
   defaults_ok decode st' /\
   (r = Ok tt ->
    _pattern (img st') = None /\ surface_ok decode st' /\
    (forall s, _surface (img st') = Some s -> next_id st <= surf_id s) /\
    (forall s, _surface (img st) = Some s -> surf_id s ∈ finished st'))).
Proof.
  unfold _reset, bind.
  destruct (reset_surface decode st) as [[[] | e] st1] eqn:G1;
    apply reset_surface_spec in G1; destruct G1 as (M1 & P1 & R1).
  2:{ intros [= <- <-]. split; [exact M1 |]. intros Hd.
      split; [apply (R1 Hd) | discriminate]. }
  intros G2. apply reset_pattern_spec in G2. destruct G2 as (M2 & R2).
  split; [eapply Memo_trans; eassumption |].
  intros Hd. destruct (R1 Hd) as (Hd1 & R1'). destruct (R1' eq_refl) as (Es1 & Hfin).
  assert (Hs1 : surface_ok decode st1).
  { intros s Hs. congruence. }
  destruct (R2 Hd1) as (Hd2 & R2').
  split; [exact Hd2 |].
  intros ->. destruct (R2' eq_refl) as (Ep & Hs2 & Hnew).
  split; [exact Ep |]. split; [exact (Hs2 Hs1) |]. split.
  - intros s Hs. destruct (Hnew s Hs) as [E | Hle]; [congruence |].
    pose proof (memo_next_id _ _ M1). lia.
  - intros s Hs. apply (memo_finished _ _ M2). auto.
Qed.

End ImageReads.

(* ===================================================================== *)
(** ** The image handle: writes and sequences of operations                *)
(* ===================================================================== *)

Section ImageWrites.
Import Py Images.

Variable decode : list Byte.byte -> option Z -> option Z -> Decoded.

Lemma Keeps_refl st : Keeps decode st st.
Proof. constructor; auto. Qed.

Lemma Keeps_trans st1 st2 st3 :
  Keeps decode st1 st2 -> Keeps decode st2 st3 -> Keeps decode st1 st3.
Proof.
  intros [] []. constructor; try congruence; auto. lia.
Qed.

Lemma Keeps_bind {A B} (m : M A) (k : A -> M B) st :
  Keeps decode st (snd (m st)) ->
  (forall a st1, Keeps decode st1 (snd (k a st1))) ->
  Keeps decode st (snd (bind m k st)).
Proof.
  intros Hm Hk. unfold bind. destruct (m st) as [[a | e] st1]; simpl in *.
  - eapply Keeps_trans; [exact Hm | apply Hk].
  - exact Hm.
Qed.

(** A step that changes stored attributes only, to positive sizes. *)
Lemma Keeps_attrs st f :
  bytes_img (f (img st)) = bytes_img (img st) ->
  _default_surface (f (img st)) = _default_surface (img st) ->
  _default_size (f (img st)) = _default_size (img st) ->
  (sizes_ok st -> sizes_ok (with_img f st)) ->
  Keeps decode st (with_img f st).
Proof.
  intros Hb Hs Hz Hp. constructor; simpl; try congruence; auto.
  apply defaults_ok_frame; simpl; auto.
Qed.

Lemma Memo_Keeps st st' :
  Memo st st' -> (defaults_ok decode st -> defaults_ok decode st') ->
  Keeps decode st st'.
Proof.
  intros M Hd. constructor; try apply M; auto.
  apply Memo_sizes_ok; exact M.
Qed.

Lemma default_size_Keeps st : Keeps decode st (snd (default_size decode st)).
Proof.
  destruct (default_size decode st) as [r st'] eqn:G.
  apply default_size_spec in G. destruct G as (Q & R).
  apply Memo_Keeps; [apply Q | apply R].
Qed.

Lemma width_Keeps st : Keeps decode st (snd (width decode st)).
Proof.
  destruct (width decode st) as [r st'] eqn:G.
  apply width_spec in G. destruct G as (Q & R).
  apply Memo_Keeps; [apply Q | apply R].
Qed.

Lemma height_Keeps st : Keeps decode st (snd (height decode st)).
Proof.
  destruct (height decode st) as [r st'] eqn:G.
  apply height_spec in G. destruct G as (Q & R).
  apply Memo_Keeps; [apply Q | apply R].
Qed.

Lemma surface_Keeps st : Keeps decode st (snd (surface decode st)).
Proof.
  destruct (surface decode st) as [r st'] eqn:G.
  apply surface_spec in G. destruct G as (M & _ & _ & R).
  apply Memo_Keeps; [apply M | apply R].
Qed.

Lemma pattern_Keeps st : Keeps decode st (snd (pattern decode st)).
Proof.
  destruct (pattern decode st) as [r st'] eqn:G.
  apply pattern_spec in G. destruct G as (M & _ & R).
  apply Memo_Keeps; [apply M | apply R].
Qed.

Lemma _reset_Keeps st : Keeps decode st (snd (_reset decode st)).
Proof.
  destruct (_reset decode st) as [r st'] eqn:G.
  apply _reset_spec in G. destruct G as (M & R).
  apply Memo_Keeps; [apply M | apply R].
Qed.

Lemma Keeps_void {A} (m : M A) st :
  Keeps decode st (snd (m st)) -> Keeps decode st (snd (void m st)).
Proof.
  intros H. apply Keeps_bind; [exact H |]. intros a st1. apply Keeps_refl.
Qed.

Lemma Keeps_lift {A} (r : Result A) st : Keeps decode st (snd (lift r st)).
Proof. apply Keeps_refl. Qed.

Lemma sizes_ok_set_width st w :
  (1 <= w)%Z -> sizes_ok st -> sizes_ok (with_img (set_width_attr (Some w)) st).
Proof.
  intros Hw (H1 & H2). split; simpl; [| exact H2].
  intros w0 [= <-]. exact Hw.
Qed.

Lemma sizes_ok_set_height st h :
  (1 <= h)%Z -> sizes_ok st -> sizes_ok (with_img (set_height_attr (Some h)) st).
Proof.
  intros Hh (H1 & H2). split; simpl; [exact H1 |].
  intros h0 [= <-]. exact Hh.
Qed.

Lemma set_width_Keeps v st : Keeps decode st (snd (set_width decode v st)).
Proof.
  unfold set_width. apply Keeps_bind.
  - apply Keeps_attrs; auto. apply sizes_ok_set_width. lia.
  - intros _ st1. apply _reset_Keeps.
Qed.

Lemma set_height_Keeps v st : Keeps decode st (snd (set_height decode v st)).
Proof.
  unfold set_height. apply Keeps_bind.
  - apply Keeps_attrs; auto. apply sizes_ok_set_height. lia.
  - intros _ st1. apply _reset_Keeps.
Qed.

Lemma set_theta_Keeps v st : Keeps decode st (snd (set_theta decode v st)).
Proof.
  unfold set_theta. apply Keeps_bind; [apply Keeps_lift |].
  intros t st0. apply Keeps_bind.
  - apply Keeps_attrs; auto.
  - intros _ st1. apply _reset_Keeps.
Qed.

Lemma del_width_Keeps st : Keeps decode st (snd (del_width st)).
Proof.
  unfold del_width, bind, get_img, raise.
  destruct (_width (img st)); [| apply Keeps_refl].
  apply Keeps_attrs; auto. intros (H1 & H2). split; simpl; [discriminate | exact H2].
Qed.

Lemma del_height_Keeps st : Keeps decode st (snd (del_height st)).
Proof.
  unfold del_height, bind, get_img, raise.
  destruct (_height (img st)); [| apply Keeps_refl].
  apply Keeps_attrs; auto. intros (H1 & H2). split; simpl; [exact H1 | discriminate].
Qed.

Lemma del_theta_Keeps st : Keeps decode st (snd (del_theta st)).
Proof.
  unfold del_theta, bind, get_img, raise.
  destruct (_theta (img st)); [| apply Keeps_refl].
  apply Keeps_attrs; auto.
Qed.

Lemma scale_Keeps wf hf lock st : Keeps decode st (snd (scale decode wf hf lock st)).
Proof.
  unfold scale.
  destruct (negb (truthy_opt wf || truthy_opt hf)); [apply Keeps_refl |].
  apply Keeps_bind; [apply default_size_Keeps |]. intros size st1.
  apply Keeps_bind; [apply Keeps_lift |]. intros [cw ch] st2.
  apply Keeps_bind.
  - destruct cw; [apply set_width_Keeps | apply Keeps_refl | apply Keeps_refl].
  - intros _ st3.
    destruct ch; [apply set_height_Keeps | apply Keeps_refl | apply Keeps_refl].
Qed.

Lemma resize_Keeps w h st : Keeps decode st (snd (resize decode w h st)).
Proof.
  unfold resize.
  apply Keeps_bind; [apply default_size_Keeps |]. intros [width0 height0] st1.
  apply Keeps_bind.
  { destruct w; [| apply Keeps_refl].
    apply Keeps_bind; [apply Keeps_lift |]. intros f st2. apply Keeps_refl. }
  intros wf st2. apply Keeps_bind.
  { destruct h; [| apply Keeps_refl].
    apply Keeps_bind; [apply Keeps_lift |]. intros f st3. apply Keeps_refl. }
  intros hf st3.
  destruct (truthy_opt w && truthy_opt h); [apply scale_Keeps |].
  destruct (truthy_opt w || truthy_opt h); [apply scale_Keeps | apply Keeps_refl].
Qed.

Lemma run_op_Keeps o st : Keeps decode st (snd (run_op decode o st)).
Proof.
  destruct o; simpl.
  - apply Keeps_void, default_size_Keeps.
  - apply Keeps_void, width_Keeps.
  - apply Keeps_void, height_Keeps.
  - apply Keeps_void. rewrite theta_spec. apply Keeps_refl.
  - apply set_width_Keeps.
  - apply set_height_Keeps.
  - apply set_theta_Keeps.
  - apply del_width_Keeps.
  - apply del_height_Keeps.
  - apply del_theta_Keeps.
  - apply Keeps_void, surface_Keeps.
  - apply Keeps_attrs; auto.
  - apply Keeps_void, pattern_Keeps.
  - apply Keeps_attrs; auto.
  - apply resize_Keeps.
  - apply scale_Keeps.
Qed.

Lemma exec_Keeps ops st : Keeps decode st (exec decode ops st).
Proof.
  revert st. induction ops as [| o ops IH]; intros st; simpl.
  - apply Keeps_refl.
  - eapply Keeps_trans; [apply run_op_Keeps | apply IH].
Qed.

Lemma Inv_initial bytes nm pth : Inv decode (initial (Img_init bytes nm pth)).
Proof.
  repeat split; simpl; intros; discriminate.
Qed.

Lemma Inv_Quiet st st' :
  Quiet st st' -> defaults_ok decode st' -> Inv decode st -> Inv decode st'.
Proof.
  intros (M & S & P & F) Hd (_ & Hs & Hp & Hz).
  split; [exact Hd |]. split; [eapply Memo_surface_ok; eassumption |].
  split; [eapply Memo_pattern_ok; eassumption |].
  eapply Memo_sizes_ok; eassumption.
Qed.

(** After a reset that returns the image is consistent again, whatever
    the caches held before. *)
Lemma _reset_Inv st st' :
  defaults_ok decode st -> sizes_ok st ->
  _reset decode st = (Ok tt, st') -> Inv decode st'.
Proof.
  intros Hd Hz G. apply _reset_spec in G. destruct G as (M & R).
  destruct (R Hd) as (Hd' & R'). destruct (R' eq_refl) as (Ep & Hs & _).
  split; [exact Hd' |]. split; [exact Hs |]. split.
  - intros p Hp. congruence.
  - eapply Memo_sizes_ok; eassumption.
Qed.

Lemma set_width_Inv v st st' :
  Inv decode st -> set_width decode v st = (Ok tt, st') -> Inv decode st'.
Proof.
  intros (Hd & _ & _ & Hz). apply _reset_Inv.
  - apply (defaults_ok_frame _ st); auto.
  - apply sizes_ok_set_width; [lia | exact Hz].
Qed.

Lemma set_height_Inv v st st' :
  Inv decode st -> set_height decode v st = (Ok tt, st') -> Inv decode st'.
Proof.
  intros (Hd & _ & _ & Hz). apply _reset_Inv.
  - apply (defaults_ok_frame _ st); auto.
  - apply sizes_ok_set_height; [lia | exact Hz].
Qed.

Lemma set_theta_Inv v st st' :
  Inv decode st -> set_theta decode v st = (Ok tt, st') -> Inv decode st'.
Proof.
  intros (Hd & _ & _ & Hz). unfold set_theta, bind, lift.
  destruct (to_float v) as [t | e]; [| discriminate].
  apply _reset_Inv.
  - apply (defaults_ok_frame _ st); auto.
  - exact Hz.
Qed.

Lemma default_size_Inv st r st' :
  Inv decode st -> default_size decode st = (r, st') -> Inv decode st'.
Proof.
  intros HI G. apply default_size_spec in G. destruct G as (Q & R).
  apply (Inv_Quiet st); auto. apply R, HI.
Qed.

Lemma surface_Inv st r st' :
  Inv decode st -> surface decode st = (r, st') -> Inv decode st'.
Proof.
  intros (Hd & Hs & Hp & Hz) G.
  pose proof (surface_keeps_surface_ok _ _ _ _ G Hd Hs) as Hs'.
  apply surface_spec in G. destruct G as (M & P & F & R).
  split; [apply (R Hd) |]. split; [exact Hs' |].
  split; [eapply Memo_pattern_ok; eassumption |].
  eapply Memo_sizes_ok; eassumption.
Qed.

Lemma pattern_Inv st r st' :
  Inv decode st -> pattern decode st = (r, st') -> Inv decode st'.
Proof.
  intros (Hd & Hs & Hp & Hz) G.
  apply pattern_spec in G. destruct G as (M & F & R).
  destruct (R Hd) as (Hd' & _ & Hs' & Hr).
  split; [exact Hd' |]. split; [exact (Hs' Hs) |].
  split; [| eapply Memo_sizes_ok; eassumption].
  destruct r as [p | e].
  - destruct Hr as (Ep & [(E0 & ->) | (E0 & Hlo & Hhi & Es & Hc)]); [exact Hp |].
    intros p1 E1. rewrite Ep in E1. injection E1 as <-. auto.
  - destruct Hr as (_ & Ep). eapply Memo_pattern_ok; eassumption.
Qed.

Lemma scale_Inv wf hf lock st st' :
  Inv decode st -> scale decode wf hf lock st = (Ok tt, st') -> Inv decode st'.
Proof.
  intros HI. unfold scale.
  destruct (negb (truthy_opt wf || truthy_opt hf)); [discriminate |].
  unfold bind at 1.
  destruct (default_size decode st) as [[size | e] st1] eqn:G1; [| discriminate].
  apply (default_size_Inv _ _ _ HI) in G1.
  unfold bind at 1, lift.
  destruct (if lock then _scale_lock wf hf size else _scale_free wf hf size)
    as [res | e]; [| discriminate].
  unfold bind. destruct res as [cw ch]. cbn [fst snd].
  destruct cw as [vw | |]; [| discriminate | discriminate]. cbn [set_computed].
  destruct (set_width decode vw st1) as [[[] | e] st2] eqn:G2; [| discriminate].
  apply (set_width_Inv _ _ _ G1) in G2.
  destruct ch as [vh | |]; [| discriminate | discriminate]. cbn [set_computed].
  apply set_height_Inv. exact G2.
Qed.

Lemma resize_Inv w h st st' :
  Inv decode st -> resize decode w h st = (Ok tt, st') -> Inv decode st'.
Proof.
  intros HI. unfold resize. unfold bind at 1.
  destruct (default_size decode st) as [[[width0 height0] | e] st1] eqn:G1;
    [| discriminate].
  apply (default_size_Inv _ _ _ HI) in G1.
  destruct w as [w |], h as [h |]; unfold bind, lift, ret;
    repeat match goal with
           | |- context [truediv ?a ?b] => destruct (truediv a b); [| discriminate]
           end;
    repeat match goal with
           | |- context [if ?c then _ else _] => destruct c
           end;
    try discriminate; apply scale_Inv; exact G1.
Qed.

Lemma run_op_Inv o st st' :
  deletes_attribute o = false ->
  Inv decode st -> run_op decode o st = (Ok tt, st') -> Inv decode st'.
Proof.
  intros Ho HI. destruct o; simpl; try discriminate Ho; unfold void, bind, ret.
  - destruct (default_size decode st) as [[a | e] st1] eqn:G; intros [= <-].
    eapply default_size_Inv; eassumption.
  - destruct (width decode st) as [[a | e] st1] eqn:G; intros [= <-].
    apply width_spec in G. destruct G as (Q & R).
    apply (Inv_Quiet st); auto. apply R, HI.
  - destruct (height decode st) as [[a | e] st1] eqn:G; intros [= <-].
    apply height_spec in G. destruct G as (Q & R).
    apply (Inv_Quiet st); auto. apply R, HI.
  - rewrite theta_spec. intros [= <-]. exact HI.
  - apply set_width_Inv; exact HI.
  - apply set_height_Inv; exact HI.
  - apply set_theta_Inv; exact HI.
  - destruct (surface decode st) as [[a | e] st1] eqn:G; intros [= <-].
    eapply surface_Inv; eassumption.
  - unfold del_surface, modify_img. intros [= <-].
    destruct HI as (Hd & Hs & Hp & Hz).
    split; [apply (defaults_ok_frame _ st); auto |].
    split; [intros s Hs0; discriminate |].
    split; [| exact Hz].
    apply (Memo_pattern_ok _ st); [apply Memo_set_surface | reflexivity | exact Hp].
  - destruct (pattern decode st) as [[a | e] st1] eqn:G; intros [= <-].
    eapply pattern_Inv; eassumption.
  - unfold del_pattern, modify_img. intros [= <-].
    destruct HI as (Hd & Hs & Hp & Hz).
    split; [apply (defaults_ok_frame _ st); auto |].
    split; [| split; [intros p Hp0; discriminate | exact Hz]].
    apply (Memo_surface_ok _ st); [apply Memo_set_pattern | reflexivity | exact Hs].
  - apply resize_Inv; exact HI.
  - apply scale_Inv; exact HI.
Qed.

Lemma exec_Inv ops st :
  keeps_attributes ops = true ->
  returns decode ops st = true ->
  Inv decode st -> Inv decode (exec decode ops st).
Proof.
  unfold keeps_attributes.
  revert st. induction ops as [| o ops IH]; intros st Hk Hr HI; simpl in *.
  - exact HI.
  - apply andb_true_iff in Hk. destruct Hk as (Ho & Hk).
    apply negb_true_iff in Ho.
    destruct (run_op decode o st) as [[[] | e] st1] eqn:G; [| discriminate].
    simpl. apply IH; auto. eapply run_op_Inv; eassumption.
Qed.

Lemma round_half_even_nearest q :
  (Qabs (inject_Z (round_half_even q) - q) <= 1 # 2)%Q.
Proof.
  unfold round_half_even.
  pose proof (Qfloor_le q) as Hlo. pose proof (Qlt_floor q) as Hhi.
  rewrite inject_Z_plus in Hhi. change (inject_Z 1) with 1%Q in Hhi.
  apply Qabs_Qle_condition.
  destruct (Qcompare_spec (q - inject_Z (Qfloor q)) (1 # 2)) as [He | Hl | Hg].
  - destruct (Z.even (Qfloor q)); rewrite ?inject_Z_plus;
      change (inject_Z 1) with 1%Q; split; lra.
  - split; lra.
  - rewrite inject_Z_plus. change (inject_Z 1) with 1%Q. split; lra.
Qed.

Lemma round_nearest v : (Qabs (inject_Z (round v) - float v) <= 1 # 2)%Q.
Proof.
  destruct v as [z | q]; cbn [round float].
  - apply Qabs_Qle_condition. split; lra.
  - apply round_half_even_nearest.
Qed.

Lemma natural_size_positive bytes w h :
  decoder_positive decode ->
  natural_size decode bytes = Some (w, h) -> (1 <= w)%Z /\ (1 <= h)%Z.
Proof.
  intros Hpos. unfold natural_size, decoded_size.
  destruct (decode bytes None None) as [w0 h0 | |] eqn:E; try discriminate.
  intros [= <- <-]. eapply Hpos. exact E.
Qed.

Lemma stored_after_reset st :
  _width (img (snd (_reset decode st))) = _width (img st) /\
  _height (img (snd (_reset decode st))) = _height (img st) /\
  _theta (img (snd (_reset decode st))) = _theta (img st).
Proof.
  destruct (_reset decode st) as [r st'] eqn:G.
  apply _reset_spec in G. destruct G as (M & _). simpl.
  split; [apply M |]. split; apply M.
Qed.

(** C7: a write of the width or of the height stores the value rounded
    to a nearest integer ([round], ties to even) and clamped below at 1,
    whether the reset that follows returns or raises.  After any sequence
    of operations, failed ones included, the stored sizes are at least 1,
    and so is every width and height that is read, the natural size that
    the decoder finds being positive. *)
Theorem pixel_size_rounded_and_clamped bytes nm pth ops v :
  decoder_positive decode ->
  let st := exec decode ops (initial (Img_init bytes nm pth)) in
  _width (img (snd (set_width decode v st))) = Some (Z.max (round v) 1) /\
  _height (img (snd (set_height decode v st))) = Some (Z.max (round v) 1) /\
  (Qabs (inject_Z (round v) - float v) <= 1 # 2)%Q /\
  (forall w, _width (img st) = Some w -> (1 <= w)%Z) /\
  (forall h, _height (img st) = Some h -> (1 <= h)%Z) /\
  (forall w, fst (width decode st) = Ok w -> (1 <= w)%Z) /\
  (forall h, fst (height decode st) = Ok h -> (1 <= h)%Z).
Proof.
  intros Hpos st.
  pose proof (exec_Keeps ops (initial (Img_init bytes nm pth))) as K.
  fold st in K.
  destruct (Inv_initial bytes nm pth) as (Hd0 & _ & _ & Hz0).
  pose proof (keeps_defaults_ok _ _ _ K Hd0) as Hd.
  pose proof (keeps_sizes_ok _ _ _ K Hz0) as Hz.
  split.
  { unfold set_width, bind, modify_img.
    apply (stored_after_reset
             (with_img (set_width_attr (Some (Z.max (round v) 1))) st)). }
  split.
  { unfold set_height, bind, modify_img.
    apply (stored_after_reset
             (with_img (set_height_attr (Some (Z.max (round v) 1))) st)). }
  split; [apply round_nearest |].
  split; [exact (proj1 Hz) |]. split; [exact (proj2 Hz) |].
  split.
  - intros w Hw. destruct (width decode st) as [r st'] eqn:G.
    apply width_spec in G. destruct G as (_ & R). destruct (R Hd) as (_ & Hr).
    simpl in Hw. subst r. unfold current_width in Hr.
    destruct (_width (img st)) as [w0 |] eqn:E.
    + injection Hr as <-. exact (proj1 Hz _ E).
    + destruct (natural_size decode (bytes_img (img st))) as [[w0 h0] |] eqn:N;
        [| discriminate].
      simpl in Hr. injection Hr as <-.
      exact (proj1 (natural_size_positive _ _ _ Hpos N)).
  - intros h Hh. destruct (height decode st) as [r st'] eqn:G.
    apply height_spec in G. destruct G as (_ & R). destruct (R Hd) as (_ & Hr).
    simpl in Hh. subst r. unfold current_height in Hr.
    destruct (_height (img st)) as [h0 |] eqn:E.
    + injection Hr as <-. exact (proj2 Hz _ E).
    + destruct (natural_size decode (bytes_img (img st))) as [[w0 h0] |] eqn:N;
        [| discriminate].
      simpl in Hr. injection Hr as <-.
      exact (proj2 (natural_size_positive _ _ _ Hpos N)).
Qed.

Lemma default_size_memoized st sz :
  _default_size (img st) = Some sz -> default_size decode st = (Ok sz, st).
Proof.
  intros E. unfold default_size, bind, get_img, ret. rewrite E. reflexivity.
Qed.



End ImageWrites.

(* ===================================================================== *)
(** ** The image handle: reads that return                                 *)
(* ===================================================================== *)

Section ImageProgress.
Import Py Images.

Variable decode : list Byte.byte -> option Z -> option Z -> Decoded.

Lemma width_returns st w :
  defaults_ok decode st -> current_width decode st = Some w ->
  exists st', width decode st = (Ok w, st').
Proof.
  intros Hd Hw. destruct (width decode st) as [r st'] eqn:G.
  pose proof G as G'. apply width_spec in G'. destruct G' as (_ & R).
  destruct (R Hd) as (_ & Hr). destruct r as [w' | e].
  - exists st'. congruence.
  - destruct Hr as (Hn & _). congruence.
Qed.

Lemma height_returns st h :
  defaults_ok decode st -> current_height decode st = Some h ->
  exists st', height decode st = (Ok h, st').
Proof.
  intros Hd Hh. destruct (height decode st) as [r st'] eqn:G.
  pose proof G as G'. apply height_spec in G'. destruct G' as (_ & R).
  destruct (R Hd) as (_ & Hr). destruct r as [h' | e].
  - exists st'. congruence.
  - destruct Hr as (Hn & _). congruence.
Qed.








End ImageProgress.

(* ===================================================================== *)
(** ** The image handle: what a write invalidates                          *)
(* ===================================================================== *)

Section ImageCaches.
Import Py Images.

Variable decode : list Byte.byte -> option Z -> option Z -> Decoded.

(** The reads of width, height and theta give what a current pattern
    was built from. *)
Lemma pattern_current_reads st p :
  defaults_ok decode st -> pattern_current decode st p ->
  fst (width decode st) = Ok (pat_width p) /\
  fst (height decode st) = Ok (pat_height p) /\
  fst (theta st) = Ok (pat_theta p) /\
  decoded_size decode (bytes_img (img st)) (Some (pat_width p)) (Some (pat_height p))
    = Some (size_of (pat_surface p)).
Proof.
  intros Hd (Hw & Hh & Ht & (w & h & Hw' & Hh' & Hs)).
  destruct (width_returns decode st _ Hd Hw) as (st1 & ->).
  destruct (height_returns decode st _ Hd Hh) as (st2 & ->).
  rewrite theta_spec, Ht. simpl.
  repeat split. congruence.
Qed.

Lemma pattern_read_current st p st' :
  Inv decode st -> pattern decode st = (Ok p, st') ->
  Inv decode st' /\ pattern_current decode st' p /\
  (_pattern (img st) = None -> next_id st <= pat_id p).
Proof.
  intros HI G. pose proof (pattern_Inv decode _ _ _ HI G) as HI'.
  split; [exact HI' |].
  destruct HI as (Hd & Hs & Hp & Hz).
  apply pattern_spec in G. destruct G as (M & F & R).
  destruct (R Hd) as (_ & _ & _ & Ep & Hcase).
  destruct Hcase as [(E0 & ->) | (E0 & Hlo & Hhi & Es & Hc)].
  - split; [apply Hp; exact E0 | congruence].
  - split; [auto | intros _; exact Hlo].
Qed.

(** What a reset that returns does to the caches. *)
Lemma _reset_invalidates st st' :
  defaults_ok decode st ->
  _reset decode st = (Ok tt, st') ->
  _pattern (img st') = None /\
  next_id st <= next_id st' /\
  (forall s, _surface (img st) = Some s -> surf_id s < next_id st ->
     _surface (img st') <> Some s /\ surf_id s ∈ finished st').
Proof.
  intros Hd G. apply _reset_spec in G. destruct G as (M & R).
  destruct (R Hd) as (_ & R'). destruct (R' eq_refl) as (Ep & _ & Hnew & Hfin).
  split; [exact Ep |]. split; [apply M |].
  intros s Es Hid. split; [| auto].
  intros Es'. apply Hnew in Es'. lia.
Qed.

(** After a write that returns, a pattern read gives a pattern made
    after the write, from the attributes as they are then. *)
Lemma pattern_after_write st st1 p st2 :
  Inv decode st1 -> _pattern (img st1) = None -> next_id st <= next_id st1 ->
  pattern decode st1 = (Ok p, st2) ->
  (forall p0, _pattern (img st) = Some p0 -> pat_id p0 < next_id st ->
     pat_id p <> pat_id p0) /\
  fst (width decode st2) = Ok (pat_width p) /\
  fst (height decode st2) = Ok (pat_height p) /\
  fst (theta st2) = Ok (pat_theta p) /\
  decoded_size decode (bytes_img (img st2)) (Some (pat_width p)) (Some (pat_height p))
    = Some (size_of (pat_surface p)).
Proof.
  intros HI Ep Hn G.
  destruct (pattern_read_current _ _ _ HI G) as (HI2 & Hc & Hnew).
  split.
  - intros p0 E0 Hid. specialize (Hnew Ep). lia.
  - apply pattern_current_reads; [apply HI2 | exact Hc].
Qed.

Lemma size_write_invalidates st0 st st1 bytes :
  Inv decode st ->
  bytes_img (img st) = bytes ->
  defaults_ok decode st0 -> sizes_ok st0 ->
  _surface (img st0) = _surface (img st) ->
  next_id st0 = next_id st ->
  _reset decode st0 = (Ok tt, st1) ->
  bytes_img (img st0) = bytes ->
  _pattern (img st1) = None /\
  (forall s, _surface (img st) = Some s ->
     _surface (img st1) <> Some s /\ surf_id s ∈ finished st1) /\
  (forall p st2, pattern decode st1 = (Ok p, st2) ->
     (forall p0, _pattern (img st) = Some p0 -> pat_id p <> pat_id p0) /\
     fst (width decode st2) = Ok (pat_width p) /\
     fst (height decode st2) = Ok (pat_height p) /\
     fst (theta st2) = Ok (pat_theta p) /\
     decoded_size decode bytes (Some (pat_width p)) (Some (pat_height p))
       = Some (size_of (pat_surface p))).
Proof.
  intros HI Hb Hd0 Hz0 Es0 En0 G Hb0.
  pose proof (_reset_Inv decode _ _ Hd0 Hz0 G) as HI1.
  destruct (_reset_invalidates _ _ Hd0 G) as (Ep & Hn & Hold).
  pose proof G as G'. apply _reset_spec in G'. destruct G' as (M1 & _).
  destruct HI as (Hd & Hs & Hp & Hz).
  split; [exact Ep |]. split.
  - intros s Es. apply Hold; [congruence |].
    rewrite En0. apply (Hs s Es).
  - intros p st2 G2.
    assert (Hn' : next_id st <= next_id st1) by lia.
    destruct (pattern_after_write st st1 p st2 HI1 Ep Hn' G2) as (Hnew & Hw & Hh & Ht & Hsz).
    split; [intros p0 E0; apply Hnew; [exact E0 | apply (Hp p0 E0)] |].
    split; [exact Hw |]. split; [exact Hh |]. split; [exact Ht |].
    apply pattern_spec in G2. destruct G2 as (M2 & _).
    rewrite (memo_bytes _ _ M2), (memo_bytes _ _ M1), Hb0 in Hsz. exact Hsz.
Qed.

(** Without deletions of attributes the pattern is never stale: on an
    image reached by operations that returned and deleted no attribute, a
    pattern read gives a pattern built from the width, height and theta
    that the image has then, on a surface decoded for that width and
    height.  A write of
    the width or of the height that returns leaves no cached pattern and
    drops (and finishes) the surface that was cached; the next pattern
    read gives an object that is none of the patterns cached before, built
    from the attributes as they are after the write. *)
Theorem pattern_reflects_current_state bytes nm pth ops :
  keeps_attributes ops = true ->
  returns decode ops (initial (Img_init bytes nm pth)) = true ->
  let st := exec decode ops (initial (Img_init bytes nm pth)) in
  (forall p st', pattern decode st = (Ok p, st') ->
     fst (width decode st') = Ok (pat_width p) /\
     fst (height decode st') = Ok (pat_height p) /\
     fst (theta st') = Ok (pat_theta p) /\
     decoded_size decode bytes (Some (pat_width p)) (Some (pat_height p))
       = Some (size_of (pat_surface p))) /\
  (forall v st1,
     set_width decode v st = (Ok tt, st1) \/ set_height decode v st = (Ok tt, st1) ->
     _pattern (img st1) = None /\
     (forall s, _surface (img st) = Some s ->
        _surface (img st1) <> Some s /\ surf_id s ∈ finished st1) /\
     (forall p st2, pattern decode st1 = (Ok p, st2) ->
        (forall p0, _pattern (img st) = Some p0 -> pat_id p <> pat_id p0) /\
        fst (width decode st2) = Ok (pat_width p) /\
        fst (height decode st2) = Ok (pat_height p) /\
        fst (theta st2) = Ok (pat_theta p) /\
        decoded_size decode bytes (Some (pat_width p)) (Some (pat_height p))
          = Some (size_of (pat_surface p)))).
Proof.
  intros Hk Hr st.
  pose proof (exec_Inv decode ops _ Hk Hr (Inv_initial decode bytes nm pth)) as HI.
  fold st in HI.
  assert (Hb : bytes_img (img st) = bytes).
  { apply (keeps_bytes _ _ _ (exec_Keeps decode ops (initial (Img_init bytes nm pth)))). }
  split.
  - intros p st' G.
    destruct (pattern_read_current _ _ _ HI G) as (HI' & Hc & _).
    destruct (pattern_current_reads st' p (proj1 HI') Hc) as (Hw & Hh & Ht & Hsz).
    split; [exact Hw |]. split; [exact Hh |]. split; [exact Ht |].
    apply pattern_spec in G. destruct G as (M & _).
    rewrite (memo_bytes _ _ M), Hb in Hsz. exact Hsz.
  - intros v st1 [G | G].
    + apply (size_write_invalidates
               (with_img (set_width_attr (Some (Z.max (round v) 1))) st) st st1 bytes);
        auto.
      * apply (defaults_ok_frame decode st); auto. apply HI.
      * apply sizes_ok_set_width; [lia | apply HI].
    + apply (size_write_invalidates
               (with_img (set_height_attr (Some (Z.max (round v) 1))) st) st st1 bytes);
        auto.
      * apply (defaults_ok_frame decode st); auto. apply HI.
      * apply sizes_ok_set_height; [lia | apply HI].
Qed.


End ImageCaches.

(* ===================================================================== *)
(** ** Doubles: what is exact                                              *)
(* ===================================================================== *)

Section Doubles.
Import Py.
Local Open Scope Q_scope.

Lemma round_half_even_comp q q' :
  q == q' -> round_half_even q = round_half_even q'.
Proof.
  intros H. unfold round_half_even.
  rewrite (Qfloor_comp _ _ H).
  assert (Hc : (q - inject_Z (Qfloor q') ?= 1 # 2)
               = (q' - inject_Z (Qfloor q') ?= 1 # 2)).
  { apply Qcompare_comp; [rewrite H; reflexivity | reflexivity]. }
  rewrite Hc. reflexivity.
Qed.

Lemma round_half_even_Z z : round_half_even (inject_Z z) = z.
Proof.
  unfold round_half_even. rewrite Qfloor_Z.
  assert (H : (inject_Z z - inject_Z z ?= 1 # 2) = Lt).
  { apply (proj1 (Qlt_alt _ _)). lra. }
  rewrite H. reflexivity.
Qed.

Lemma pow2_pos e : 0 < pow2 e.
Proof. apply Qpower_0_lt. reflexivity. Qed.

Lemma pow2_plus a b : pow2 (a + b) == pow2 a * pow2 b.
Proof. apply Qpower_plus. discriminate. Qed.

Lemma pow2_le a b : (a <= b)%Z -> pow2 a <= pow2 b.
Proof. intros H. apply Qpower_le_compat_l; [exact H | discriminate]. Qed.

Lemma pow2_lt a b : (a < b)%Z -> pow2 a < pow2 b.
Proof. intros H. apply Qpower_lt_compat_l; [exact H | reflexivity]. Qed.

Lemma pow2_Z n : (0 <= n)%Z -> pow2 n == inject_Z (2 ^ n).
Proof. intros H. symmetry. apply (Zpower_Qpower 2 n H). Qed.

Lemma pow2_inv n : pow2 n * pow2 (- n) == 1.
Proof.
  rewrite <- pow2_plus. rewrite Z.add_opp_diag_r. reflexivity.
Qed.

Lemma Qred_inject_Z q z : q == inject_Z z -> Qred q = inject_Z z.
Proof.
  intros H. rewrite (Qred_complete _ _ H). apply Qcanon.Qred_identity.
  simpl. apply Z.gcd_1_r.
Qed.

(** The exponent that [ulp_exponent] settles on is not above the
    difference of the two logarithms. *)
Lemma ulp_exponent_int z :
  (0 < z < 2 ^ 53)%Z -> (-1074 <= ulp_exponent (inject_Z z) <= 0)%Z.
Proof.
  intros Hz. unfold ulp_exponent. simpl.
  assert (Hl : (Z.log2 z < 53)%Z) by (apply Z.log2_lt_pow2; lia).
  rewrite Z.sub_0_r.
  destruct (Qle_bool (pow2 (Z.log2 z)) (inject_Z z)); lia.
Qed.

(** An int of up to 53 bits is a double. *)
Lemma round_double_int z :
  (Z.abs z < 2 ^ 53)%Z -> round_double (inject_Z z) = Some (inject_Z z).
Proof.
  intros Hz. unfold round_double.
  destruct (Qeq_bool (inject_Z z) 0) eqn:E0.
  { apply Qeq_bool_iff in E0. f_equal.
    assert (z = 0%Z) as -> by (apply (inject_Z_injective z 0); exact E0).
    reflexivity. }
  assert (Hz0 : z <> 0%Z).
  { intros ->. discriminate. }
  change (Qabs (inject_Z z)) with (inject_Z (Z.abs z)).
  set (a := Z.abs z).
  assert (Ha : (0 < a < 2 ^ 53)%Z) by (unfold a; lia).
  pose proof (ulp_exponent_int a Ha) as Hu.
  set (u := ulp_exponent (inject_Z a)) in *.
  assert (Hx : inject_Z a / pow2 u == inject_Z (a * 2 ^ (- u))).
  { rewrite inject_Z_mult, <- pow2_Z by lia.
    unfold Qdiv, pow2. rewrite Qpower_opp. reflexivity. }
  rewrite (round_half_even_comp _ _ Hx), round_half_even_Z.
  assert (Hr : inject_Z (a * 2 ^ (- u)) * pow2 u == inject_Z a).
  { rewrite inject_Z_mult, <- pow2_Z by lia.
    rewrite <- Qmult_assoc, (Qmult_comm (pow2 (- u))), pow2_inv. ring. }
  assert (Hov : Qle_bool (pow2 1024) (inject_Z (a * 2 ^ (- u)) * pow2 u) = false).
  { destruct (Qle_bool (pow2 1024) (inject_Z (a * 2 ^ (- u)) * pow2 u)) eqn:E;
      [| reflexivity].
    apply Qle_bool_iff in E. rewrite Hr in E.
    assert (H53 : inject_Z a < pow2 53).
    { rewrite pow2_Z by lia. rewrite <- Zlt_Qlt. lia. }
    pose proof (pow2_le 53 1024 ltac:(lia)). lra. }
  rewrite Hov. f_equal. apply Qred_inject_Z.
  destruct (Qle_bool 0 (inject_Z z)) eqn:Es.
  - rewrite Hr. apply Qle_bool_iff in Es.
    change 0 with (inject_Z 0) in Es. rewrite <- Zle_Qle in Es.
    unfold a. rewrite Z.abs_eq by lia. reflexivity.
  - rewrite Hr.
    assert (z < 0)%Z.
    { destruct (Z.lt_ge_cases z 0) as [H | H]; [exact H |].
      rewrite Zle_Qle in H. apply Qle_bool_iff in H.
      change (inject_Z 0) with 0 in H. congruence. }
    unfold a. rewrite Z.abs_neq by lia. rewrite inject_Z_opp. ring.
Qed.

Lemma round_half_even_near x : Qabs (inject_Z (round_half_even x) - x) <= 1 # 2.
Proof.
  unfold round_half_even.
  pose proof (Qfloor_le x) as H1. pose proof (Qlt_floor x) as H2.
  rewrite inject_Z_plus in H2. change (inject_Z 1) with 1 in H2.
  set (f := Qfloor x) in *.
  apply Qabs_Qle_condition.
  destruct (Qcompare_spec (x - inject_Z f) (1 # 2)) as [E | L | G].
  - destruct (Z.even f); [| rewrite inject_Z_plus; change (inject_Z 1) with 1];
      split; lra.
  - split; lra.
  - rewrite inject_Z_plus; change (inject_Z 1) with 1. split; lra.
Qed.

Lemma round_half_even_unique x w :
  Qabs (x - inject_Z w) < 1 # 2 -> round_half_even x = w.
Proof.
  intros H. pose proof (round_half_even_near x) as N.
  set (r := round_half_even x) in *.
  apply Qabs_Qle_condition in N.
  apply Qabs_Qlt_condition in H.
  assert (L1 : inject_Z r < inject_Z (w + 1)).
  { rewrite inject_Z_plus. change (inject_Z 1) with 1. lra. }
  assert (L2 : inject_Z w < inject_Z (r + 1)).
  { rewrite inject_Z_plus. change (inject_Z 1) with 1. lra. }
  rewrite <- Zlt_Qlt in L1, L2. lia.
Qed.

Lemma pow2_succ e : pow2 (e + 1) == 2 * pow2 e.
Proof. rewrite pow2_plus. change (pow2 1) with 2. ring. Qed.

Lemma pow2_log2 n : (0 < n)%Z ->
  pow2 (Z.log2 n) <= inject_Z n /\ inject_Z n < 2 * pow2 (Z.log2 n).
Proof.
  intros Hn. destruct (Z.log2_spec n Hn) as [L U].
  pose proof (Z.log2_nonneg n) as H0.
  split.
  - rewrite pow2_Z by exact H0. rewrite <- Zle_Qle. exact L.
  - rewrite <- pow2_succ. rewrite pow2_Z by lia. rewrite <- Zlt_Qlt.
    exact U.
Qed.

Lemma ulp_exponent_spec a :
  0 < a ->
  exists e, ulp_exponent a = Z.max (e - 52) (-1074) /\
            pow2 e <= a /\ a < pow2 (e + 1).
Proof.
  intros Ha. unfold ulp_exponent.
  destruct a as [n d]. cbn [Qnum Qden].
  assert (Hn : (0 < n)%Z).
  { unfold Qlt in Ha. simpl in Ha. lia. }
  destruct (pow2_log2 n Hn) as [N1 N2].
  destruct (pow2_log2 (Zpos d) eq_refl) as [D1 D2].
  set (ln := Z.log2 n) in *. set (ld := Z.log2 (Zpos d)) in *.
  assert (A : (n # d) * inject_Z (Zpos d) == inject_Z n).
  { unfold Qeq. simpl. lia. }
  assert (X : pow2 (ln - ld) * pow2 ld == pow2 ln).
  { rewrite <- pow2_plus. replace (ln - ld + ld)%Z with ln by lia. reflexivity. }
  pose proof (pow2_pos (ln - ld)) as P0.
  pose proof (pow2_pos ld) as P2.
  pose proof (pow2_pos ln) as P1.
  set (a := n # d) in *. set (D := inject_Z (Zpos d)) in *.
  set (N := inject_Z n) in *.
  destruct (Qle_bool (pow2 (ln - ld)) a) eqn:E.
  - exists (ln - ld)%Z. split; [reflexivity |].
    apply Qle_bool_iff in E. split; [exact E |].
    rewrite pow2_succ.
    set (x := pow2 (ln - ld)) in *. set (p2 := pow2 ld) in *.
    set (p1 := pow2 ln) in *.
    nra.
  - exists (ln - ld - 1)%Z. split; [reflexivity |].
    assert (E' : a < pow2 (ln - ld)).
    { apply Qnot_le_lt. intros H. apply Qle_bool_iff in H. congruence. }
    replace (ln - ld - 1 + 1)%Z with (ln - ld)%Z by lia.
    split; [| exact E'].
    assert (Y : 2 * pow2 (ln - ld - 1) == pow2 (ln - ld)).
    { rewrite <- pow2_succ. replace (ln - ld - 1 + 1)%Z with (ln - ld)%Z by lia.
      reflexivity. }
    set (x := pow2 (ln - ld)) in *. set (p2 := pow2 ld) in *.
    set (p1 := pow2 ln) in *. set (y := pow2 (ln - ld - 1)) in *.
    nra.
Qed.

Lemma roundoff_value : roundoff == 1 # 9007199254740992.
Proof. vm_compute. reflexivity. Qed.

Lemma round_double_error q :
  pow2 (-1022) <= Qabs q -> Qabs q <= pow2 1023 ->
  exists r, round_double q = Some r /\ Qabs (r - q) <= Qabs q * roundoff.
Proof.
  intros Hlo Hhi. unfold round_double.
  pose proof (pow2_pos (-1022)) as Pm.
  destruct (Qeq_bool q 0) eqn:E0.
  { apply Qeq_bool_iff in E0. rewrite E0 in Hlo. change (Qabs 0) with 0 in Hlo. lra. }
  set (a := Qabs q) in *.
  assert (Ha : 0 < a) by lra.
  destruct (ulp_exponent_spec a Ha) as (e & -> & L & U).
  assert (He : (-1022 <= e)%Z).
  { destruct (Z.le_gt_cases (-1022) e) as [H | H]; [exact H |].
    assert (e + 1 <= -1022)%Z as H1 by lia. apply pow2_le in H1. lra. }
  rewrite Z.max_l by lia.
  pose proof (pow2_pos (e - 52)) as Pu.
  assert (Pe : pow2 e * roundoff == pow2 (e - 52) * (1 # 2)).
  { unfold roundoff. rewrite <- pow2_plus.
    replace (e + -53)%Z with (e - 52 + -1)%Z by lia. rewrite pow2_plus.
    reflexivity. }
  pose proof (round_half_even_near (a / pow2 (e - 52))) as N.
  set (T := inject_Z (round_half_even (a / pow2 (e - 52)))) in *.
  assert (Hx : a / pow2 (e - 52) * pow2 (e - 52) == a).
  { field. lra. }
  set (x := a / pow2 (e - 52)) in *.
  apply Qabs_Qle_condition in N.
  assert (R : - (a * roundoff) <= T * pow2 (e - 52) - a <= a * roundoff).
  { pose proof roundoff_value as Ev. set (d := pow2 (e - 52)) in *.
    set (pe := pow2 e) in *. nra. }
  assert (Hov : Qle_bool (pow2 1024) (T * pow2 (e - 52)) = false).
  { destruct (Qle_bool (pow2 1024) (T * pow2 (e - 52))) eqn:E; [| reflexivity].
    apply Qle_bool_iff in E.
    assert (P : pow2 1024 == 2 * pow2 1023) by (apply (pow2_succ 1023)).
    pose proof roundoff_value as Ev. pose proof (pow2_pos 1023).
    set (d := pow2 (e - 52)) in *. set (big := pow2 1023) in *.
    set (big' := pow2 1024) in *. nra. }
  rewrite Hov. eexists. split; [reflexivity |].
  rewrite Qred_correct.
  destruct (Qle_bool 0 q) eqn:Es.
  - apply Qle_bool_iff in Es.
    assert (Eq : q == a) by (unfold a; rewrite Qabs_pos; [reflexivity | exact Es]).
    apply Qabs_Qle_condition. rewrite Eq. lra.
  - assert (Es' : q < 0).
    { apply Qnot_le_lt. intros H. apply Qle_bool_iff in H. congruence. }
    assert (Eq : q == - a).
    { unfold a. rewrite Qabs_neg by lra. ring. }
    apply Qabs_Qle_condition. rewrite Eq. lra.
Qed.

Lemma within_scale c x y a : 0 <= c -> within x y a -> within (c * x) (c * y) a.
Proof.
  unfold within. intros Hc H.
  assert (E : c * x - c * y == c * (x - y)) by ring.
  rewrite E, !Qabs_Qmult, (Qabs_pos c Hc).
  pose proof (Qabs_nonneg (x - y)). pose proof (Qabs_nonneg y).
  set (u := Qabs (x - y)) in *. set (v := Qabs y) in *. nra.
Qed.

Lemma within_abs x y a :
  within x y a -> Qabs y * (1 - a) <= Qabs x /\ Qabs x <= Qabs y * (1 + a).
Proof.
  unfold within. intros H.
  pose proof (Qabs_triangle (x - y) y) as T1.
  assert (E1 : x - y + y == x) by ring. rewrite E1 in T1.
  pose proof (Qabs_triangle (y - x) x) as T2.
  assert (E2 : y - x + x == y) by ring. rewrite E2 in T2.
  assert (E3 : Qabs (y - x) == Qabs (x - y)).
  { rewrite <- Qabs_opp. apply Qabs_wd. ring. }
  rewrite E3 in T2.
  split; lra.
Qed.

Lemma within_trans x y z a b :
  0 <= b -> within x y a -> within z x b -> within z y (a + b + a * b).
Proof.
  intros Hb H1 H2. destruct (within_abs x y a H1) as [_ U].
  unfold within in *.
  pose proof (Qabs_triangle (z - x) (x - y)) as T.
  assert (E : z - x + (x - y) == z - y) by ring. rewrite E in T.
  pose proof (Qabs_nonneg y). pose proof (Qabs_nonneg x).
  set (u := Qabs (x - y)) in *. set (v := Qabs (z - x)) in *.
  set (ay := Qabs y) in *. set (ax := Qabs x) in *.
  set (w := Qabs (z - y)) in *. nra.
Qed.

Lemma within_mul x y x' y' a b :
  0 <= a -> 0 <= b -> within x y a -> within x' y' b ->
  within (x * x') (y * y') (a + b + a * b).
Proof.
  intros Ha Hb H1 H2. destruct (within_abs x y a H1) as [_ U].
  unfold within in *.
  assert (E : x * x' - y * y' == x * (x' - y') + y' * (x - y)) by ring.
  rewrite E.
  eapply Qle_trans; [apply Qabs_triangle |].
  rewrite !Qabs_Qmult.
  pose proof (Qabs_nonneg y). pose proof (Qabs_nonneg x).
  pose proof (Qabs_nonneg y'). pose proof (Qabs_nonneg (x' - y')).
  pose proof (Qabs_nonneg (x - y)).
  set (u := Qabs (x - y)) in *. set (v := Qabs (x' - y')) in *.
  set (ay := Qabs y) in *. set (ax := Qabs x) in *.
  set (ay' := Qabs y') in *. nra.
Qed.

Lemma within_weaken x y a b : a <= b -> within x y a -> within x y b.
Proof.
  unfold within. intros Hab H. pose proof (Qabs_nonneg y).
  set (ay := Qabs y) in *. set (u := Qabs (x - y)) in *. nra.
Qed.

Lemma within_comp x y x' y' a : x == x' -> y == y' -> within x y a -> within x' y' a.
Proof. unfold within. intros -> ->. auto. Qed.

Lemma mul_double_rel x y :
  pow2 (-1022) <= Qabs (x * y) -> Qabs (x * y) <= pow2 1023 ->
  exists p, mul_double x y = Fin (Float p) /\ within p (x * y) roundoff.
Proof.
  intros Hlo Hhi. destruct (round_double_error _ Hlo Hhi) as (p & E & R).
  exists p. unfold mul_double. rewrite E. split; [reflexivity | exact R].
Qed.

Lemma Qabs_inject_Z z : Qabs (inject_Z z) = inject_Z (Z.abs z).
Proof. reflexivity. Qed.

Lemma pow2_small : pow2 (-1022) <= roundoff * (1 # 4).
Proof. unfold Qle. vm_compute. discriminate. Qed.

Lemma pow2_large : pow2 53 * pow2 53 * 4 <= pow2 1023.
Proof. unfold Qle. vm_compute. discriminate. Qed.

Lemma pow2_53 : pow2 53 == 9007199254740992.
Proof. reflexivity. Qed.

Lemma truediv_ints x y :
  (0 < y < 2 ^ 53)%Z -> x <> 0%Z -> (Z.abs x < 2 ^ 53)%Z ->
  exists f, truediv (Int x) y = Ok (Float f) /\
            within f (inject_Z x / inject_Z y) roundoff.
Proof.
  intros Hy Hx0 Hx. unfold truediv.
  assert (Ey : (y =? 0)%Z = false) by (apply Z.eqb_neq; lia). rewrite Ey.
  assert (Y1 : 1 <= inject_Z y).
  { change 1 with (inject_Z 1). rewrite <- Zle_Qle. lia. }
  assert (Y2 : inject_Z y < pow2 53).
  { rewrite pow2_Z by lia. rewrite <- Zlt_Qlt. lia. }
  assert (X1 : 1 <= Qabs (inject_Z x)).
  { rewrite Qabs_inject_Z. change 1 with (inject_Z 1). rewrite <- Zle_Qle. lia. }
  assert (X2 : Qabs (inject_Z x) < pow2 53).
  { rewrite Qabs_inject_Z, pow2_Z by lia. rewrite <- Zlt_Qlt. lia. }
  assert (A : Qabs (inject_Z x / inject_Z y) * inject_Z y == Qabs (inject_Z x)).
  { rewrite <- (Qabs_pos (inject_Z y)) at 2 by lra.
    rewrite <- Qabs_Qmult. apply Qabs_wd. field. lra. }
  pose proof (Qabs_nonneg (inject_Z x / inject_Z y)) as A0.
  pose proof pow2_small as S. pose proof pow2_large as L.
  pose proof roundoff_value as Ev. pose proof pow2_53 as P53.
  destruct (round_double_error (inject_Z x / inject_Z y)) as (f & E & R).
  - set (q := Qabs (inject_Z x / inject_Z y)) in *.
    set (ax := Qabs (inject_Z x)) in *. set (Y := inject_Z y) in *.
    set (lo := pow2 (-1022)) in *. set (p53 := pow2 53) in *. nra.
  - set (q := Qabs (inject_Z x / inject_Z y)) in *.
    set (ax := Qabs (inject_Z x)) in *. set (Y := inject_Z y) in *.
    set (hi := pow2 1023) in *. set (p53 := pow2 53) in *. nra.
  - exists f. rewrite E. split; [reflexivity | exact R].
Qed.

Lemma Qabs_pos_nonzero y : ~ y == 0 -> 0 < Qabs y.
Proof.
  intros Hy. apply Qabs_case; intros H.
  - destruct (Qlt_le_dec 0 y) as [G | G]; [exact G |]. exfalso. apply Hy. lra.
  - destruct (Qlt_le_dec y 0) as [G | G]; [lra |]. exfalso. apply Hy. lra.
Qed.

Lemma within_nonzero x y a : a < 1 -> ~ y == 0 -> within x y a -> ~ x == 0.
Proof.
  intros Ha Hy R E. destruct (within_abs x y a R) as [L _].
  rewrite E in L. change (Qabs 0) with 0 in L.
  pose proof (Qabs_pos_nonzero y Hy).
  set (ay := Qabs y) in *. nra.
Qed.

Lemma div_mul_back w w0 :
  (0 < w0 < 2 ^ 53)%Z -> w <> 0%Z -> (Z.abs w <= 2 ^ 50)%Z ->
  exists f p,
    truediv (Int w) w0 = Ok (Float f) /\
    within f (inject_Z w / inject_Z w0) roundoff /\
    truthy (Float f) = true /\
    mul (Int w0) (Fin (Float f)) = Ok (Fin (Float p)) /\
    within p (inject_Z w) (3 * roundoff) /\
    round (Float p) = w.
Proof.
  intros Hw0 Hw Hb.
  destruct (truediv_ints w w0 Hw0 Hw ltac:(lia)) as (f & E & R).
  assert (Y1 : 1 <= inject_Z w0).
  { change 1 with (inject_Z 1). rewrite <- Zle_Qle. lia. }
  assert (X1 : 1 <= Qabs (inject_Z w)).
  { rewrite Qabs_inject_Z. change 1 with (inject_Z 1). rewrite <- Zle_Qle. lia. }
  assert (X2 : Qabs (inject_Z w) <= pow2 50).
  { rewrite Qabs_inject_Z, pow2_Z by lia. rewrite <- Zle_Qle. lia. }
  assert (P50 : pow2 50 == 1125899906842624) by reflexivity.
  pose proof pow2_small as S. pose proof pow2_large as L.
  pose proof roundoff_value as Ev. pose proof pow2_53 as P53.
  assert (R1 : within (inject_Z w0 * f) (inject_Z w) roundoff).
  { apply (within_comp (inject_Z w0 * f) (inject_Z w0 * (inject_Z w / inject_Z w0)));
      [reflexivity | field; lra |].
    apply within_scale; [lra | exact R]. }
  destruct (within_abs _ _ _ R1) as [B1 B2].
  destruct (mul_double_rel (inject_Z w0) f) as (p & Ep & Rp).
  { set (ax := Qabs (inject_Z w)) in *. set (q := Qabs (inject_Z w0 * f)) in *.
    set (lo := pow2 (-1022)) in *. nra. }
  { set (ax := Qabs (inject_Z w)) in *. set (q := Qabs (inject_Z w0 * f)) in *.
    set (hi := pow2 1023) in *. set (p53 := pow2 53) in *. set (p50 := pow2 50) in *.
    nra. }
  assert (R2 : within p (inject_Z w) (3 * roundoff)).
  { apply (within_weaken _ _ (roundoff + roundoff + roundoff * roundoff)); [nra |].
    apply (within_trans (inject_Z w0 * f)); [lra | exact R1 | exact Rp]. }
  exists f, p. split; [exact E |]. split; [exact R |]. split.
  - apply negb_true_iff. destruct (Qeq_bool f 0) eqn:E0; [| reflexivity].
    exfalso. apply Qeq_bool_iff in E0. revert E0.
    apply (within_nonzero f (inject_Z w / inject_Z w0) roundoff); [lra | | exact R].
    intros H0. assert (H1 : inject_Z w == 0).
    { rewrite <- (Qmult_div_r (inject_Z w) (inject_Z w0)) by lra.
      rewrite H0. ring. }
    apply Hw. apply (inject_Z_injective w 0). exact H1.
  - split.
    + unfold mul, to_float. rewrite round_double_int by lia. rewrite Ep. reflexivity.
    + split; [exact R2 |]. apply round_half_even_unique.
      unfold within in R2. eapply Qle_lt_trans; [exact R2 |].
      set (ax := Qabs (inject_Z w)) in *. set (p50 := pow2 50) in *. nra.
Qed.

Lemma lock_one_side a0 b0 x :
  (0 < a0 < 2 ^ 53)%Z -> (0 < b0 < 2 ^ 53)%Z -> x <> 0%Z -> (Z.abs x <= 2 ^ 50)%Z ->
  exists f p r o,
    truediv (Int x) a0 = Ok (Float f) /\
    truthy (Float f) = true /\
    mul (Int a0) (Fin (Float f)) = Ok (Fin (Float p)) /\
    round (Float p) = x /\
    truediv (Int b0) a0 = Ok (Float r) /\
    mul (Float r) (Fin (Float p)) = Ok (Fin (Float o)) /\
    within o (inject_Z b0 * inject_Z x / inject_Z a0) (6 * roundoff).
Proof.
  intros Ha0 Hb0 Hx Hb.
  destruct (div_mul_back x a0 Ha0 Hx Hb) as (f & p & E1 & _ & Tf & E2 & R2 & Rd).
  destruct (truediv_ints b0 a0 Ha0 ltac:(lia) ltac:(lia)) as (r & E3 & R3).
  assert (A1 : 1 <= inject_Z a0).
  { change 1 with (inject_Z 1). rewrite <- Zle_Qle. lia. }
  assert (A2 : inject_Z a0 < pow2 53).
  { rewrite pow2_Z by lia. rewrite <- Zlt_Qlt. lia. }
  assert (B1 : 1 <= inject_Z b0).
  { change 1 with (inject_Z 1). rewrite <- Zle_Qle. lia. }
  assert (B2 : inject_Z b0 < pow2 53).
  { rewrite pow2_Z by lia. rewrite <- Zlt_Qlt. lia. }
  assert (X1 : 1 <= Qabs (inject_Z x)).
  { rewrite Qabs_inject_Z. change 1 with (inject_Z 1). rewrite <- Zle_Qle. lia. }
  assert (X2 : Qabs (inject_Z x) <= pow2 50).
  { rewrite Qabs_inject_Z, pow2_Z by lia. rewrite <- Zle_Qle. lia. }
  assert (P50 : pow2 50 == 1125899906842624) by reflexivity.
  pose proof pow2_small as S. pose proof pow2_large as L.
  pose proof roundoff_value as Ev. pose proof pow2_53 as P53.
  assert (R4 : within (r * p) (inject_Z b0 / inject_Z a0 * inject_Z x)
                 (roundoff + 3 * roundoff + roundoff * (3 * roundoff))).
  { apply within_mul; [lra | lra | exact R3 | exact R2]. }
  assert (Y : Qabs (inject_Z b0 / inject_Z a0 * inject_Z x) * inject_Z a0
              == inject_Z b0 * Qabs (inject_Z x)).
  { rewrite Qabs_Qmult.
    assert (G : Qabs (inject_Z b0 / inject_Z a0) == inject_Z b0 / inject_Z a0).
    { apply Qabs_pos. apply Qle_shift_div_l; lra. }
    rewrite G. field. lra. }
  destruct (within_abs _ _ _ R4) as [L1 L2].
  pose proof (Qabs_nonneg (inject_Z b0 / inject_Z a0 * inject_Z x)) as Y0.
  destruct (mul_double_rel r p) as (o & Eo & Ro).
  { set (y := Qabs (inject_Z b0 / inject_Z a0 * inject_Z x)) in *.
    set (ax := Qabs (inject_Z x)) in *. set (q := Qabs (r * p)) in *.
    set (A := inject_Z a0) in *. set (B := inject_Z b0) in *.
    set (lo := pow2 (-1022)) in *. set (p53 := pow2 53) in *.
    set (p50 := pow2 50) in *.
    assert (roundoff * (1 # 2) <= y) by nra. nra. }
  { set (y := Qabs (inject_Z b0 / inject_Z a0 * inject_Z x)) in *.
    set (ax := Qabs (inject_Z x)) in *. set (q := Qabs (r * p)) in *.
    set (A := inject_Z a0) in *. set (B := inject_Z b0) in *.
    set (hi := pow2 1023) in *. set (p53 := pow2 53) in *.
    set (p50 := pow2 50) in *.
    assert (y <= p53 * p50) by nra. nra. }
  exists f, p, r, o. repeat (split; [assumption |]). split.
  - cbn [mul to_float]. rewrite Eo. reflexivity.
  - apply (within_comp o (inject_Z b0 / inject_Z a0 * inject_Z x));
      [reflexivity | field; lra |].
    apply (within_weaken _ _ ((roundoff + 3 * roundoff + roundoff * (3 * roundoff)) + roundoff
                           + (roundoff + 3 * roundoff + roundoff * (3 * roundoff)) * roundoff)); [nra |].
    apply (within_trans (r * p)); [lra | exact R4 | exact Ro].
Qed.

End Doubles.

(* ===================================================================== *)
(** ** The image handle: the arguments of resize and scale                 *)
(* ===================================================================== *)

Section ImageArguments.
Import Py Images.

Variable decode : list Byte.byte -> option Z -> option Z -> Decoded.

Lemma default_size_sets_memo st sz st' :
  default_size decode st = (Ok sz, st') -> _default_size (img st') = Some sz.
Proof.
  unfold default_size, bind, get_img, ret, modify_img.
  destruct (_default_size (img st)) as [sz0 |] eqn:E; [intros [= <- <-]; exact E |].
  destruct (default_surface decode st) as [[surf | e] st1]; [| discriminate].
  intros [= <- <-]. reflexivity.
Qed.

(** What a [scale] that returned has stored. *)
Lemma scale_stored wf hf lock st st' :
  scale decode wf hf lock st = (Ok tt, st') ->
  truthy_opt wf || truthy_opt hf = true /\
  exists sz vw vh,
    fst (default_size decode st) = Ok sz /\
    (if lock then _scale_lock wf hf sz else _scale_free wf hf sz)
      = Ok (Fin vw, Fin vh) /\
    _width (img st') = Some (Z.max (round vw) 1) /\
    _height (img st') = Some (Z.max (round vh) 1) /\
    _default_size (img st') = Some sz.
Proof.
  unfold scale.
  destruct (truthy_opt wf || truthy_opt hf); simpl; [| discriminate].
  intros H. split; [reflexivity |]. revert H. unfold bind at 1.
  destruct (default_size decode st) as [[sz | e] st1] eqn:G1; [| discriminate].
  apply default_size_sets_memo in G1.
  unfold bind at 1, lift.
  destruct (if lock then _scale_lock wf hf sz else _scale_free wf hf sz)
    as [[cw ch] | e] eqn:Hres; [| discriminate].
  unfold bind. cbn [fst snd].
  destruct cw as [vw | |]; [| discriminate | discriminate]. cbn [set_computed].
  destruct (set_width decode vw st1) as [[[] | e] st2] eqn:G2; [| discriminate].
  destruct ch as [vh | |]; [| discriminate | discriminate]. cbn [set_computed].
  intros G3. exists sz, vw, vh. split; [reflexivity |]. split; [exact Hres |].
  pose proof (set_width_Keeps decode vw st1) as K2. rewrite G2 in K2. simpl in K2.
  pose proof (set_height_Keeps decode vh st2) as K3. rewrite G3 in K3. simpl in K3.
  destruct (stored_after_reset decode
              (with_img (set_width_attr (Some (Z.max (round vw) 1))) st1))
    as (Hw2 & _).
  change (snd (_reset decode
            (with_img (set_width_attr (Some (Z.max (round vw) 1))) st1)))
    with (snd (set_width decode vw st1)) in Hw2.
  rewrite G2 in Hw2. simpl in Hw2.
  destruct (stored_after_reset decode
              (with_img (set_height_attr (Some (Z.max (round vh) 1))) st2))
    as (Hw3 & Hh3 & _).
  change (snd (_reset decode
            (with_img (set_height_attr (Some (Z.max (round vh) 1))) st2)))
    with (snd (set_height decode vh st2)) in Hw3, Hh3.
  rewrite G3 in Hw3, Hh3. simpl in Hw3, Hh3.
  split; [congruence |]. split; [exact Hh3 |].
  apply (keeps_default_size _ _ _ K3). apply (keeps_default_size _ _ _ K2). exact G1.
Qed.

(** A zero divided by the natural width is the float zero. *)
Lemma truediv_zero zero w0 :
  truthy zero = false -> (0 < w0 < 2 ^ 53)%Z ->
  truediv zero w0 = Ok (Float 0).
Proof.
  intros Hz Hw0. unfold truediv.
  assert (Hq : forall q d : Q, (q == 0)%Q -> round_double (q / d) = Some 0%Q).
  { intros q d H. unfold round_double.
    replace (Qeq_bool (q / d) 0) with true; [reflexivity |].
    symmetry. apply Qeq_bool_iff. rewrite H. unfold Qdiv. apply Qmult_0_l. }
  destruct zero as [z | q]; simpl in Hz.
  - apply negb_false_iff, Z.eqb_eq in Hz. subst z.
    replace (w0 =? 0)%Z with false by (symmetry; apply Z.eqb_neq; lia).
    rewrite Hq by reflexivity. reflexivity.
  - apply negb_false_iff, Qeq_bool_iff in Hz.
    unfold to_float. rewrite round_double_int by lia.
    replace (Qeq_bool (inject_Z w0) 0) with false.
    + rewrite (Hq q (inject_Z w0) Hz). reflexivity.
    + symmetry. apply not_true_is_false. intros H. apply Qeq_bool_iff in H.
      apply (inject_Z_injective w0 0) in H. lia.
Qed.

Lemma _scale_lock_falsy_width f hf size :
  truthy f = false ->
  _scale_lock (Some f) hf size = _scale_lock None hf size.
Proof.
  intros Hf. unfold _scale_lock. simpl. rewrite Hf. reflexivity.
Qed.

Lemma scale_falsy_width f hf st :
  truthy f = false ->
  scale decode (Some f) hf true st = scale decode None hf true st.
Proof.
  intros Hf. unfold scale. simpl. rewrite Hf. simpl.
  destruct (negb (truthy_opt hf)); [reflexivity |].
  unfold bind. destruct (default_size decode st) as [[size | e] st1]; [| reflexivity].
  rewrite (_scale_lock_falsy_width f hf size Hf). reflexivity.
Qed.

(** C8, as the code has it: on an image whose natural size can be read,
    [resize()] without width and height raises the missing-argument
    ValueError; [scale()] without factors raises its missing-argument
    ValueError on any image; and [scale] with a locked aspect ratio and
    two factors that are both non-zero raises a ValueError. *)
Theorem resize_scale_argument_errors st sz wf hf :
  fst (default_size decode st) = Ok sz ->
  truthy wf = true -> truthy hf = true ->
  fst (resize decode None None st)
    = Raise (ValueError "You must supply either width or height!") /\
  (forall lock,
     scale decode None None lock st
       = (Raise (ValueError "You must supply width_factor or height_factor"), st)) /\
  fst (scale decode (Some wf) (Some hf) true st)
    = Raise (ValueError
        "Can't rescale with locked aspect ratio and give width_factor and height_factor.").
Proof.
  intros Hsz Hwf Hhf. split; [| split].
  - unfold resize, bind.
    destruct (default_size decode st) as [[[w0 h0] | e] st1]; [| discriminate].
    reflexivity.
  - intros lock. reflexivity.
  - unfold scale, bind. simpl. rewrite Hwf. simpl.
    destruct (default_size decode st) as [[size | e] st1]; [| discriminate].
    unfold lift, _scale_lock. simpl. rewrite Hwf, Hhf. reflexivity.
Qed.

(** C10: a zero counts as an argument that was not given.  [scale] with
    no factor other than zeros raises the missing-argument ValueError and
    leaves the image as it is.  [resize] with a zero width and a height
    runs as [resize] with that height alone, and that is the resize with
    the aspect ratio locked: when it returns, the height stored is the
    rounded natural height times the factor [height / height0], and the
    width stored is the rounded quotient [width0 / height0] times that
    height, both at least 1.  The independent scale by the two factors,
    the zero one among them, would store the width 1.  (The natural width
    is positive and an exact double, as the widths of surfaces are.) *)
Theorem zero_arguments_are_absent st wf hf lock zero h w0 h0 :
  truthy_opt wf = false -> truthy_opt hf = false ->
  truthy zero = false ->
  fst (default_size decode st) = Ok (w0, h0) ->
  (0 < w0 < 2 ^ 53)%Z ->
  scale decode wf hf lock st
    = (Raise (ValueError "You must supply width_factor or height_factor"), st) /\
  resize decode (Some zero) (Some h) st = resize decode None (Some h) st /\
  (forall st',
     resize decode (Some zero) (Some h) st = (Ok tt, st') ->
     exists f height r width,
       truthy h = true /\
       truediv h h0 = Ok f /\
       mul (Int h0) (Fin f) = Ok (Fin height) /\
       truediv (Int w0) h0 = Ok r /\
       mul r (Fin height) = Ok (Fin width) /\
       _height (img st') = Some (Z.max (round height) 1) /\
       _width (img st') = Some (Z.max (round width) 1)) /\
  (forall f st',
     scale decode (Some (Float 0)) (Some f) false st = (Ok tt, st') ->
     _width (img st') = Some 1%Z).
Proof.
  intros Hwf Hhf Hz Hsz Hw0.
  assert (Heq : resize decode (Some zero) (Some h) st
                = resize decode None (Some h) st).
  { unfold resize, bind.
    destruct (default_size decode st) as [[[a b] | e] st1] eqn:G; [| reflexivity].
    simpl in Hsz. injection Hsz as -> ->.
    unfold lift, ret. rewrite (truediv_zero zero w0 Hz Hw0).
    destruct (truediv h h0) as [f |]; [| reflexivity].
    simpl. rewrite Hz. simpl.
    destruct (truthy h); [| reflexivity].
    apply scale_falsy_width. reflexivity. }
  split; [| split; [exact Heq | split]].
  - unfold scale. rewrite Hwf, Hhf. reflexivity.
  - intros st'. rewrite Heq. unfold resize, bind.
    destruct (default_size decode st) as [[[a b] | e] st1] eqn:G; [| discriminate].
    simpl in Hsz. injection Hsz as -> ->.
    apply default_size_sets_memo in G.
    unfold lift, ret.
    destruct (truediv h h0) as [f |] eqn:Ef; [| discriminate].
    cbn [truthy_opt andb orb].
    destruct (truthy h) eqn:Eh; [| discriminate].
    intros G2. apply scale_stored in G2.
    destruct G2 as (_ & sz & vw & vh & Hd & Hres & Ew & Eht & _).
    rewrite (default_size_memoized decode _ _ G) in Hd. simpl in Hd.
    injection Hd as <-.
    unfold _scale_lock in Hres. cbn [truthy_opt andb] in Hres.
    destruct (mul (Int h0) (Fin f)) as [height |] eqn:E1; [| discriminate].
    destruct (truediv (Int w0) h0) as [r |] eqn:E2; [| discriminate].
    destruct (mul r height) as [width |] eqn:E3; [| discriminate].
    injection Hres as -> ->.
    exists f, vh, r, vw. repeat split; assumption.
  - intros f st' G2. apply scale_stored in G2.
    destruct G2 as (_ & sz & vw & vh & Hd & Hres & Ew & _).
    rewrite Hsz in Hd. injection Hd as <-.
    unfold _scale_free in Hres.
    assert (Hm : mul (Int w0) (Fin (Float 0)) = Ok (Fin (Float 0))).
    { unfold mul, to_float. rewrite round_double_int by lia.
      unfold mul_double, round_double.
      replace (Qeq_bool (inject_Z w0 * 0) 0) with true; [reflexivity |].
      symmetry. apply Qeq_bool_iff. apply Qmult_0_r. }
    rewrite Hm in Hres.
    destruct (mul (Int h0) (Fin f)) as [height |]; [| discriminate].
    injection Hres as <- _. exact Ew.
Qed.

End ImageArguments.

(* ===================================================================== *)
(** ** The image handle on a 100 x 50 icon                                 *)
(* ===================================================================== *)

Section ImageExamples.
Import Py Images.

Lemma sizing_decoder_positive : decoder_positive sizing_decoder.
Proof.
  intros bytes w h. unfold sizing_decoder. intros [= <- <-]. lia.
Qed.



Lemma pattern_reflects_current_state_witness :
  keeps_attributes [WriteTheta (Int 90); ReadPattern] = true /\
  returns sizing_decoder [WriteTheta (Int 90); ReadPattern] icon = true /\
  _pattern (img (exec sizing_decoder [WriteTheta (Int 90); ReadPattern] icon))
    = Some (mkPattern 4 (mkSurface 2 100 50) 100 50 (inject_Z 90)) /\
  forall v st1,
    set_width sizing_decoder v (exec sizing_decoder [WriteTheta (Int 90); ReadPattern] icon)
      = (Ok tt, st1) \/
    set_height sizing_decoder v (exec sizing_decoder [WriteTheta (Int 90); ReadPattern] icon)
      = (Ok tt, st1) ->
    _pattern (img st1) = None.
Proof.
  split; [reflexivity |]. split; [vm_compute; reflexivity |].
  split; [vm_compute; reflexivity |].
  intros v st1 H.
  exact (proj1 (proj2 (pattern_reflects_current_state sizing_decoder [] "icon"
           "/icons/icon.png" [WriteTheta (Int 90); ReadPattern] eq_refl eq_refl) v st1 H)).
Defined.

(** C3: a width that is deleted leaves the pattern stale.  On the icon
    (100 x 50) the width is written 30, the pattern is read and the width
    is deleted, each operation returning: the width reads 100 again, and
    the pattern read returns the pattern that was built for the width 30,
    on the surface decoded at 30 x 50. *)
Theorem pattern_stale_after_width_deletion :
  returns sizing_decoder [WriteWidth (Int 30); ReadPattern; DeleteWidth] icon = true /\
  exists p st',
    pattern sizing_decoder
      (exec sizing_decoder [WriteWidth (Int 30); ReadPattern; DeleteWidth] icon)
      = (Ok p, st') /\
    pat_width p = 30%Z /\
    size_of (pat_surface p) = (30, 50)%Z /\
    fst (width sizing_decoder st') = Ok 100%Z /\
    fst (height sizing_decoder st') = Ok 50%Z.
Proof.
  split; [vm_compute; reflexivity |].
  eexists. eexists. split; [vm_compute; reflexivity |].
  repeat split.
Qed.

Lemma pixel_size_rounded_and_clamped_witness :
  decoder_positive sizing_decoder /\
  _width (img (snd (set_width sizing_decoder (Float (-7 # 2))
                      (exec sizing_decoder [WriteWidth (Float (5 # 2))] icon))))
    = Some (Z.max (round (Float (-7 # 2))) 1) /\
  forall w,
    fst (width sizing_decoder (exec sizing_decoder [WriteWidth (Float (5 # 2))] icon))
      = Ok w -> (1 <= w)%Z.
Proof.
  split; [exact sizing_decoder_positive |].
  pose proof (pixel_size_rounded_and_clamped sizing_decoder [] "icon" "/icons/icon.png"
                [WriteWidth (Float (5 # 2))] (Float (-7 # 2)) sizing_decoder_positive)
    as (H1 & _ & _ & _ & _ & H6 & _).
  split; [exact H1 | exact H6].
Defined.


(** [scale] with the aspect ratio locked, a width factor of 2 and a
    height factor of 0 does not raise: it doubles the icon. *)
Lemma scale_locked_with_zero_factor :
  ~ (exists e,
       fst (scale sizing_decoder (Some (Int 2)) (Some (Int 0)) true icon) = Raise e) /\
  _width (img (snd (scale sizing_decoder (Some (Int 2)) (Some (Int 0)) true icon)))
    = Some 200%Z /\
  _height (img (snd (scale sizing_decoder (Some (Int 2)) (Some (Int 0)) true icon)))
    = Some 100%Z.
Proof.
  split; [| split; reflexivity].
  intros (e & He). vm_compute in He. discriminate.
Qed.

Lemma resize_scale_argument_errors_witness :
  fst (default_size sizing_decoder icon) = Ok (100, 50)%Z /\
  truthy (Int 2) = true /\ truthy (Float (3 # 2)) = true /\
  fst (resize sizing_decoder None None icon)
    = Raise (ValueError "You must supply either width or height!") /\
  fst (scale sizing_decoder (Some (Int 2)) (Some (Float (3 # 2))) true icon)
    = Raise (ValueError
        "Can't rescale with locked aspect ratio and give width_factor and height_factor.").
Proof.
  split; [reflexivity |]. split; [reflexivity |]. split; [reflexivity |].
  pose proof (resize_scale_argument_errors sizing_decoder icon (100, 50)%Z
                (Int 2) (Float (3 # 2)) eq_refl eq_refl eq_refl) as (H1 & _ & H3).
  split; [exact H1 | exact H3].
Defined.

Lemma zero_arguments_are_absent_witness :
  truthy_opt (Some (Int 0)) = false /\ truthy_opt (Some (Float 0)) = false /\
  truthy (Int 0) = false /\
  fst (default_size sizing_decoder icon) = Ok (100, 50)%Z /\
  (0 < 100 < 2 ^ 53)%Z /\
  scale sizing_decoder (Some (Int 0)) (Some (Float 0)) false icon
    = (Raise (ValueError "You must supply width_factor or height_factor"), icon) /\
  resize sizing_decoder (Some (Int 0)) (Some (Int 25)) icon
    = resize sizing_decoder None (Some (Int 25)) icon /\
  exists f height r width,
    truthy (Int 25) = true /\
    truediv (Int 25) 50 = Ok f /\
    mul (Int 50) (Fin f) = Ok (Fin height) /\
    truediv (Int 100) 50 = Ok r /\
    mul r (Fin height) = Ok (Fin width) /\
    _height (img (snd (resize sizing_decoder (Some (Int 0)) (Some (Int 25)) icon)))
      = Some (Z.max (round height) 1) /\
    _width (img (snd (resize sizing_decoder (Some (Int 0)) (Some (Int 25)) icon)))
      = Some (Z.max (round width) 1).
Proof.
  split; [reflexivity |]. split; [reflexivity |]. split; [reflexivity |].
  split; [reflexivity |]. split; [lia |].
  destruct (zero_arguments_are_absent sizing_decoder icon (Some (Int 0))
              (Some (Float 0)) false (Int 0) (Int 25) 100 50
              eq_refl eq_refl eq_refl eq_refl ltac:(lia)) as (H1 & H2 & H3 & _).
  split; [exact H1 |]. split; [exact H2 |].
  apply (H3 (snd (resize sizing_decoder (Some (Int 0)) (Some (Int 25)) icon))).
  vm_compute. reflexivity.
Defined.

(** [resize(width=0, height=25)] on the icon (100 x 50): the width
    follows the height, 50 x 25, where the independent scale by the
    factors 0 and 1/2 clamps the width to 1. *)
Example resize_zero_width :
  _width (img (snd (resize sizing_decoder (Some (Int 0)) (Some (Int 25)) icon)))
    = Some 50%Z /\
  _height (img (snd (resize sizing_decoder (Some (Int 0)) (Some (Int 25)) icon)))
    = Some 25%Z /\
  _width (img (snd (scale sizing_decoder (Some (Float 0)) (Some (Float (1 # 2)))
                      false icon)))
    = Some 1%Z /\
  _height (img (snd (scale sizing_decoder (Some (Float 0)) (Some (Float (1 # 2)))
                       false icon)))
    = Some 25%Z.
Proof. repeat split; vm_compute; reflexivity. Qed.

(** Behind a decoder that takes no size arguments the surface keeps its
    natural size, a warning is logged at each decoding, and the pattern of
    the icon resized to 200 x 50 stretches the 100 x 50 surface. *)
Example legacy_pattern_is_stretched :
  exists p st,
    pattern legacy_decoder
      (exec legacy_decoder [WriteWidth (Int 200); WriteTheta (Int 180)] icon)
      = (Ok p, st) /\
    size_of (pat_surface p) = (100, 50)%Z /\
    (pat_width p, pat_height p) = (200, 50)%Z /\
    pattern_matrix p
      = Cairo.get_cairo_pattern 100 50 (Some 200%Z) (Some 50%Z) (Q2R (inject_Z 180)) /\
    0 < warnings st.
Proof.
  eexists. eexists. split; [vm_compute; reflexivity |].
  split; [reflexivity |]. split; [reflexivity |]. split; [reflexivity |].
  simpl. lia.
Qed.

End ImageExamples.

(* ===================================================================== *)
(** ** The icon loader: one directory after the other                      *)
(* ===================================================================== *)

Section LoaderFacts.
Import Py Loading.
Local Open Scope string_scope.

Variable read_file : string -> option (list Byte.byte).
Variable glob : string -> string -> list string.
Variable iter : gset string -> list string.

Lemma map_is_fmap {A B} (f : A -> B) (l : list A) : map f l = f <$> l.
Proof. reflexivity. Qed.

Lemma first_match_app dirs directory q :
  first_match glob (dirs ++ [directory]) q =
    match first_match glob dirs q with
    | Some p => Some p
    | None => head (glob directory q)
    end.
Proof.
  induction dirs as [| d0 dirs IH]; simpl.
  - destruct (glob directory q); reflexivity.
  - destruct (glob d0 q); [exact IH | reflexivity].
Qed.

Lemma built_snoc names loaded q p :
  built read_file names (loaded ++ [(q, p)]) =
    match from_path read_file p with
    | Ok i => <[key_of names q := i]> (built read_file names loaded)
    | Raise _ => built read_file names loaded
    end.
Proof. unfold built. rewrite foldl_app. reflexivity. Qed.

Lemma elem_of_set_names names q :
  q ∈ set_names names <-> exists n, n ∈ names /\ q = query_of n.
Proof.
  unfold set_names.
  assert (H : forall (s : gset string),
    q ∈ foldl (fun s n => s ∪ {[query_of n]}) s names <->
    q ∈ s \/ exists n, n ∈ names /\ q = query_of n).
  { induction names as [| n0 names IH]; intros s; simpl.
    - split; [auto |]. intros [H | (n & Hn & _)]; [exact H |].
      apply not_elem_of_nil in Hn. contradiction.
    - rewrite IH. rewrite elem_of_union, elem_of_singleton. split.
      + intros [[H | H] | (n & Hn & Hq)]; [auto | |].
        * right. exists n0. split; [apply list_elem_of_here | exact H].
        * right. exists n. split; [apply list_elem_of_further; exact Hn | exact Hq].
      + intros [H | (n & Hn & Hq)]; [auto |].
        apply elem_of_cons in Hn. destruct Hn as [-> | Hn]; [auto |].
        right. exists n. auto. }
  rewrite H. split; [| auto]. intros [H0 | H0]; [| exact H0].
  apply not_elem_of_empty in H0. contradiction.
Qed.

(** One directory: the loop over its matches. *)
Lemma load_matches_spec names directory wanted pr pr' :
  load_matches read_file names (scan_files glob directory wanted) pr = Ok pr' ->
  (d pr = built read_file names (loads pr) ->
   d pr' = built read_file names (loads pr')) /\
  scans pr' = scans pr /\
  (forall q, q ∈ seen pr' <->
     q ∈ seen pr \/ (q ∈ wanted /\ glob directory q <> [])) /\
  (forall q p, (q, p) ∈ loads pr' <->
     (q, p) ∈ loads pr \/ (q ∈ wanted /\ head (glob directory q) = Some p)) /\
  (NoDup wanted -> (forall q, q ∈ wanted -> q ∉ (fst <$> loads pr)) ->
   NoDup (fst <$> loads pr) -> NoDup (fst <$> loads pr')).
Proof.
  revert pr. induction wanted as [| q0 wanted IH]; intros pr; simpl.
  - intros [= <-]. split; [auto |]. split; [reflexivity |].
    split; [| split; [| auto]].
    + intros q. split; [auto |]. intros [H | (H & _)]; [exact H |].
      apply not_elem_of_nil in H. contradiction.
    + intros q p. split; [auto |]. intros [H | (H & _)]; [exact H |].
      apply not_elem_of_nil in H. contradiction.
  - destruct (glob directory q0) as [| path0 rest] eqn:G.
    + intros H. destruct (IH pr H) as (Hd & Hsc & Hse & Hlo & Hnd).
      split; [exact Hd |]. split; [exact Hsc |]. split; [| split].
      * intros q. rewrite Hse, elem_of_cons. split.
        -- intros [Hq | (Hq & Hg)]; auto.
        -- intros [Hq | ([-> | Hq] & Hg)]; auto. congruence.
      * intros q p. rewrite Hlo, elem_of_cons. split.
        -- intros [Hq | (Hq & Hg)]; auto.
        -- intros [Hq | ([-> | Hq] & Hg)]; auto. rewrite G in Hg. discriminate.
      * intros Hw Hfresh. apply Hnd.
        -- apply NoDup_cons in Hw. apply Hw.
        -- intros q Hq. apply Hfresh. apply list_elem_of_further. exact Hq.
    + destruct (from_path read_file path0) as [i | e] eqn:F; [| discriminate].
      intros H. destruct (IH _ H) as (Hd & Hsc & Hse & Hlo & Hnd). simpl in *.
      split; [| split; [exact Hsc |]; split; [| split]].
      * intros Hd0. apply Hd. rewrite built_snoc, F, Hd0. reflexivity.
      * intros q. rewrite Hse, elem_of_union, elem_of_singleton, elem_of_cons.
        split.
        -- intros [[Hq | ->] | (Hq & Hg)]; auto. right. split; [auto | congruence].
        -- intros [Hq | ([-> | Hq] & Hg)]; auto.
      * intros q p. rewrite Hlo, elem_of_app, list_elem_of_singleton, elem_of_cons.
        split.
        -- intros [[Hq | [= -> ->]] | (Hq & Hg)]; auto.
           right. split; [auto |]. rewrite G. reflexivity.
        -- intros [Hq | ([-> | Hq] & Hg)]; auto.
           rewrite G in Hg. injection Hg as <-. auto.
      * intros Hw Hfresh Hn. apply NoDup_cons in Hw. destruct Hw as (Hq0 & Hw).
        apply Hnd; [exact Hw | |].
        -- intros q Hq. rewrite fmap_app, elem_of_app. simpl.
           rewrite list_elem_of_singleton. intros [Hin | ->]; [| contradiction].
           revert Hin. apply Hfresh. apply list_elem_of_further. exact Hq.
        -- rewrite fmap_app. apply NoDup_app. split; [exact Hn |]. split.
           ++ intros q Hq. simpl. rewrite list_elem_of_singleton. intros ->.
              revert Hq. apply Hfresh. apply list_elem_of_here.
           ++ simpl. apply NoDup_singleton.
Qed.


Lemma Scanned_start names :
  Scanned read_file glob names [] (mkProgress ∅ ∅ [] []).
Proof.
  constructor; simpl.
  - reflexivity.
  - intros q. split; [intros H; apply not_elem_of_empty in H; contradiction |].
    intros (_ & H). contradiction.
  - intros q p. split; [intros H; apply not_elem_of_nil in H; contradiction |].
    intros (_ & H). discriminate.
  - apply NoDup_nil_2.
  - reflexivity.
  - intros i directory qs H. discriminate.
Qed.

Lemma wanted_spec names done pr q :
  (forall X, iter X ≡ₚ elements X) ->
  Scanned read_file glob names done pr ->
  q ∈ iter (set_names names ∖ seen pr) <->
  q ∈ set_names names /\ first_match glob done q = None.
Proof.
  intros Hiter S. rewrite (Hiter _), elem_of_elements, elem_of_difference.
  rewrite (scanned_seen _ _ _ _ _ S). split.
  - intros (Hq & Hn). split; [exact Hq |].
    destruct (first_match glob done q) eqn:E; [| reflexivity].
    exfalso. apply Hn. split; [exact Hq | discriminate].
  - intros (Hq & Hn). split; [exact Hq |]. intros (_ & Hm). contradiction.
Qed.

Lemma Scanned_step names done directory pr pr' :
  (forall X, iter X ≡ₚ elements X) ->
  Scanned read_file glob names done pr ->
  load_matches read_file names
    (scan_files glob directory (iter (set_names names ∖ seen pr)))
    (mkProgress (d pr) (seen pr)
       (scans pr ++ [(directory, iter (set_names names ∖ seen pr))]) (loads pr))
    = Ok pr' ->
  Scanned read_file glob names (done ++ [directory]) pr'.
Proof.
  intros Hiter S L.
  pose proof (wanted_spec names done pr) as Hw.
  apply load_matches_spec in L. simpl in L.
  destruct L as (Hd & Hsc & Hse & Hlo & Hnd).
  constructor.
  - apply Hd. apply S.
  - intros q. rewrite Hse, (scanned_seen _ _ _ _ _ S), (Hw q Hiter S), first_match_app.
    destruct (first_match glob done q) as [p |] eqn:E.
    + split; [| intros (Hq & _); left; split; [exact Hq | discriminate]].
      intros [(Hq & _) | ((Hq & Hn) & _)]; [| discriminate].
      split; [exact Hq | discriminate].
    + split.
      * intros [(_ & Hn) | ((Hq & _) & Hg)]; [contradiction |].
        split; [exact Hq |]. destruct (glob directory q); [contradiction | discriminate].
      * intros (Hq & Hg). right. split; [auto |].
        destruct (glob directory q); [contradiction | discriminate].
  - intros q p. rewrite Hlo, (scanned_loads _ _ _ _ _ S), (Hw q Hiter S), first_match_app.
    destruct (first_match glob done q) as [p0 |] eqn:E.
    + split; [| intros (Hq & Hp); left; auto].
      intros [(Hq & Hp) | ((Hq & Hn) & _)]; [auto | discriminate].
    + split.
      * intros [(_ & Hn) | ((Hq & _) & Hg)]; [discriminate | auto].
      * intros (Hq & Hg). right. auto.
  - apply Hnd.
    + rewrite (Hiter _). apply NoDup_elements.
    + intros q Hq Hin. apply (Hw q Hiter S) in Hq. destruct Hq as (_ & Hn).
      apply list_elem_of_fmap in Hin. destruct Hin as ([q' p] & -> & Hin).
      apply (scanned_loads _ _ _ _ _ S) in Hin. simpl in Hn. destruct Hin as (_ & Hm).
      congruence.
    + apply S.
  - rewrite Hsc, map_is_fmap, fmap_app, <- map_is_fmap, (scanned_dirs _ _ _ _ _ S).
    reflexivity.
  - intros i dir0 qs Hi q. rewrite Hsc in Hi.
    assert (Hlen : length (scans pr) = length done).
    { rewrite <- (scanned_dirs _ _ _ _ _ S), map_is_fmap, length_fmap. reflexivity. }
    apply lookup_snoc_Some in Hi. destruct Hi as [(Hlt & Hi) | (-> & [= <- <-])].
    + rewrite take_app_le by lia. apply (scanned_scans _ _ _ _ _ S _ _ _ Hi).
    + rewrite Hlen, take_app_length. apply (Hw q Hiter S).
Qed.

Lemma scan_directories_spec names dirs done pr pr' :
  (forall X, iter X ≡ₚ elements X) ->
  Scanned read_file glob names done pr ->
  scan_directories read_file glob iter names (set_names names) dirs pr = Ok pr' ->
  Scanned read_file glob names (done ++ dirs) pr'.
Proof.
  intros Hiter. revert done pr. induction dirs as [| directory rest IH];
    intros done pr S; simpl.
  - intros [= <-]. rewrite app_nil_r. exact S.
  - destruct (load_matches _ _ _ _) as [pr1 | e] eqn:L; [| discriminate].
    intros H. apply (Scanned_step names done directory pr pr1 Hiter S) in L.
    apply (IH _ _ L) in H. rewrite <- app_assoc in H. exact H.
Qed.


Lemma built_lookup names loaded q p i :
  NoDup (fst <$> loaded) -> (q, p) ∈ loaded -> from_path read_file p = Ok i ->
  (forall q', q' ∈ (fst <$> loaded) -> key_of names q' = key_of names q -> q' = q) ->
  built read_file names loaded !! key_of names q = Some i.
Proof.
  induction loaded as [| [q1 p1] loaded IH] using rev_ind; intros Hn Hin Hf Hinj.
  - apply not_elem_of_nil in Hin. contradiction.
  - rewrite fmap_app in Hn, Hinj. simpl in Hn, Hinj.
    apply NoDup_app in Hn. destruct Hn as (Hn & Hfresh & _).
    rewrite built_snoc. apply elem_of_app in Hin.
    destruct Hin as [Hin | Hin].
    + assert (Hq : q ∈ (fst <$> loaded)).
      { apply list_elem_of_fmap. exists (q, p). auto. }
      assert (Hne : key_of names q1 <> key_of names q).
      { intros Hk. apply (Hfresh q Hq). apply list_elem_of_singleton.
        symmetry. apply Hinj; [| exact Hk].
        apply elem_of_app. right. apply list_elem_of_singleton. reflexivity. }
      assert (IH' : built read_file names loaded !! key_of names q = Some i).
      { apply IH; auto. intros q' Hq'. apply Hinj. apply elem_of_app. auto. }
      destruct (from_path read_file p1); [| exact IH'].
      rewrite lookup_insert_ne by exact Hne. exact IH'.
    + apply list_elem_of_singleton in Hin. injection Hin as -> ->.
      rewrite Hf. apply lookup_insert_eq.
Qed.

Lemma substring_prefix n s : substring 0 (String.length n) (n ++ s) = n.
Proof.
  induction n as [| a n IH]; simpl.
  - destruct s; reflexivity.
  - rewrite IH. reflexivity.
Qed.

Lemma length_wildcard n : String.length (n ++ ".*") = S (S (String.length n)).
Proof. induction n as [| a n IH]; simpl; [reflexivity | rewrite IH; reflexivity]. Qed.

Lemma drop_last2_wildcard n : drop_last2 (n ++ ".*") = n.
Proof.
  unfold drop_last2. rewrite length_wildcard. simpl.
  rewrite Nat.sub_0_r. apply substring_prefix.
Qed.

(** With no requested name that is another requested name followed by
    the wildcard suffix, every name gets its query back as its key. *)
Lemma key_of_query names n :
  (forall m, m ∈ names -> m ++ ".*" ∉ names) ->
  n ∈ names -> key_of names (query_of n) = n.
Proof.
  intros Hplain Hn. unfold key_of, query_of.
  destruct (nonempty (snd (splitext n))).
  - rewrite bool_decide_eq_true_2 by exact Hn. reflexivity.
  - rewrite bool_decide_eq_false_2 by (apply Hplain; exact Hn).
    apply drop_last2_wildcard.
Qed.



Lemma directories_init dirs kwargs self :
  Loader_init dirs kwargs = Ok self -> directories self = Ok dirs.
Proof.
  unfold Loader_init.
  destruct (existsb _ kwargs); [discriminate |].
  destruct (set_kwargs ∅ kwargs); [| discriminate].
  intros [= <-]. unfold directories.
  rewrite lookup_insert_eq. reflexivity.
Qed.

Lemma Loader_scan_spec names dirs kwargs self pr :
  (forall X, iter X ≡ₚ elements X) ->
  Loader_init dirs kwargs = Ok self ->
  Loader_scan read_file glob iter self names = Ok pr ->
  Scanned read_file glob names dirs pr.
Proof.
  intros Hiter Hself. unfold Loader_scan.
  rewrite (directories_init _ _ _ Hself). intros H.
  apply (scan_directories_spec names dirs [] _ _ Hiter (Scanned_start names)) in H.
  exact H.
Qed.




Lemma foldl_insert_other (kwargs : list (string * object)) k (m : gmap string object) :
  k ∉ (fst <$> kwargs) ->
  foldl (fun self kv => <[fst kv := snd kv]> self) m kwargs !! k = m !! k.
Proof.
  revert m. induction kwargs as [| [k0 v0] kwargs IH]; intros m Hk; simpl.
  - reflexivity.
  - simpl in Hk. apply not_elem_of_cons in Hk. destruct Hk as (Hne & Hk).
    rewrite IH by exact Hk. simpl. apply lookup_insert_ne. congruence.
Qed.

Lemma foldl_insert_lookup (kwargs : list (string * object)) k v (m : gmap string object) :
  NoDup (fst <$> kwargs) -> (k, v) ∈ kwargs ->
  foldl (fun self kv => <[fst kv := snd kv]> self) m kwargs !! k = Some v.
Proof.
  revert m. induction kwargs as [| [k0 v0] kwargs IH]; intros m Hn Hin; simpl.
  - apply not_elem_of_nil in Hin. contradiction.
  - simpl in Hn. apply NoDup_cons in Hn. destruct Hn as (Hk0 & Hn).
    apply elem_of_cons in Hin. destruct Hin as [[= -> ->] | Hin].
    + rewrite foldl_insert_other by exact Hk0. simpl. apply lookup_insert_eq.
    + apply IH; assumption.
Qed.

Lemma refused_reserved k e : refused k = Some e -> k ∈ reserved.
Proof.
  unfold refused, reserved.
  destruct (String.eqb k "__class__") eqn:E1.
  { apply String.eqb_eq in E1. subst k. intros _. set_solver. }
  destruct (String.eqb k "__dict__") eqn:E2.
  { apply String.eqb_eq in E2. subst k. intros _. set_solver. }
  destruct (String.eqb k "__weakref__") eqn:E3; [| discriminate].
  apply String.eqb_eq in E3. subst k. intros _. set_solver.
Qed.

Lemma refused_exn k e :
  refused k = Some e -> e = TypeError \/ e = AttributeError "__weakref__".
Proof.
  unfold refused.
  destruct (String.eqb k "__class__" || String.eqb k "__dict__");
    [intros [= <-]; auto |].
  destruct (String.eqb k "__weakref__"); [intros [= <-]; auto | discriminate].
Qed.

Lemma reserved_refused k :
  k ∈ reserved -> k = "self" \/ exists e, refused k = Some e.
Proof.
  unfold reserved. rewrite !elem_of_cons, elem_of_nil.
  intros [-> | [-> | [-> | [-> | []]]]]; [left; reflexivity | right ..];
    eexists; reflexivity.
Qed.

Lemma set_kwargs_stores (kwargs : list (string * object)) (m : gmap string object) :
  (forall k, k ∈ (fst <$> kwargs) -> k ∉ reserved) ->
  set_kwargs m kwargs = Ok (foldl (fun self kv => <[fst kv := snd kv]> self) m kwargs).
Proof.
  revert m. induction kwargs as [| [k0 v0] kwargs IH]; intros m Hs; simpl.
  - reflexivity.
  - destruct (refused k0) as [e |] eqn:E.
    + exfalso. apply (Hs k0); [simpl; apply elem_of_cons; auto |].
      exact (refused_reserved k0 e E).
    + apply IH. intros k Hk. apply Hs. simpl. apply elem_of_cons. auto.
Qed.

Lemma set_kwargs_refuses (kwargs : list (string * object)) (m : gmap string object) k v e0 :
  (k, v) ∈ kwargs -> refused k = Some e0 ->
  exists e, set_kwargs m kwargs = Raise e /\
            (e = TypeError \/ e = AttributeError "__weakref__").
Proof.
  revert m. induction kwargs as [| [k0 v0] kwargs IH]; intros m Hin Hr; simpl.
  - apply not_elem_of_nil in Hin. contradiction.
  - destruct (refused k0) as [e |] eqn:E.
    + exists e. split; [reflexivity | exact (refused_exn k0 e E)].
    + apply elem_of_cons in Hin. destruct Hin as [[= -> ->] | Hin];
        [congruence |].
      apply IH; assumption.
Qed.

Lemma no_self_keyword (kwargs : list (string * object)) :
  (forall k, k ∈ (fst <$> kwargs) -> k <> "self") ->
  existsb (fun kv => String.eqb (fst kv) "self") kwargs = false.
Proof.
  induction kwargs as [| [k0 v0] kwargs IH]; intros Hs; simpl; [reflexivity |].
  rewrite IH by (intros k Hk; apply Hs; simpl; apply elem_of_cons; auto).
  rewrite orb_false_r. apply String.eqb_neq. apply Hs. simpl.
  apply elem_of_cons. auto.
Qed.

(** C6, as the code has it: the constructor rejects no keyword for being
    unrecognized.  With keywords outside the four names that Python
    itself reserves ([self], [__class__], [__dict__], [__weakref__]) it
    returns a loader that holds every keyword argument as an attribute of
    its own name, whatever the name is, and the positional directories
    under [directories].  One of the four names among the keywords makes
    it raise: a TypeError, or the AttributeError of [__weakref__]. *)
Theorem loader_stores_every_keyword dirs kwargs :
  NoDup (fst <$> kwargs) ->
  ((forall k, k ∈ (fst <$> kwargs) -> k ∉ reserved) ->
   exists self : gmap string object,
     Loader_init dirs kwargs = Ok self /\
     (forall k v, (k, v) ∈ kwargs -> k <> "directories" -> self !! k = Some v) /\
     directories self = Ok dirs) /\
  (forall k v, (k, v) ∈ kwargs -> k ∈ reserved ->
   exists e, Loader_init dirs kwargs = Raise e /\
             (e = TypeError \/ e = AttributeError "__weakref__")).
Proof.
  intros Hn. split.
  - intros Hs. unfold Loader_init.
    rewrite no_self_keyword.
    2:{ intros k Hk -> . apply (Hs "self" Hk). apply list_elem_of_here. }
    rewrite (set_kwargs_stores kwargs ∅ Hs).
    eexists. split; [reflexivity |]. split.
    + intros k v Hin Hk. rewrite lookup_insert_ne by congruence.
      apply foldl_insert_lookup; assumption.
    + unfold directories. rewrite lookup_insert_eq. reflexivity.
  - intros k v Hin Hr. unfold Loader_init.
    destruct (existsb _ kwargs) eqn:Ex; [exists TypeError; auto |].
    destruct (reserved_refused k Hr) as [-> | (e0 & He0)].
    + exfalso. apply not_true_iff_false in Ex. apply Ex.
      apply existsb_exists. exists ("self", v). split; [| reflexivity].
      apply list_elem_of_In. exact Hin.
    + destruct (set_kwargs_refuses kwargs ∅ k v e0 Hin He0) as (e & -> & He).
      exists e. split; [reflexivity | exact He].
Qed.

End LoaderFacts.

(* ===================================================================== *)
(** ** The icon loader on two directories                                  *)
(* ===================================================================== *)

Section LoaderExamples.
Import Py Loading.
Local Open Scope string_scope.

Lemma elements_order : forall X : gset string, elements X ≡ₚ elements X.
Proof. reflexivity. Qed.


Lemma icon_logo_plain :
  forall m, m ∈ ["icon"; "logo.svg"] -> m ++ ".*" ∉ ["icon"; "logo.svg"].
Proof.
  intros m Hm Hin.
  apply elem_of_cons in Hm. destruct Hm as [-> | Hm].
  - apply list_elem_of_In in Hin. simpl in Hin. intuition discriminate.
  - apply list_elem_of_singleton in Hm. subst m.
    apply list_elem_of_In in Hin. simpl in Hin. intuition discriminate.
Qed.

(** Directories [/A, /B] and a request for ["icon"]: the file in [/A]
    is the one returned. *)
Example icon_resolves_in_first_directory :
  exists result,
    Loader_call two_dirs_read two_dirs_glob elements
      (<["directories" := OList ["/A"; "/B"]]> ∅) ["icon"] = Ok result /\
    Images.path <$> (result !! "icon") = Some "/A/icon.png" /\
    Images.name <$> (result !! "icon") = Some "icon".
Proof. eexists. split; [vm_compute; reflexivity |]. split; reflexivity. Qed.




(** A keyword that no loader knows is not refused by the constructor: it
    becomes an attribute. *)
Lemma unknown_keyword_is_stored :
  ~ (exists e, Loader_init ["/A"] [("colour", OStr "red")] = Raise e) /\
  exists self : gmap string object,
    Loader_init ["/A"] [("colour", OStr "red")] = Ok self /\
    self !! "colour" = Some (OStr "red").
Proof.
  split.
  - intros (e & He). discriminate.
  - eexists. split; [reflexivity |]. vm_compute. reflexivity.
Qed.

Lemma loader_stores_every_keyword_witness :
  NoDup (fst <$> [("colour", OStr "red"); ("size", ONum (Int 24))]) /\
  (forall k, k ∈ (fst <$> [("colour", OStr "red"); ("size", ONum (Int 24))]) ->
     k ∉ reserved) /\
  exists self : gmap string object,
    Loader_init ["/A"; "/B"] [("colour", OStr "red"); ("size", ONum (Int 24))] = Ok self /\
    self !! "size" = Some (ONum (Int 24)) /\
    directories self = Ok ["/A"; "/B"].
Proof.
  assert (Hn : NoDup (fst <$> [("colour", OStr "red"); ("size", ONum (Int 24))])).
  { simpl. apply NoDup_cons. split; [| apply NoDup_singleton].
    intros H. apply list_elem_of_singleton in H. discriminate. }
  assert (Hs : forall k,
             k ∈ (fst <$> [("colour", OStr "red"); ("size", ONum (Int 24))]) ->
             k ∉ reserved).
  { intros k Hk. simpl in Hk.
    apply elem_of_cons in Hk as [-> | Hk];
      [| apply elem_of_cons in Hk as [-> | Hk]; [| apply elem_of_nil in Hk; contradiction]];
      (unfold reserved; intros Hr;
       repeat (apply elem_of_cons in Hr as [Hr | Hr]; [discriminate |]);
       apply elem_of_nil in Hr; contradiction). }
  split; [exact Hn |]. split; [exact Hs |].
  destruct (proj1 (loader_stores_every_keyword ["/A"; "/B"]
                     [("colour", OStr "red"); ("size", ONum (Int 24))] Hn) Hs)
    as (self & Hi & Hk & Hd).
  exists self. split; [exact Hi |]. split; [| exact Hd].
  apply Hk; [| discriminate].
  apply list_elem_of_further, list_elem_of_here.
Defined.

(** The names that Python reserves are refused, [self] at the call and
    the others by [setattr]; the keywords before the refused one do not
    matter. *)
Example reserved_keywords_raise :
  Loader_init ["/A"] [("colour", OStr "red"); ("self", ONone)] = Raise TypeError /\
  Loader_init ["/A"] [("__class__", ONone)] = Raise TypeError /\
  Loader_init ["/A"] [("__dict__", ONone)] = Raise TypeError /\
  Loader_init ["/A"] [("__weakref__", ONone)]
    = Raise (AttributeError "__weakref__").
Proof. repeat split. Qed.

End LoaderExamples.

(* ===================================================================== *)
(** ** The transform matrix: no rotation, and a surface of the target size *)
(* ===================================================================== *)

Section CairoFrames.
Import Cairo.
Local Open Scope R_scope.

Lemma tr_factor_ratio sw w :
  w <> 0%Z -> tr_factor sw (Some w) = Some (IZR sw / IZR w).
Proof.
  intros Hw. unfold tr_factor.
  destruct (Z.eqb_spec w sw) as [-> | Hne].
  - f_equal. field. apply not_0_IZR. exact Hw.
  - destruct (Z.eqb_spec w 0) as [-> | _]; [contradiction | reflexivity].
Qed.

(** An angle within the threshold (0 degrees among them) gives the scale
    alone: the matrix sends a point of the target frame to the point of
    the surface that is shown there, the far corner of the frame to the
    far corner of the surface.  A zero width or height with a surface
    that is not of that size is the ZeroDivisionError. *)
Theorem get_cairo_pattern_unrotated sw sh w h theta :
  Rabs theta <= epsilon ->
  (w <> 0%Z -> h <> 0%Z ->
   exists m, get_cairo_pattern sw sh (Some w) (Some h) theta = Some m /\
     (forall x y, transform_point m (x, y)
                  = (IZR sw / IZR w * x, IZR sh / IZR h * y)) /\
     transform_point m (IZR w, IZR h) = (IZR sw, IZR sh)) /\
  (sw <> 0%Z -> get_cairo_pattern sw sh (Some 0%Z) (Some h) theta = None) /\
  (sh <> 0%Z -> get_cairo_pattern sw sh (Some w) (Some 0%Z) theta = None).
Proof.
  intros Hth. split; [| split].
  - intros Hw Hh. unfold get_cairo_pattern.
    rewrite (tr_factor_ratio sw w Hw), (tr_factor_ratio sh h Hh).
    destruct (Rgt_dec (Rabs theta) epsilon) as [Hgt | _]; [lra |].
    eexists. split; [reflexivity |].
    assert (Hp : forall x y,
      transform_point (scale identity (IZR sw / IZR w) (IZR sh / IZR h)) (x, y)
      = (IZR sw / IZR w * x, IZR sh / IZR h * y)).
    { intros x y. rewrite transform_scale. reflexivity. }
    split; [exact Hp |].
    rewrite Hp. f_equal; field; apply not_0_IZR; assumption.
  - intros Hsw. unfold get_cairo_pattern, tr_factor.
    destruct (Z.eqb_spec 0 sw) as [<- | _]; [contradiction | reflexivity].
  - intros Hsh. unfold get_cairo_pattern.
    destruct (tr_factor sw (Some w)); [| reflexivity].
    unfold tr_factor.
    destruct (Z.eqb_spec 0 sh) as [<- | _]; [contradiction | reflexivity].
Qed.

Lemma get_cairo_pattern_unrotated_witness :
  Rabs 0 <= epsilon /\ 200%Z <> 0%Z /\ 50%Z <> 0%Z /\
  exists m, get_cairo_pattern 100 50 (Some 200%Z) (Some 50%Z) 0 = Some m /\
    transform_point m (IZR 200, IZR 50) = (IZR 100, IZR 50).
Proof.
  assert (H0 : Rabs 0 <= epsilon).
  { rewrite Rabs_R0. unfold epsilon. lra. }
  split; [exact H0 |]. split; [discriminate |]. split; [discriminate |].
  destruct (get_cairo_pattern_unrotated 100 50 200 50 0 H0) as (H1 & _).
  destruct H1 as (m & Hm & _ & Hc); [discriminate | discriminate |].
  exists m. split; [exact Hm | exact Hc].
Defined.

(** On a surface that has the target size already, an angle above the
    threshold gives the rotation by that angle (in radians, [pi / 180]
    times theta) about the centre of the image: the matrix sends a point
    to the centre plus its offset from the centre turned by the angle.
    So the centre stays where it is and every point keeps its distance to
    it. *)
Theorem get_cairo_pattern_turns_about_centre w h theta :
  Rabs theta > epsilon ->
  exists m, get_cairo_pattern w h (Some w) (Some h) theta = Some m /\
    (forall x y,
       transform_point m (x, y)
       = (IZR w / 2 + (cos (pi / 180 * theta) * (x - IZR w / 2)
                       - sin (pi / 180 * theta) * (y - IZR h / 2)),
          IZR h / 2 + (sin (pi / 180 * theta) * (x - IZR w / 2)
                       + cos (pi / 180 * theta) * (y - IZR h / 2)))) /\
    transform_point m (IZR w / 2, IZR h / 2) = (IZR w / 2, IZR h / 2) /\
    forall x y,
      (fst (transform_point m (x, y)) - IZR w / 2) ^ 2
      + (snd (transform_point m (x, y)) - IZR h / 2) ^ 2
      = (x - IZR w / 2) ^ 2 + (y - IZR h / 2) ^ 2.
Proof.
  intros Hth.
  destruct (get_cairo_pattern_same_size w h theta Hth) as (m & Hm & Hp).
  exists m. split; [exact Hm |]. split; [| split].
  - intros x y. rewrite Hp. reflexivity.
  - rewrite Hp. unfold rotate_about. simpl. f_equal; ring.
  - intros x y. rewrite Hp. unfold rotate_about. simpl.
    pose proof (sin2_cos2 (pi / 180 * theta)) as Hsc. unfold Rsqr in Hsc.
    set (c := cos (pi / 180 * theta)) in *.
    set (s := sin (pi / 180 * theta)) in *.
    transitivity ((s * s + c * c) * ((x - IZR w / 2) ^ 2 + (y - IZR h / 2) ^ 2));
      [ring | rewrite Hsc; ring].
Qed.

Lemma get_cairo_pattern_turns_about_centre_witness :
  Rabs 180 > epsilon /\
  exists m, get_cairo_pattern 200 100 (Some 200%Z) (Some 100%Z) 180 = Some m /\
    transform_point m (IZR 200 / 2, IZR 100 / 2) = (IZR 200 / 2, IZR 100 / 2) /\
    transform_point m (IZR 200, IZR 100)
    = (IZR 200 / 2 + (cos (pi / 180 * 180) * (IZR 200 - IZR 200 / 2)
                      - sin (pi / 180 * 180) * (IZR 100 - IZR 100 / 2)),
       IZR 100 / 2 + (sin (pi / 180 * 180) * (IZR 200 - IZR 200 / 2)
                      + cos (pi / 180 * 180) * (IZR 100 - IZR 100 / 2))).
Proof.
  split; [exact half_turn_above_threshold |].
  destruct (get_cairo_pattern_turns_about_centre 200 100 180 half_turn_above_threshold)
    as (m & Hm & Hr & Hc & _).
  exists m. split; [exact Hm |]. split; [exact Hc | apply Hr].
Defined.

End CairoFrames.

(* ===================================================================== *)
(** ** The image handle: cached reads and surfaces in use                  *)
(* ===================================================================== *)

Section ImageSurfaces.
Import Py Images.

Variable decode : list Byte.byte -> option Z -> option Z -> Decoded.

Lemma surface_read_caches st s st' :
  surface decode st = (Ok s, st') -> _surface (img st') = Some s.
Proof.
  unfold surface, bind, get_img, ret, modify_img.
  destruct (_surface (img st)) as [s0 |] eqn:E; [intros [= <- <-]; exact E |].
  destruct (width decode st) as [[w | e] st1]; [| discriminate].
  destruct (height decode st1) as [[h | e] st2]; [| discriminate].
  destruct (get_cairo_surface decode (bytes_img (img st)) (Some w) (Some h) st2)
    as [[s1 | e] st3]; [| discriminate].
  intros [= <- <-]. reflexivity.
Qed.

Lemma pattern_cached st p :
  _pattern (img st) = Some p -> pattern decode st = (Ok p, st).
Proof.
  intros E. unfold pattern, bind, get_img, ret. rewrite E. reflexivity.
Qed.

Lemma pattern_read_caches st p st' :
  pattern decode st = (Ok p, st') -> _pattern (img st') = Some p.
Proof.
  unfold pattern, bind, get_img, ret, modify_img.
  destruct (_pattern (img st)) as [p0 |] eqn:E; [intros [= <- <-]; exact E |].
  destruct (surface decode st) as [[surf | e] st1]; [| discriminate].
  destruct (width decode st1) as [[w | e] st2]; [| discriminate].
  destruct (height decode st2) as [[h | e] st3]; [| discriminate].
  destruct (theta st3) as [[t | e] st4]; [| discriminate].
  destruct (get_cairo_pattern surf w h t st4) as [[p1 | e] st5]; [| discriminate].
  intros [= <- <-]. reflexivity.
Qed.

(** A surface or a pattern that was read is cached: reading it again
    gives the same object and leaves the state, the calls made to the
    decoder included, as it is. *)
Theorem reads_are_cached st :
  (forall s st', surface decode st = (Ok s, st') ->
     surface decode st' = (Ok s, st')) /\
  (forall p st', pattern decode st = (Ok p, st') ->
     pattern decode st' = (Ok p, st')).
Proof.
  split.
  - intros s st' H. apply surface_cached. eapply surface_read_caches. exact H.
  - intros p st' H. apply pattern_cached. eapply pattern_read_caches. exact H.
Qed.

Lemma Live_step st st' :
  Live st -> finished st' = finished st -> next_id st <= next_id st' ->
  (forall s, _surface (img st') = Some s ->
     _surface (img st) = Some s \/ (next_id st <= surf_id s /\ surf_id s < next_id st')) ->
  (forall p, _pattern (img st') = Some p ->
     _pattern (img st) = Some p \/ _surface (img st') = Some (pat_surface p)) ->
  Live st'.
Proof.
  intros (L1 & L2 & L3) Hf Hn Hs Hp.
  assert (L2' : forall s, _surface (img st') = Some s ->
            (surf_id s ∉ finished st') /\ surf_id s < next_id st').
  { intros s Es. rewrite Hf. destruct (Hs s Es) as [E | (Hlo & Hhi)].
    - destruct (L2 s E). split; [assumption | lia].
    - split; [| exact Hhi]. intros Hin. apply L1 in Hin. lia. }
  split; [| split; [exact L2' |]].
  - intros i Hi. rewrite Hf in Hi. apply L1 in Hi. lia.
  - intros p Ep. destruct (Hp p Ep) as [E | E].
    + rewrite Hf. destruct (L3 p E). split; [assumption | lia].
    + apply L2'. exact E.
Qed.

Lemma Live_Quiet st st' : Quiet st st' -> Live st -> Live st'.
Proof.
  intros (M & S & P & F) L. apply (Live_step st); auto.
  - apply M.
  - intros s Es. left. congruence.
  - intros p Ep. left. congruence.
Qed.

Lemma surface_Live st r st' :
  defaults_ok decode st -> Live st -> surface decode st = (r, st') -> Live st'.
Proof.
  intros Hd L G. apply surface_spec in G. destruct G as (M & P & F & R).
  destruct (R Hd) as (_ & Hr). apply (Live_step st); auto.
  - apply M.
  - intros s Es. destruct r as [s1 | e].
    + destruct Hr as (Es1 & [(E0 & ->) | (_ & _ & Hlo & Hhi)]); [auto |].
      right. assert (s = s1) as -> by congruence. auto.
    + destruct Hr as (_ & E). left. congruence.
  - intros p Ep. left. congruence.
Qed.

Lemma pattern_Live st r st' :
  defaults_ok decode st -> Live st -> pattern decode st = (r, st') -> Live st'.
Proof.
  intros Hd L. unfold pattern, bind, get_img, ret, modify_img.
  destruct (_pattern (img st)) as [p0 |] eqn:E; [intros [= <- <-]; exact L |].
  destruct (surface decode st) as [rs st1] eqn:G1.
  pose proof (surface_Live _ _ _ Hd L G1) as L1.
  pose proof G1 as G1'. apply surface_spec in G1'. destruct G1' as (_ & _ & _ & R1).
  destruct (R1 Hd) as (Hd1 & _).
  destruct rs as [surf | e]; [| intros [= <- <-]; exact L1].
  apply surface_read_caches in G1.
  destruct (width decode st1) as [[w | e] st2] eqn:G2;
    apply width_spec in G2; destruct G2 as (Q2 & R2);
    pose proof (Live_Quiet _ _ Q2 L1) as L2;
    [| intros [= <- <-]; exact L2].
  destruct (R2 Hd1) as (Hd2 & _).
  destruct (height decode st2) as [[h | e] st3] eqn:G3;
    apply height_spec in G3; destruct G3 as (Q3 & R3);
    pose proof (Live_Quiet _ _ Q3 L2) as L3;
    [| intros [= <- <-]; exact L3].
  rewrite theta_spec.
  destruct (get_cairo_pattern surf w h (current_theta st3) st3) as [[p | e] st4] eqn:G4;
    apply get_cairo_pattern_spec in G4; destruct G4 as (Hi & Hf & Hr);
    intros [= <- <-].
  - destruct Hr as (-> & Hn).
    apply (Live_step st3); simpl; auto.
    + lia.
    + intros s Es. left. congruence.
    + intros p Ep. right. injection Ep as <-. simpl. rewrite Hi.
      destruct Q2 as (_ & S2 & _). destruct Q3 as (_ & S3 & _). congruence.
  - destruct Hr as (_ & -> & _). exact L3.
Qed.

Lemma reset_surface_Live st r st' :
  defaults_ok decode st -> Live st -> reset_surface decode st = (r, st') ->
  defaults_ok decode st' /\
  (forall i, i ∈ finished st' -> i < next_id st') /\
  match r with
  | Ok _ => _surface (img st') = None
  | Raise _ => Live st'
  end.
Proof.
  intros Hd L G.
  pose proof G as G'. apply reset_surface_spec in G'. destruct G' as (_ & _ & R).
  destruct (R Hd) as (Hd' & _). split; [exact Hd' |].
  revert G. unfold reset_surface, bind, hasattr.
  destruct (surface decode st) as [[s | e] st1] eqn:G1.
  - pose proof (surface_Live _ _ _ Hd L G1) as L1.
    apply surface_read_caches in G1.
    rewrite (surface_cached decode _ _ G1).
    unfold finish, del_surface, modify_img. intros [= <- <-]. simpl.
    split; [| reflexivity].
    destruct L1 as (F1 & S1 & _). destruct (S1 s G1) as (_ & Hid).
    intros i Hi. apply elem_of_cons in Hi. destruct Hi as [-> | Hi]; auto.
  - pose proof (surface_Live _ _ _ Hd L G1) as L1.
    apply surface_spec in G1. destruct G1 as (_ & _ & _ & R1).
    destruct (R1 Hd) as (_ & Hna & _).
    destruct e; try contradiction; intros [= <- <-];
      (split; [apply L1 | exact L1]).
Qed.

Lemma reset_pattern_Live st r st' :
  defaults_ok decode st ->
  (forall i, i ∈ finished st -> i < next_id st) ->
  _surface (img st) = None ->
  reset_pattern decode st = (r, st') -> Live st'.
Proof.
  intros Hd F Es. unfold reset_pattern, bind, hasattr.
  destruct (_pattern (img st)) as [p |] eqn:Ep.
  - rewrite (pattern_cached _ _ Ep). unfold del_pattern, modify_img.
    intros [= <- <-]. split; [exact F |]. split; simpl.
    + intros s Hs. congruence.
    + intros p0 Hp. discriminate.
  - assert (L : Live st).
    { split; [exact F |]. split; [intros s Hs | intros p Hp]; congruence. }
    destruct (pattern decode st) as [[p | e] st1] eqn:G1.
    + pose proof (pattern_Live _ _ _ Hd L G1) as (F1 & S1 & _).
      unfold del_pattern, modify_img. intros [= <- <-].
      split; [exact F1 |]. split; [exact S1 |]. intros p0 Hp. discriminate.
    + pose proof (pattern_Live _ _ _ Hd L G1) as L1.
      apply pattern_spec in G1. destruct G1 as (_ & _ & R1).
      destruct (R1 Hd) as (_ & _ & _ & Hna & _).
      destruct e; try contradiction; intros [= <- <-]; exact L1.
Qed.

Lemma _reset_Live st r st' :
  defaults_ok decode st -> Live st -> _reset decode st = (r, st') -> Live st'.
Proof.
  intros Hd L. unfold _reset, bind.
  destruct (reset_surface decode st) as [[[] | e] st1] eqn:G1;
    apply (reset_surface_Live _ _ _ Hd L) in G1; destruct G1 as (Hd1 & F1 & H1).
  - apply reset_pattern_Live; assumption.
  - intros [= <- <-]. exact H1.
Qed.

Lemma preserves_bind (P : State -> Prop) {A B} (m : M A) (k : A -> M B) :
  preserves P m -> (forall a, preserves P (k a)) -> preserves P (bind m k).
Proof.
  intros Hm Hk st HP. unfold bind. specialize (Hm st HP).
  destruct (m st) as [[a | e] st1]; simpl in *; [apply Hk; exact Hm | exact Hm].
Qed.

Lemma preserves_void (P : State -> Prop) {A} (m : M A) :
  preserves P m -> preserves P (void m).
Proof.
  intros Hm. apply preserves_bind; [exact Hm |]. intros a st HP. exact HP.
Qed.

(** The two facts that every operation keeps together. *)
Lemma sound_default_size :
  preserves (fun st => defaults_ok decode st /\ Live st) (default_size decode).
Proof.
  intros st (Hd & L). split; [apply (default_size_Keeps decode st), Hd |].
  destruct (default_size decode st) as [r st'] eqn:G.
  apply default_size_spec in G. destruct G as (Q & _).
  exact (Live_Quiet _ _ Q L).
Qed.

Lemma sound_width :
  preserves (fun st => defaults_ok decode st /\ Live st) (width decode).
Proof.
  intros st (Hd & L). split; [apply (width_Keeps decode st), Hd |].
  destruct (width decode st) as [r st'] eqn:G.
  apply width_spec in G. destruct G as (Q & _).
  exact (Live_Quiet _ _ Q L).
Qed.

Lemma sound_height :
  preserves (fun st => defaults_ok decode st /\ Live st) (height decode).
Proof.
  intros st (Hd & L). split; [apply (height_Keeps decode st), Hd |].
  destruct (height decode st) as [r st'] eqn:G.
  apply height_spec in G. destruct G as (Q & _).
  exact (Live_Quiet _ _ Q L).
Qed.

Lemma sound_surface :
  preserves (fun st => defaults_ok decode st /\ Live st) (surface decode).
Proof.
  intros st (Hd & L). split; [apply (surface_Keeps decode st), Hd |].
  destruct (surface decode st) as [r st'] eqn:G.
  exact (surface_Live _ _ _ Hd L G).
Qed.

Lemma sound_pattern :
  preserves (fun st => defaults_ok decode st /\ Live st) (pattern decode).
Proof.
  intros st (Hd & L). split; [apply (pattern_Keeps decode st), Hd |].
  destruct (pattern decode st) as [r st'] eqn:G.
  exact (pattern_Live _ _ _ Hd L G).
Qed.

Lemma sound__reset :
  preserves (fun st => defaults_ok decode st /\ Live st) (_reset decode).
Proof.
  intros st (Hd & L). split; [apply (_reset_Keeps decode st), Hd |].
  destruct (_reset decode st) as [r st'] eqn:G.
  exact (_reset_Live _ _ _ Hd L G).
Qed.

(** A change of the attributes that are no cache and no memo. *)
Lemma sound_attrs f :
  (forall i, bytes_img (f i) = bytes_img i) ->
  (forall i, _default_surface (f i) = _default_surface i) ->
  (forall i, _default_size (f i) = _default_size i) ->
  (forall i, _surface (f i) = _surface i \/ _surface (f i) = None) ->
  (forall i, _pattern (f i) = _pattern i \/ _pattern (f i) = None) ->
  preserves (fun st => defaults_ok decode st /\ Live st) (modify_img f).
Proof.
  intros Hb Hs Hz Hc Hp st (Hd & (L1 & L2 & L3)). unfold modify_img. simpl. split.
  - apply (defaults_ok_frame decode st); simpl; auto.
  - split; [exact L1 |]. split; simpl.
    + intros s Es. destruct (Hc (img st)) as [E | E]; rewrite E in Es;
        [auto | discriminate].
    + intros p Ep. destruct (Hp (img st)) as [E | E]; rewrite E in Ep;
        [auto | discriminate].
Qed.

Lemma sound_set_width v :
  preserves (fun st => defaults_ok decode st /\ Live st) (set_width decode v).
Proof.
  unfold set_width. apply preserves_bind; [apply sound_attrs; auto |].
  intros _. apply sound__reset.
Qed.

Lemma sound_set_height v :
  preserves (fun st => defaults_ok decode st /\ Live st) (set_height decode v).
Proof.
  unfold set_height. apply preserves_bind; [apply sound_attrs; auto |].
  intros _. apply sound__reset.
Qed.

Lemma sound_set_theta v :
  preserves (fun st => defaults_ok decode st /\ Live st) (set_theta decode v).
Proof.
  unfold set_theta. apply preserves_bind; [intros st H; exact H |]. intros t.
  apply preserves_bind; [apply sound_attrs; auto |].
  intros _. apply sound__reset.
Qed.

Lemma sound_set_computed set c :
  (forall v, preserves (fun st => defaults_ok decode st /\ Live st) (set v)) ->
  preserves (fun st => defaults_ok decode st /\ Live st) (set_computed set c).
Proof.
  intros H. destruct c; simpl; [apply H | |]; intros st G; exact G.
Qed.

Lemma sound_scale wf hf lock :
  preserves (fun st => defaults_ok decode st /\ Live st) (scale decode wf hf lock).
Proof.
  unfold scale.
  destruct (negb (truthy_opt wf || truthy_opt hf)); [intros st H; exact H |].
  apply preserves_bind; [apply sound_default_size |]. intros size.
  apply preserves_bind; [intros st H; exact H |]. intros res.
  apply preserves_bind; [apply sound_set_computed, sound_set_width |]. intros _.
  apply sound_set_computed, sound_set_height.
Qed.

Lemma sound_resize w h :
  preserves (fun st => defaults_ok decode st /\ Live st) (resize decode w h).
Proof.
  unfold resize.
  apply preserves_bind; [apply sound_default_size |]. intros [width0 height0].
  apply preserves_bind.
  { destruct w; [| intros st H; exact H].
    apply preserves_bind; intros; intros st H; exact H. }
  intros width_factor. apply preserves_bind.
  { destruct h; [| intros st H; exact H].
    apply preserves_bind; intros; intros st H; exact H. }
  intros height_factor.
  destruct (truthy_opt w && truthy_opt h); [apply sound_scale |].
  destruct (truthy_opt w || truthy_opt h); [apply sound_scale |].
  intros st H; exact H.
Qed.

Lemma sound_run_op o :
  preserves (fun st => defaults_ok decode st /\ Live st) (run_op decode o).
Proof.
  destruct o; simpl.
  - apply preserves_void, sound_default_size.
  - apply preserves_void, sound_width.
  - apply preserves_void, sound_height.
  - apply preserves_void. intros st H. rewrite theta_spec. exact H.
  - apply sound_set_width.
  - apply sound_set_height.
  - apply sound_set_theta.
  - unfold del_width. apply preserves_bind; [intros st H; exact H |]. intros i.
    destruct (_width i); [apply sound_attrs; auto | intros st H; exact H].
  - unfold del_height. apply preserves_bind; [intros st H; exact H |]. intros i.
    destruct (_height i); [apply sound_attrs; auto | intros st H; exact H].
  - unfold del_theta. apply preserves_bind; [intros st H; exact H |]. intros i.
    destruct (_theta i); [apply sound_attrs; auto | intros st H; exact H].
  - apply preserves_void, sound_surface.
  - apply sound_attrs; auto.
  - apply preserves_void, sound_pattern.
  - apply sound_attrs; auto.
  - apply sound_resize.
  - apply sound_scale.
Qed.

Lemma sound_exec ops st :
  defaults_ok decode st /\ Live st ->
  defaults_ok decode (exec decode ops st) /\ Live (exec decode ops st).
Proof.
  revert st. induction ops as [| o ops IH]; intros st H; simpl; [exact H |].
  apply IH. apply (sound_run_op o st H).
Qed.

(** Whatever was done with the handle, operations that raised and
    deletions of attributes included, the surface that a read returns was
    not finished, nor was the surface under the pattern that a read
    returns. *)
Theorem no_finished_surface_is_handed_out bytes nm pth ops :
  let st := exec decode ops (initial (Img_init bytes nm pth)) in
  (forall s st', surface decode st = (Ok s, st') -> surf_id s ∉ finished st') /\
  (forall p st', pattern decode st = (Ok p, st') ->
     surf_id (pat_surface p) ∉ finished st').
Proof.
  intros st.
  assert (H0 : defaults_ok decode (initial (Img_init bytes nm pth)) /\
               Live (initial (Img_init bytes nm pth))).
  { split; [apply (Inv_initial decode bytes nm pth) |].
    split; [| split]; simpl.
    - intros i Hi. apply not_elem_of_nil in Hi. contradiction.
    - intros s Hs. discriminate.
    - intros p Hp. discriminate. }
  destruct (sound_exec ops _ H0) as (Hd & L). fold st in Hd, L.
  split.
  - intros s st' G. pose proof (surface_Live _ _ _ Hd L G) as (_ & L2 & _).
    apply L2. eapply surface_read_caches. exact G.
  - intros p st' G. pose proof (pattern_Live _ _ _ Hd L G) as (_ & _ & L3).
    apply L3. eapply pattern_read_caches. exact G.
Qed.

End ImageSurfaces.

(* ===================================================================== *)
(** ** The image handle: the matrix of its pattern                         *)
(* ===================================================================== *)

Section ImagePatterns.
Import Py Images.
Local Open Scope R_scope.

Variable decode : list Byte.byte -> option Z -> option Z -> Decoded.





End ImagePatterns.

(* ===================================================================== *)
(** ** The image handle: attributes deleted, sizes requested               *)
(* ===================================================================== *)

Section ImageSizes.
Import Py Images.

Variable decode : list Byte.byte -> option Z -> option Z -> Decoded.


Lemma truthy_Int_nonzero z : z <> 0%Z -> truthy (Int z) = true.
Proof. intros H. apply negb_true_iff, Z.eqb_neq. exact H. Qed.

(** [resize] with a width and a height that are non-zero integers of at
    most 2^50, on an image whose natural sides are positive and below
    2^53: when it returns, the width and the height of the image are the
    requested ones (at least 1), whatever they were before.  The factor
    is a double quotient and the product a double product: the two
    roundings do not move the product off the requested integer. *)
Theorem resize_to_requested_size st st' w h w0 h0 :
  fst (default_size decode st) = Ok (w0, h0) ->
  (0 < w0 < 2 ^ 53)%Z -> (0 < h0 < 2 ^ 53)%Z ->
  w <> 0%Z -> h <> 0%Z -> (Z.abs w <= 2 ^ 50)%Z -> (Z.abs h <= 2 ^ 50)%Z ->
  resize decode (Some (Int w)) (Some (Int h)) st = (Ok tt, st') ->
  _width (img st') = Some (Z.max w 1) /\ _height (img st') = Some (Z.max h 1).
Proof.
  intros Hsz Hw0 Hh0 Hw Hh Bw Bh. unfold resize, bind.
  destruct (default_size decode st) as [[[a b] | e] st1] eqn:G1; [| discriminate].
  simpl in Hsz. injection Hsz as -> ->.
  apply default_size_sets_memo in G1.
  destruct (div_mul_back w w0 Hw0 Hw Bw) as (fw & pw & Ew & _ & Tw & Mw & _ & Rw).
  destruct (div_mul_back h h0 Hh0 Hh Bh) as (fh & ph & Eh & _ & Th & Mh & _ & Rh).
  unfold lift, ret. rewrite Ew, Eh.
  cbn [truthy_opt]. rewrite (truthy_Int_nonzero w Hw), (truthy_Int_nonzero h Hh).
  cbn [andb]. intros G.
  apply scale_stored in G. destruct G as (_ & sz & vw & vh & Hd & Hres & Sw & Sh & _).
  rewrite (default_size_memoized decode _ _ G1) in Hd. simpl in Hd.
  injection Hd as <-. unfold _scale_free in Hres. rewrite Mw, Mh in Hres.
  injection Hres as <- <-. rewrite Rw in Sw. rewrite Rh in Sh.
  split; assumption.
Qed.

(** The side that is given alone, [x] on the natural length [a0], and
    the other side, of the natural length [b0]. *)
Lemma _scale_lock_one_side a0 b0 x :
  (0 < a0 < 2 ^ 53)%Z -> (0 < b0 < 2 ^ 53)%Z -> x <> 0%Z -> (Z.abs x <= 2 ^ 50)%Z ->
  exists f o,
    truediv (Int x) a0 = Ok (Float f) /\
    within o (inject_Z b0 * inject_Z x / inject_Z a0) (6 * roundoff) /\
    (forall p q, _scale_lock (Some (Float f)) None (a0, b0) = Ok (Fin p, Fin q) ->
       round p = x /\ q = Float o) /\
    (forall p q, _scale_lock None (Some (Float f)) (b0, a0) = Ok (Fin q, Fin p) ->
       round p = x /\ q = Float o).
Proof.
  intros Ha0 Hb0 Hx Bx.
  destruct (lock_one_side a0 b0 x Ha0 Hb0 Hx Bx)
    as (f & p & r & o & E1 & Tf & E2 & Rd & E3 & E4 & W).
  exists f, o. split; [exact E1 |]. split; [exact W |].
  unfold _scale_lock. cbn [truthy_opt andb]. rewrite Tf, andb_false_r.
  rewrite E2, E3, E4.
  split; intros p' q' [= <- <-]; split; auto.
Qed.

Lemma within_integer o h :
  (Z.abs h <= 2 ^ 49)%Z -> within o (inject_Z h) (6 * roundoff) ->
  round_half_even o = h.
Proof.
  intros Bh W. apply round_half_even_unique. unfold within in W.
  eapply Qle_lt_trans; [exact W |].
  assert (X : (Qabs (inject_Z h) <= pow2 49)%Q).
  { rewrite Qabs_inject_Z, pow2_Z by lia. rewrite <- Zle_Qle. lia. }
  assert (P49 : (pow2 49 == 562949953421312)%Q) by reflexivity.
  pose proof roundoff_value as Ev.
  set (ah := Qabs (inject_Z h)) in *. set (p49 := pow2 49) in *. nra.
Qed.

Lemma resize_width_only st st' w w0 h0 :
  fst (default_size decode st) = Ok (w0, h0) ->
  (0 < w0 < 2 ^ 53)%Z -> (0 < h0 < 2 ^ 53)%Z -> w <> 0%Z -> (Z.abs w <= 2 ^ 50)%Z ->
  resize decode (Some (Int w)) None st = (Ok tt, st') ->
  _width (img st') = Some (Z.max w 1) /\
  (exists o, _height (img st') = Some (Z.max (round_half_even o) 1) /\
     within o (inject_Z h0 * inject_Z w / inject_Z w0) (6 * roundoff)) /\
  (forall h, (h0 * w = h * w0)%Z -> (Z.abs h <= 2 ^ 49)%Z ->
     _height (img st') = Some (Z.max h 1)).
Proof.
  intros Hsz Hw0 Hh0 Hw Bw. unfold resize, bind.
  destruct (default_size decode st) as [[[a b] | e] st1] eqn:G1; [| discriminate].
  simpl in Hsz. injection Hsz as -> ->.
  apply default_size_sets_memo in G1.
  destruct (_scale_lock_one_side w0 h0 w Hw0 Hh0 Hw Bw) as (f & o & E & W & L & _).
  unfold lift, ret. rewrite E.
  cbn [truthy_opt]. rewrite (truthy_Int_nonzero w Hw).
  cbn [andb orb]. intros G.
  apply scale_stored in G. destruct G as (_ & sz & vw & vh & Hd & Hres & Sw & Sh & _).
  rewrite (default_size_memoized decode _ _ G1) in Hd. simpl in Hd.
  injection Hd as <-.
  destruct (L vw vh Hres) as [Rw ->]. rewrite Rw in Sw. cbn [round] in Sh.
  split; [exact Sw |]. split; [exists o; split; [exact Sh | exact W] |].
  intros h Hh Bh. rewrite Sh. do 2 f_equal.
  apply within_integer; [exact Bh |].
  apply (within_comp o (inject_Z h0 * inject_Z w / inject_Z w0));
    [reflexivity | | exact W].
  assert (H0 : ~ (inject_Z w0 == 0)%Q).
  { intros H0. apply (inject_Z_injective w0 0) in H0. lia. }
  rewrite <- inject_Z_mult, Hh, inject_Z_mult. field. exact H0.
Qed.

Lemma resize_height_only st st' h w0 h0 :
  fst (default_size decode st) = Ok (w0, h0) ->
  (0 < w0 < 2 ^ 53)%Z -> (0 < h0 < 2 ^ 53)%Z -> h <> 0%Z -> (Z.abs h <= 2 ^ 50)%Z ->
  resize decode None (Some (Int h)) st = (Ok tt, st') ->
  _height (img st') = Some (Z.max h 1) /\
  (exists o, _width (img st') = Some (Z.max (round_half_even o) 1) /\
     within o (inject_Z w0 * inject_Z h / inject_Z h0) (6 * roundoff)) /\
  (forall w, (w0 * h = w * h0)%Z -> (Z.abs w <= 2 ^ 49)%Z ->
     _width (img st') = Some (Z.max w 1)).
Proof.
  intros Hsz Hw0 Hh0 Hh Bh. unfold resize, bind.
  destruct (default_size decode st) as [[[a b] | e] st1] eqn:G1; [| discriminate].
  simpl in Hsz. injection Hsz as -> ->.
  apply default_size_sets_memo in G1.
  destruct (_scale_lock_one_side h0 w0 h Hh0 Hw0 Hh Bh) as (f & o & E & W & _ & L).
  unfold lift, ret. rewrite E.
  cbn [truthy_opt]. rewrite (truthy_Int_nonzero h Hh).
  cbn [andb orb]. intros G.
  apply scale_stored in G. destruct G as (_ & sz & vw & vh & Hd & Hres & Sw & Sh & _).
  rewrite (default_size_memoized decode _ _ G1) in Hd. simpl in Hd.
  injection Hd as <-.
  destruct (L vh vw Hres) as [Rh ->]. rewrite Rh in Sh. cbn [round] in Sw.
  split; [exact Sh |]. split; [exists o; split; [exact Sw | exact W] |].
  intros w Hw Bw. rewrite Sw. do 2 f_equal.
  apply within_integer; [exact Bw |].
  apply (within_comp o (inject_Z w0 * inject_Z h / inject_Z h0));
    [reflexivity | | exact W].
  assert (H0 : ~ (inject_Z h0 == 0)%Q).
  { intros H0. apply (inject_Z_injective h0 0) in H0. lia. }
  rewrite <- inject_Z_mult, Hw, inject_Z_mult. field. exact H0.
Qed.

(** [resize] with one side alone, a non-zero integer of at most 2^50, on
    an image whose natural sides are positive and below 2^53, keeps the
    aspect ratio: when it returns, that side is the requested one and the
    other side is the rounding of a double that is its natural length
    times the requested over the natural length of the given side, up to
    the relative error 6 * 2^-53 of the three double operations of
    [_scale_lock] and the division of [resize] (both sides at least 1);
    it is that quotient itself when the division leaves no remainder and
    the quotient is at most 2^49. *)
Theorem resize_one_side_keeps_aspect_ratio st w0 h0 :
  fst (default_size decode st) = Ok (w0, h0) ->
  (0 < w0 < 2 ^ 53)%Z -> (0 < h0 < 2 ^ 53)%Z ->
  (forall w st', w <> 0%Z -> (Z.abs w <= 2 ^ 50)%Z ->
     resize decode (Some (Int w)) None st = (Ok tt, st') ->
     _width (img st') = Some (Z.max w 1) /\
     (exists o, _height (img st') = Some (Z.max (round_half_even o) 1) /\
        within o (inject_Z h0 * inject_Z w / inject_Z w0) (6 * roundoff)) /\
     (forall h, (h0 * w = h * w0)%Z -> (Z.abs h <= 2 ^ 49)%Z ->
        _height (img st') = Some (Z.max h 1))) /\
  (forall h st', h <> 0%Z -> (Z.abs h <= 2 ^ 50)%Z ->
     resize decode None (Some (Int h)) st = (Ok tt, st') ->
     _height (img st') = Some (Z.max h 1) /\
     (exists o, _width (img st') = Some (Z.max (round_half_even o) 1) /\
        within o (inject_Z w0 * inject_Z h / inject_Z h0) (6 * roundoff)) /\
     (forall w, (w0 * h = w * h0)%Z -> (Z.abs w <= 2 ^ 49)%Z ->
        _width (img st') = Some (Z.max w 1))).
Proof.
  intros Hsz Hw0 Hh0. split.
  - intros w st' Hw Bw G. exact (resize_width_only st st' w w0 h0 Hsz Hw0 Hh0 Hw Bw G).
  - intros h st' Hh Bh G. exact (resize_height_only st st' h w0 h0 Hsz Hw0 Hh0 Hh Bh G).
Qed.

(** [scale] starts from the natural size, not from the size the image
    has: the same scale applied again, whatever was done to the image in
    between, leaves the same width and height.  Scales do not compound. *)
Theorem scale_does_not_compound wf hf lock ops st st1 st2 :
  scale decode wf hf lock st = (Ok tt, st1) ->
  scale decode wf hf lock (exec decode ops st1) = (Ok tt, st2) ->
  _width (img st2) = _width (img st1) /\ _height (img st2) = _height (img st1).
Proof.
  intros G1 G2.
  apply scale_stored in G1.
  destruct G1 as (_ & sz & vw & vh & _ & Hres & Ew & Eh & Em).
  apply scale_stored in G2.
  destruct G2 as (_ & sz' & vw' & vh' & Hd' & Hres' & Ew' & Eh' & _).
  pose proof (keeps_default_size _ _ _ (exec_Keeps decode ops st1) _ Em) as Em'.
  rewrite (default_size_memoized decode _ _ Em') in Hd'. simpl in Hd'.
  injection Hd' as <-. rewrite Hres in Hres'. injection Hres' as <- <-.
  split; congruence.
Qed.

End ImageSizes.

(* ===================================================================== *)
(** ** The image handle: equality                                          *)
(* ===================================================================== *)

Section ImageEquality.
Import Py Images.

Variable decode : list Byte.byte -> option Z -> option Z -> Decoded.

Lemma bytes_eqb_eq a b : bytes_eqb a b = true <-> a = b.
Proof.
  revert b. induction a as [| x a IH]; intros [| y b]; simpl;
    split; try congruence; try discriminate.
  - intros H. apply andb_true_iff in H. destruct H as [H1 H2].
    apply Byte.byte_dec_bl in H1. apply IH in H2. congruence.
  - intros [= -> ->]. apply andb_true_iff.
    split; [apply Byte.byte_dec_lb; reflexivity | apply IH; reflexivity].
Qed.

Lemma tuple_eqb_true b0 t0 w0 h0 b1 t1 w1 h1 :
  tuple_eqb (b0, t0, w0, h0) (b1, t1, w1, h1) = true <->
  b0 = b1 /\ t0 == t1 /\ w0 = w1 /\ h0 = h1.
Proof.
  unfold tuple_eqb. rewrite !andb_true_iff, bytes_eqb_eq, Qeq_bool_iff, !Z.eqb_eq.
  tauto.
Qed.

Lemma compared_spec st r st' :
  compared decode st = (r, st') ->
  Quiet st st' /\
  (defaults_ok decode st ->
   defaults_ok decode st' /\
   match r with
   | Ok s => exists w h,
       current_width decode st = Some w /\ current_height decode st = Some h /\
       s = (bytes_img (img st), current_theta st, w, h)
   | Raise e => current_width decode st = None \/ current_height decode st = None
   end).
Proof.
  unfold compared, bind, get_img. rewrite theta_spec.
  destruct (width decode st) as [[w | e] st1] eqn:G1;
    apply width_spec in G1; destruct G1 as (Q1 & R1).
  - destruct (height decode st1) as [[h | e] st2] eqn:G2;
      apply height_spec in G2; destruct G2 as (Q2 & R2);
      intros [= <- <-]; (split; [eapply Quiet_trans; eassumption |]);
      intros Hd; destruct (R1 Hd) as (Hd1 & Hw); destruct (R2 Hd1) as (Hd2 & Hh);
      (split; [exact Hd2 |]);
      rewrite (Memo_current_height decode _ _ (Quiet_Memo _ _ Q1)) in Hh.
    + exists w, h. auto.
    + right. apply Hh.
  - intros [= <- <-]. split; [exact Q1 |]. intros Hd.
    destruct (R1 Hd) as (Hd1 & Hw). split; [exact Hd1 |]. left. apply Hw.
Qed.

Lemma compared_returns st w h :
  defaults_ok decode st ->
  current_width decode st = Some w -> current_height decode st = Some h ->
  exists st', compared decode st
              = (Ok (bytes_img (img st), current_theta st, w, h), st').
Proof.
  intros Hd Hw Hh. destruct (compared decode st) as [r st'] eqn:G.
  pose proof G as G'. apply compared_spec in G'. destruct G' as (_ & R).
  destruct (R Hd) as (_ & Hr). destruct r as [s | e].
  - destruct Hr as (w' & h' & Hw' & Hh' & ->). exists st'.
    rewrite Hw in Hw'. rewrite Hh in Hh'. congruence.
  - destruct Hr; congruence.
Qed.

(** [==] on image handles compares the bytes, the angle and the current
    width and height, and nothing else: an object that is no image is
    unequal, without a decode; a handle is equal to itself whenever the
    comparison returns; two handles are equal exactly when bytes, angle,
    width and height agree, whatever their names, paths and caches; and
    the comparison returns whenever both sizes can be found. *)
Theorem eq_compares_bytes_angle_and_size st o :
  let so := with_img (fun _ => o) st in
  defaults_ok decode st -> defaults_ok decode so ->
  __eq__ decode NotAnImg st = (Ok false, st, None) /\
  (forall b st' o', __eq__ decode Itself st = (Ok b, st', o') -> b = true) /\
  (forall b st' o', __eq__ decode (Another o) st = (Ok b, st', o') ->
     b = true <->
     bytes_img (img st) = bytes_img o /\
     current_theta st == current_theta so /\
     current_width decode st = current_width decode so /\
     current_height decode st = current_height decode so) /\
  (forall w h w' h',
     current_width decode st = Some w -> current_height decode st = Some h ->
     current_width decode so = Some w' -> current_height decode so = Some h' ->
     exists b st' o', __eq__ decode (Another o) st = (Ok b, st', o')).
Proof.
  intros so Hd Hdo. split; [reflexivity |]. split; [| split].
  - intros b st' o'. unfold __eq__.
    destruct (compared decode st) as [[s0 | e] st1] eqn:G1; [| discriminate].
    apply compared_spec in G1. destruct G1 as (Q1 & R1).
    destruct (R1 Hd) as (Hd1 & w & h & Hw & Hh & ->).
    destruct (compared decode st1) as [[s1 | e] st2] eqn:G2; [| discriminate].
    apply compared_spec in G2. destruct G2 as (Q2 & R2).
    destruct (R2 Hd1) as (_ & w1 & h1 & Hw1 & Hh1 & ->).
    intros [= <- _ _].
    pose proof (Quiet_Memo _ _ Q1) as M1.
    rewrite (Memo_current_width decode _ _ M1), Hw in Hw1.
    rewrite (Memo_current_height decode _ _ M1), Hh in Hh1.
    injection Hw1 as <-. injection Hh1 as <-.
    apply tuple_eqb_true. rewrite (memo_bytes _ _ M1), (Memo_current_theta _ _ M1).
    repeat split; reflexivity.
  - intros b st' o'. unfold __eq__.
    destruct (compared decode st) as [[s0 | e] st1] eqn:G1; [| discriminate].
    apply compared_spec in G1. destruct G1 as (Q1 & R1).
    destruct (R1 Hd) as (Hd1 & w & h & Hw & Hh & ->).
    unfold on_other.
    set (s1 := mkState o (next_id st1) (decode_calls st1) (finished st1)
                 (warnings st1)).
    assert (Hd2 : defaults_ok decode s1).
    { apply (defaults_ok_frame decode so); try reflexivity; [| exact Hdo].
      simpl. apply (memo_next_id _ _ (Quiet_Memo _ _ Q1)). }
    destruct (compared decode s1) as [[t1 | e] st2] eqn:G2; [| discriminate].
    apply compared_spec in G2. destruct G2 as (Q2 & R2).
    destruct (R2 Hd2) as (_ & w1 & h1 & Hw1 & Hh1 & ->).
    intros [= <- _ _].
    change (current_width decode s1) with (current_width decode so) in Hw1.
    change (current_height decode s1) with (current_height decode so) in Hh1.
    change (current_theta s1) with (current_theta so).
    rewrite !andb_true_iff, bytes_eqb_eq, Qeq_bool_iff, !Z.eqb_eq, Hw, Hh, Hw1, Hh1.
    split; [intros (((Hb & Ht) & E1) & E2) | intros (Hb & Ht & E1 & E2)];
      repeat split; congruence.
  - intros w h w' h' Hw Hh Hw' Hh'. unfold __eq__.
    destruct (compared_returns st w h Hd Hw Hh) as (st1 & G1). rewrite G1.
    pose proof G1 as G1'. apply compared_spec in G1'. destruct G1' as (Q1 & _).
    unfold on_other.
    set (s1 := mkState o (next_id st1) (decode_calls st1) (finished st1)
                 (warnings st1)).
    assert (Hd2 : defaults_ok decode s1).
    { apply (defaults_ok_frame decode so); try reflexivity; [| exact Hdo].
      simpl. apply (memo_next_id _ _ (Quiet_Memo _ _ Q1)). }
    destruct (compared_returns s1 w' h' Hd2 Hw' Hh') as (st2 & G2). rewrite G2.
    eauto.
Qed.

End ImageEquality.

(* ===================================================================== *)
(** ** The icon loader: the returned mapping, and the files it reads       *)
(* ===================================================================== *)

Section LoaderResults.
Import Py Loading.
Local Open Scope string_scope.

Variable read_file : string -> option (list Byte.byte).
Variable glob : string -> string -> list string.

Lemma first_match_app_dirs dirs1 dirs2 q :
  first_match glob (dirs1 ++ dirs2) q =
    match first_match glob dirs1 q with
    | Some p => Some p
    | None => first_match glob dirs2 q
    end.
Proof.
  induction dirs1 as [| d0 dirs1 IH]; simpl; [reflexivity |].
  destruct (glob d0 q); [exact IH | reflexivity].
Qed.

Lemma from_path_Ok p i :
  from_path read_file p = Ok i -> exists bytes, read_file p = Some bytes.
Proof.
  unfold from_path. destruct (read_file p) as [bytes |]; [eauto | discriminate].
Qed.

Lemma from_path_readable p bytes :
  read_file p = Some bytes -> exists i, from_path read_file p = Ok i.
Proof.
  intros H. unfold from_path. rewrite H.
  destruct (splitext (basename p)). eauto.
Qed.

(** One directory: the files read are readable, and the loop stops at
    the first one that is not. *)
Lemma load_matches_outcome names directory wanted pr :
  match load_matches read_file names (scan_files glob directory wanted) pr with
  | Ok pr' => forall q p, (q, p) ∈ loads pr' ->
                (q, p) ∈ loads pr \/ exists bytes, read_file p = Some bytes
  | Raise e => exists q p rest,
      q ∈ wanted /\ glob directory q = p :: rest /\
      read_file p = None /\ e = OSError p
  end.
Proof.
  revert pr. induction wanted as [| q0 wanted IH]; intros pr; simpl.
  - auto.
  - destruct (glob directory q0) as [| path0 rest] eqn:G.
    + specialize (IH pr).
      destruct (load_matches read_file names (scan_files glob directory wanted) pr)
        as [pr' | e]; [exact IH |].
      destruct IH as (q & p & rest & Hq & Hg & Hr & He).
      exists q, p, rest. split; [apply list_elem_of_further; exact Hq | auto].
    + unfold from_path. destruct (read_file path0) as [bytes |] eqn:R.
      * destruct (splitext (basename path0)) as [nm ext].
        match goal with
        | |- match load_matches _ _ _ ?pr1 with _ => _ end => specialize (IH pr1)
        end.
        destruct (load_matches _ _ _ _) as [pr' | e].
        -- intros q p Hin. destruct (IH q p Hin) as [H | H]; [| auto].
           simpl in H. apply elem_of_app in H. destruct H as [H | H]; [auto |].
           apply list_elem_of_singleton in H. injection H as -> ->. eauto.
        -- destruct IH as (q & p & rest' & Hq & Hg & Hr & He).
           exists q, p, rest'. split; [apply list_elem_of_further; exact Hq | auto].
      * exists q0, path0, rest. split; [apply list_elem_of_here | auto].
Qed.

(** The whole scan: the files read are readable, and the scan stops at
    the first winning candidate that is not. *)
Lemma scan_directories_outcome iter names dirs done pr :
  (forall X, iter X ≡ₚ elements X) ->
  Scanned read_file glob names done pr ->
  (forall q p, (q, p) ∈ loads pr -> exists bytes, read_file p = Some bytes) ->
  match scan_directories read_file glob iter names (set_names names) dirs pr with
  | Ok pr' => forall q p, (q, p) ∈ loads pr' -> exists bytes, read_file p = Some bytes
  | Raise e => exists q p,
      q ∈ set_names names /\ first_match glob (done ++ dirs) q = Some p /\
      read_file p = None /\ e = OSError p
  end.
Proof.
  intros Hiter. revert done pr. induction dirs as [| directory rest IH];
    intros done pr S Hread; simpl.
  - exact Hread.
  - pose proof (load_matches_outcome names directory
                  (iter (set_names names ∖ seen pr))
                  (mkProgress (d pr) (seen pr)
                     (scans pr ++ [(directory, iter (set_names names ∖ seen pr))])
                     (loads pr))) as Hout.
    destruct (load_matches _ _ _ _) as [pr1 | e] eqn:L.
    + pose proof (Scanned_step read_file glob iter names done directory pr pr1
                    Hiter S L) as S1.
      specialize (IH (done ++ [directory])%list pr1 S1).
      rewrite <- app_assoc in IH. simpl in IH. apply IH.
      intros q p Hin. destruct (Hout q p Hin) as [H | H]; [| exact H].
      apply (Hread q p). exact H.
    + destruct Hout as (q & p & rest' & Hq & Hg & Hr & He).
      apply (wanted_spec read_file glob iter names done pr q Hiter S) in Hq.
      destruct Hq as (Hq & Hn).
      exists q, p. split; [exact Hq |]. split; [| auto].
      rewrite first_match_app_dirs, Hn. simpl. rewrite Hg. reflexivity.
Qed.

Lemma built_lookup_inv names loaded k i :
  built read_file names loaded !! k = Some i ->
  exists q p, (q, p) ∈ loaded /\ key_of names q = k /\ from_path read_file p = Ok i.
Proof.
  induction loaded as [| [q1 p1] loaded IH] using rev_ind.
  - unfold built. simpl. rewrite lookup_empty. discriminate.
  - rewrite built_snoc.
    assert (Hrest : built read_file names loaded !! k = Some i ->
              exists q p, (q, p) ∈ (loaded ++ [(q1, p1)])%list /\ key_of names q = k /\
                          from_path read_file p = Ok i).
    { intros H. destruct (IH H) as (q & p & Hin & Hk & Hf).
      exists q, p. split; [apply elem_of_app; auto | auto]. }
    destruct (from_path read_file p1) as [i1 | e] eqn:F; [| exact Hrest].
    destruct (decide (key_of names q1 = k)) as [Hk | Hk].
    + rewrite Hk, lookup_insert_eq. intros [= <-].
      exists q1, p1. split; [| auto].
      apply elem_of_app. right. apply list_elem_of_singleton. reflexivity.
    + rewrite lookup_insert_ne by exact Hk. exact Hrest.
Qed.

(** What a call that reached its last test holds under a requested
    name. *)
Lemma scanned_lookup names dirs pr k i :
  (forall m, m ∈ names -> m ++ ".*" ∉ names) ->
  Scanned read_file glob names dirs pr ->
  d pr !! k = Some i <->
  k ∈ names /\
  exists p, first_match glob dirs (query_of k) = Some p /\
            (query_of k, p) ∈ loads pr /\ from_path read_file p = Ok i.
Proof.
  intros Hplain S. rewrite (scanned_d _ _ _ _ _ S). split.
  - intros H. apply built_lookup_inv in H. destruct H as (q & p & Hin & Hk & Hf).
    pose proof Hin as Hin'.
    apply (scanned_loads _ _ _ _ _ S) in Hin. destruct Hin as (Hq & Hm).
    apply elem_of_set_names in Hq. destruct Hq as (n & Hn & ->).
    rewrite (key_of_query names n Hplain Hn) in Hk. subst k.
    split; [exact Hn |]. exists p. auto.
  - intros (Hn & p & Hm & Hin & Hf).
    rewrite <- (key_of_query names k Hplain Hn) at 1.
    apply (built_lookup read_file names (loads pr) (query_of k) p i).
    + apply S.
    + exact Hin.
    + exact Hf.
    + intros q' Hq' Hkey. apply list_elem_of_fmap in Hq'.
      destruct Hq' as ([q1 p1] & -> & Hin1). simpl in *.
      apply (scanned_loads _ _ _ _ _ S) in Hin1. destruct Hin1 as (Hq1 & _).
      apply elem_of_set_names in Hq1. destruct Hq1 as (n1 & Hn1 & ->).
      rewrite !key_of_query in Hkey by assumption. congruence.
Qed.

Lemma Loader_call_Ok iter names dirs kwargs self result :
  (forall X, iter X ≡ₚ elements X) ->
  Loader_init dirs kwargs = Ok self ->
  Loader_call read_file glob iter self names = Ok result ->
  exists pr,
    Scanned read_file glob names dirs pr /\ d pr = result /\
    seen pr = set_names names /\
    forall q p, (q, p) ∈ loads pr -> exists bytes, read_file p = Some bytes.
Proof.
  intros Hiter Hself. unfold Loader_call.
  destruct (Loader_scan read_file glob iter self names) as [pr | e] eqn:Hscan;
    [| discriminate].
  destruct (bool_decide (seen pr = set_names names)) eqn:Hseen; [| discriminate].
  intros [= <-]. exists pr.
  split; [exact (Loader_scan_spec read_file glob iter names dirs kwargs self pr
                   Hiter Hself Hscan) |].
  split; [reflexivity |]. split; [exact (bool_decide_eq_true_1 _ Hseen) |].
  unfold Loader_scan in Hscan. rewrite (directories_init _ _ _ Hself) in Hscan.
  pose proof (scan_directories_outcome iter names dirs [] (mkProgress ∅ ∅ [] [])
                Hiter (Scanned_start read_file glob names)) as Hout.
  rewrite Hscan in Hout. apply Hout.
  intros q p H. simpl in H. apply not_elem_of_nil in H. contradiction.
Qed.

(** The mapping that a call returns has exactly the requested names as
    its keys, each with the image made from the first candidate of the
    first directory that has one for the name; and it is the same mapping
    in whatever order the set of queries is iterated.  No requested name
    is taken to be another one followed by the wildcard suffix. *)
Theorem loader_result_is_first_matches iter names dirs kwargs self result :
  (forall X, iter X ≡ₚ elements X) ->
  (forall m, m ∈ names -> m ++ ".*" ∉ names) ->
  Loader_init dirs kwargs = Ok self ->
  Loader_call read_file glob iter self names = Ok result ->
  (forall k i, result !! k = Some i <->
     k ∈ names /\
     exists p, first_match glob dirs (query_of k) = Some p /\
               from_path read_file p = Ok i) /\
  (forall n, n ∈ names -> is_Some (result !! n)) /\
  (forall iter', (forall X, iter' X ≡ₚ elements X) ->
     Loader_call read_file glob iter' self names = Ok result).
Proof.
  intros Hiter Hplain Hself Hcall.
  destruct (Loader_call_Ok iter names dirs kwargs self result Hiter Hself Hcall)
    as (pr & S & Hd & Hseen & Hread).
  assert (Hfound : forall q, q ∈ set_names names ->
            exists p, first_match glob dirs q = Some p /\
                      exists bytes, read_file p = Some bytes).
  { intros q Hq. pose proof Hq as Hq'. rewrite <- Hseen in Hq'.
    apply (scanned_seen _ _ _ _ _ S) in Hq'. destruct Hq' as (_ & Hm).
    destruct (first_match glob dirs q) as [p |] eqn:E; [| contradiction].
    exists p. split; [reflexivity |]. apply (Hread q p).
    apply (scanned_loads _ _ _ _ _ S). auto. }
  assert (Hchar : forall pr0, Scanned read_file glob names dirs pr0 ->
            forall k i, d pr0 !! k = Some i <->
              k ∈ names /\
              exists p, first_match glob dirs (query_of k) = Some p /\
                        from_path read_file p = Ok i).
  { intros pr0 S0 k i. rewrite (scanned_lookup names dirs pr0 k i Hplain S0). split.
    - intros (Hn & p & Hm & _ & Hf). eauto.
    - intros (Hn & p & Hm & Hf). split; [exact Hn |]. exists p.
      split; [exact Hm |]. split; [| exact Hf].
      apply (scanned_loads _ _ _ _ _ S0). split; [| exact Hm].
      apply elem_of_set_names. exists k. auto. }
  split; [| split].
  - intros k i. rewrite <- Hd. apply Hchar. exact S.
  - intros n Hn.
    destruct (Hfound (query_of n)) as (p & Hm & bytes & Hb).
    { apply elem_of_set_names. exists n. auto. }
    destruct (from_path_readable p bytes Hb) as (i & Hf).
    exists i. rewrite <- Hd. apply (Hchar pr S). split; [exact Hn |]. eauto.
  - intros iter' Hiter'. unfold Loader_call, Loader_scan.
    rewrite (directories_init _ _ _ Hself).
    pose proof (scan_directories_outcome iter' names dirs [] (mkProgress ∅ ∅ [] [])
                  Hiter' (Scanned_start read_file glob names)) as Hout.
    destruct (scan_directories read_file glob iter' names (set_names names) dirs
                (mkProgress ∅ ∅ [] [])) as [pr' | e] eqn:Hscan.
    + pose proof (scan_directories_spec read_file glob iter' names dirs [] _ _ Hiter'
                    (Scanned_start read_file glob names) Hscan) as S'.
      simpl in S'.
      rewrite bool_decide_eq_true_2.
      * f_equal. apply map_eq. intros k.
        destruct (d pr' !! k) as [i |] eqn:E1.
        -- apply (Hchar pr' S') in E1. apply (Hchar pr S) in E1.
           rewrite <- Hd. symmetry. exact E1.
        -- destruct (result !! k) as [i |] eqn:E2; [| reflexivity].
           rewrite <- Hd in E2. apply (Hchar pr S) in E2. apply (Hchar pr' S') in E2.
           congruence.
      * apply set_eq. intros q. rewrite (scanned_seen _ _ _ _ _ S'). split.
        -- intros (H & _). exact H.
        -- intros H. split; [exact H |].
           destruct (Hfound q H) as (p & -> & _). discriminate.
    + exfalso. destruct Hout as (q & p & Hq & Hm & Hr & _).
      { intros q p H. simpl in H. apply not_elem_of_nil in H. contradiction. }
      simpl in Hm. destruct (Hfound q Hq) as (p' & Hm' & bytes & Hb). congruence.
Qed.

(** A winning candidate that cannot be read makes the whole call fail:
    the call raises the OSError of a first candidate that cannot be read.
    It does not fall through to the next candidate or the next directory,
    and it does not raise the LoadingError. *)
Theorem unreadable_candidate_raises iter names dirs kwargs self n p :
  (forall X, iter X ≡ₚ elements X) ->
  Loader_init dirs kwargs = Ok self ->
  n ∈ names ->
  first_match glob dirs (query_of n) = Some p ->
  read_file p = None ->
  exists q p',
    Loader_call read_file glob iter self names = Raise (OSError p') /\
    q ∈ set_names names /\ first_match glob dirs q = Some p' /\
    read_file p' = None.
Proof.
  intros Hiter Hself Hn Hm Hr. unfold Loader_call, Loader_scan.
  rewrite (directories_init _ _ _ Hself).
  pose proof (scan_directories_outcome iter names dirs [] (mkProgress ∅ ∅ [] [])
                Hiter (Scanned_start read_file glob names)) as Hout.
  destruct (scan_directories read_file glob iter names (set_names names) dirs
              (mkProgress ∅ ∅ [] [])) as [pr | e] eqn:Hscan.
  - exfalso.
    pose proof (scan_directories_spec read_file glob iter names dirs [] _ _ Hiter
                  (Scanned_start read_file glob names) Hscan) as S.
    simpl in S.
    assert (Hb : exists bytes, read_file p = Some bytes).
    { apply (fun H => Hout H (query_of n) p).
      - intros q0 p0 H. simpl in H. apply not_elem_of_nil in H. contradiction.
      - apply (scanned_loads _ _ _ _ _ S). split; [| exact Hm].
        apply elem_of_set_names. exists n. auto. }
    destruct Hb as (bytes & Hb). congruence.
  - destruct Hout as (q & p' & Hq & Hm' & Hr' & ->).
    { intros q0 p0 H. simpl in H. apply not_elem_of_nil in H. contradiction. }
    exists q, p'. auto.
Qed.

(** A call without names returns the empty mapping, whatever the
    directories hold: every directory is still scanned, for no query, and
    no file is read. *)
Theorem loader_without_names iter dirs kwargs self :
  (forall X, iter X ≡ₚ elements X) ->
  Loader_init dirs kwargs = Ok self ->
  Loader_call read_file glob iter self [] = Ok ∅ /\
  Loader_scan read_file glob iter self []
    = Ok (mkProgress ∅ ∅ (map (fun directory => (directory, [])) dirs) []).
Proof.
  intros Hiter Hself.
  assert (Hnone : forall X : gset string, iter (∅ ∖ X) = []).
  { intros X. apply Permutation_nil_r. rewrite (Hiter _).
    replace (∅ ∖ X) with (∅ : gset string); [rewrite elements_empty; reflexivity |].
    apply set_eq. intros q. rewrite elem_of_difference. split.
    - intros H. apply not_elem_of_empty in H. contradiction.
    - intros (H & _). exact H. }
  assert (Hscan : forall sc,
    scan_directories read_file glob iter [] ∅ dirs (mkProgress ∅ ∅ sc [])
    = Ok (mkProgress ∅ ∅ (sc ++ map (fun directory => (directory, [])) dirs)%list [])).
  { induction dirs as [| directory rest IH] in |- *; intros sc; simpl.
    - rewrite app_nil_r. reflexivity.
    - rewrite Hnone. simpl. rewrite IH, <- app_assoc. reflexivity. }
  assert (H : Loader_scan read_file glob iter self []
              = Ok (mkProgress ∅ ∅ (map (fun directory => (directory, [])) dirs) [])).
  { unfold Loader_scan. rewrite (directories_init _ _ _ Hself).
    change (set_names []) with (∅ : gset string). apply (Hscan []). }
  split; [| exact H].
  unfold Loader_call. rewrite H. simpl.
  change (set_names []) with (∅ : gset string).
  rewrite bool_decide_eq_true_2 by reflexivity. reflexivity.
Qed.

End LoaderResults.

(* ===================================================================== *)
(** ** The icon loader: paths and names                                    *)
(* ===================================================================== *)

Section LoaderPaths.
Import Py Loading.
Local Open Scope string_scope.

Variable read_file : string -> option (list Byte.byte).

Lemma append_cons a s t : String a s ++ t = String a (s ++ t).
Proof. reflexivity. Qed.

Lemma append_empty s : s ++ "" = s.
Proof.
  induction s as [| a s IH]; [reflexivity |]. rewrite append_cons, IH. reflexivity.
Qed.

Lemma append_assoc s t u : (s ++ t) ++ u = s ++ (t ++ u).
Proof.
  induction s as [| a s IH]; [reflexivity |].
  rewrite !append_cons, IH. reflexivity.
Qed.

Lemma length_append s t :
  String.length (s ++ t) = String.length s + String.length t.
Proof.
  induction s as [| a s IH]; [reflexivity |].
  rewrite append_cons. simpl. rewrite IH. reflexivity.
Qed.

Lemma substring_all s : substring 0 (String.length s) s = s.
Proof. induction s as [| a s IH]; simpl; [reflexivity | rewrite IH; reflexivity]. Qed.

Lemma substring_suffix s t :
  substring (String.length s) (String.length t) (s ++ t) = t.
Proof.
  induction s as [| a s IH].
  - apply substring_all.
  - rewrite append_cons. simpl. exact IH.
Qed.

Lemma occurs_append c s t : occurs c (s ++ t) = occurs c s || occurs c t.
Proof.
  induction s as [| a s IH]; [reflexivity |].
  rewrite append_cons. simpl. rewrite IH. apply orb_assoc.
Qed.

(** [rfind] gives the index of the last occurrence: the string is cut at
    an occurrence after which there is no other; or there is none, and
    the index is -1. *)
Lemma rfind_from_spec c s i last :
  (occurs c s = false /\ rfind_from c s i last = last) \/
  exists pre post,
    s = pre ++ String c post /\ occurs c post = false /\
    rfind_from c s i last = (i + Z.of_nat (String.length pre))%Z.
Proof.
  revert i last. induction s as [| a s IH]; intros i last; simpl; [auto |].
  destruct (IH (i + 1)%Z (if Ascii.eqb a c then i else last))
    as [(Hn & Hr) | (pre & post & Hs & Hn & Hr)].
  - destruct (Ascii.eqb_spec a c) as [-> | _].
    + right. exists "", s. split; [reflexivity |]. split; [exact Hn |].
      rewrite Hr. simpl. lia.
    + left. split; [exact Hn | exact Hr].
  - right. exists (String a pre), post. split; [rewrite Hs; reflexivity |].
    split; [exact Hn |]. rewrite Hr. simpl String.length. lia.
Qed.

Lemma rfind_spec c s :
  (occurs c s = false /\ rfind c s = (-1)%Z) \/
  exists pre post,
    s = pre ++ String c post /\ occurs c post = false /\
    rfind c s = Z.of_nat (String.length pre).
Proof.
  unfold rfind.
  destruct (rfind_from_spec c s 0 (-1)) as [H | (pre & post & Hs & Hn & Hr)];
    [auto |].
  right. exists pre, post. split; [exact Hs |]. split; [exact Hn |].
  rewrite Hr. lia.
Qed.

(** [os.path.basename] is what stands after the last slash of the path:
    it holds no slash, and what stands before it is empty or ends with a
    slash. *)
Lemma basename_spec p :
  occurs "/" (basename p) = false /\
  exists dir, p = dir ++ basename p /\ (dir = "" \/ exists d, dir = d ++ "/").
Proof.
  unfold basename, slice.
  destruct (rfind_spec "/" p) as [(Hn & ->) | (pre & post & Hs & Hn & ->)].
  - change (Z.to_nat (-1 + 1)) with 0.
    rewrite Z.sub_0_r, Nat2Z.id, substring_all.
    split; [exact Hn |]. exists "". auto.
  - assert (E : substring (Z.to_nat (Z.of_nat (String.length pre) + 1))
                  (Z.to_nat (Z.of_nat (String.length p)
                             - (Z.of_nat (String.length pre) + 1))) p = post).
    { rewrite Hs.
      replace (pre ++ String "/" post) with ((pre ++ "/") ++ post)
        by (rewrite append_assoc; reflexivity).
      rewrite !length_append. simpl String.length.
      replace (Z.to_nat (Z.of_nat (String.length pre) + 1))
        with (String.length pre + 1) by lia.
      replace (Z.to_nat (Z.of_nat (String.length pre + 1 + String.length post)
                         - (Z.of_nat (String.length pre) + 1)))
        with (String.length post) by lia.
      replace (String.length pre + 1) with (String.length (pre ++ "/"))
        by (rewrite length_append; reflexivity).
      apply substring_suffix. }
    rewrite E. split; [exact Hn |].
    exists (pre ++ "/"). split; [| right; exists pre; reflexivity].
    rewrite Hs, append_assoc. reflexivity.
Qed.

(** [os.path.splitext] on a name without slash: the extension is the last
    dot with what follows it, if a character other than the dot stands
    before that dot; otherwise there is no extension, and the name is a
    run of dots followed by characters that are no dots. *)
Lemma splitext_spec b :
  occurs "/" b = false ->
  fst (splitext b) ++ snd (splitext b) = b /\
  ((exists rest, snd (splitext b) = String "." rest /\ occurs "." rest = false /\
      has_non_dot (fst (splitext b)) = true) \/
   (snd (splitext b) = "" /\
    exists dots tail, fst (splitext b) = dots ++ tail /\
      has_non_dot dots = false /\ occurs "." tail = false)).
Proof.
  intros Hb. unfold splitext.
  destruct (rfind_spec "/" b) as [(_ & ->) | (pre & post & Hs & _ & _)].
  2:{ rewrite Hs, occurs_append in Hb. simpl in Hb.
      rewrite orb_true_r in Hb. discriminate. }
  destruct (rfind_spec "." b) as [(Hn & ->) | (pre & post & Hs & Hn & ->)].
  - simpl. split; [apply append_empty |]. right. split; [reflexivity |].
    exists "", b. auto.
  - assert (Hlt : (-1 <? Z.of_nat (String.length pre))%Z = true)
      by (apply Z.ltb_lt; lia).
    rewrite Hlt. cbn [andb].
    assert (E1 : slice b (-1 + 1) (Z.of_nat (String.length pre)) = pre).
    { unfold slice. change (-1 + 1)%Z with 0%Z.
      rewrite Z.sub_0_r, Nat2Z.id. change (Z.to_nat 0) with 0.
      rewrite Hs. apply substring_prefix. }
    assert (E2 : slice b 0 (Z.of_nat (String.length pre)) = pre) by exact E1.
    assert (E3 : slice b (Z.of_nat (String.length pre))
                   (Z.of_nat (String.length b)) = String "." post).
    { unfold slice.
      assert (Hl : String.length b
                   = String.length pre + String.length (String "." post))
        by (rewrite Hs at 1; apply length_append).
      rewrite Hl.
      replace (Z.to_nat (Z.of_nat (String.length pre
                                   + String.length (String "." post))
                         - Z.of_nat (String.length pre)))
        with (String.length (String "." post)) by lia.
      rewrite Nat2Z.id, Hs. apply substring_suffix. }
    rewrite E1, E2, E3.
    destruct (has_non_dot pre) eqn:Hp; simpl.
    + split; [symmetry; exact Hs |]. left. exists post. auto.
    + split; [apply append_empty |]. right. split; [reflexivity |].
      exists (pre ++ "."), post. split; [rewrite Hs, append_assoc; reflexivity |].
      split; [| exact Hn].
      clear - Hp. induction pre as [| a pre IH]; [reflexivity |].
      rewrite append_cons. simpl in *.
      destruct (Ascii.eqb a "."); [apply IH; exact Hp | discriminate].
Qed.

(** [Img.from_path] on a file that cannot be opened raises the OSError of
    the path.  On a file that can, it gives a new image with the bytes of
    the file and the path, and no other attribute or cache set.  Its name
    is the last component of the path without its extension: the path is
    a prefix that is empty or ends with a slash, then the name, then the
    extension, and there is no slash in the name and the extension; the
    extension is the last dot of the component with what follows it, when
    a character other than the dot stands before that dot, and is empty
    otherwise, the name being then a run of dots followed by characters
    that are no dots. *)
Theorem from_path_names_the_file image_path :
  match from_path read_file image_path with
  | Raise e => read_file image_path = None /\ e = OSError image_path
  | Ok i =>
      read_file image_path = Some (Images.bytes_img i) /\
      Images.path i = image_path /\
      i = Images.Img_init (Images.bytes_img i) (Images.name i) image_path /\
      exists dir ext,
        image_path = dir ++ Images.name i ++ ext /\
        (dir = "" \/ exists d, dir = d ++ "/") /\
        occurs "/" (Images.name i ++ ext) = false /\
        ((exists rest, ext = String "." rest /\ occurs "." rest = false /\
            has_non_dot (Images.name i) = true) \/
         (ext = "" /\
          exists dots tail, Images.name i = dots ++ tail /\
            has_non_dot dots = false /\ occurs "." tail = false))
  end.
Proof.
  unfold from_path. destruct (read_file image_path) as [bytes |]; [| auto].
  destruct (basename_spec image_path) as (Hb & dir & Hdir & Hd).
  pose proof (splitext_spec (basename image_path) Hb) as (Hcat & Hext).
  destruct (splitext (basename image_path)) as [nm ext]. simpl in *.
  split; [reflexivity |]. split; [reflexivity |]. split; [reflexivity |].
  exists dir, ext. rewrite Hcat.
  split; [exact Hdir |]. split; [exact Hd |]. split; [exact Hb | exact Hext].
Qed.

(** The names of three files. *)
Example splitext_of_basename :
  splitext (basename "/icons/archive.tar.gz") = ("archive.tar", ".gz") /\
  splitext (basename "/home/user/.bashrc") = (".bashrc", "") /\
  splitext (basename "icons.d/readme") = ("readme", "").
Proof. repeat split. Qed.

End LoaderPaths.

(* ===================================================================== *)
(** ** Runs of the model, continued                                        *)
(* ===================================================================== *)

Section ImageRuns.
Import Py Images.




Lemma reads_are_cached_witness :
  exists s,
    fst (surface sizing_decoder icon) = Ok s /\
    surface sizing_decoder (snd (surface sizing_decoder icon))
      = (Ok s, snd (surface sizing_decoder icon)).
Proof.
  eexists. split; [vm_compute; reflexivity |].
  apply (proj1 (reads_are_cached sizing_decoder icon)). vm_compute. reflexivity.
Defined.

Lemma no_finished_surface_is_handed_out_witness :
  exists s,
    fst (surface sizing_decoder
           (exec sizing_decoder [ReadSurface; WriteTheta (Int 90)] icon)) = Ok s /\
    surf_id s ∉ finished (snd (surface sizing_decoder
           (exec sizing_decoder [ReadSurface; WriteTheta (Int 90)] icon))).
Proof.
  eexists. split; [vm_compute; reflexivity |].
  apply (proj1 (no_finished_surface_is_handed_out sizing_decoder [] "icon"
                  "/icons/icon.png" [ReadSurface; WriteTheta (Int 90)])).
  vm_compute. reflexivity.
Defined.




Lemma resize_to_requested_size_witness :
  fst (default_size sizing_decoder icon) = Ok (100, 50)%Z /\
  (0 < 100 < 2 ^ 53)%Z /\ (0 < 50 < 2 ^ 53)%Z /\
  (Z.abs 200 <= 2 ^ 50)%Z /\ (Z.abs 80 <= 2 ^ 50)%Z /\
  _width (img (snd (resize sizing_decoder (Some (Int 200)) (Some (Int 80)) icon)))
    = Some (Z.max 200 1) /\
  _height (img (snd (resize sizing_decoder (Some (Int 200)) (Some (Int 80)) icon)))
    = Some (Z.max 80 1).
Proof.
  split; [reflexivity |]. do 4 (split; [lia |]).
  apply (resize_to_requested_size sizing_decoder icon _ 200 80 100 50);
    [reflexivity | lia | lia | discriminate | discriminate | lia | lia
    | vm_compute; reflexivity].
Defined.

Lemma resize_one_side_keeps_aspect_ratio_witness :
  fst (default_size sizing_decoder icon) = Ok (100, 50)%Z /\
  (0 < 100 < 2 ^ 53)%Z /\ (0 < 50 < 2 ^ 53)%Z /\
  _height (img (snd (resize sizing_decoder (Some (Int 200)) None icon)))
    = Some (Z.max 100 1) /\
  _width (img (snd (resize sizing_decoder None (Some (Int 25)) icon)))
    = Some (Z.max 50 1).
Proof.
  split; [reflexivity |]. do 2 (split; [lia |]).
  destruct (resize_one_side_keeps_aspect_ratio sizing_decoder icon 100 50)
    as (Hw & Hh); [reflexivity | lia | lia |].
  split.
  - refine (proj2 (proj2 (Hw 200%Z _ _ _ _)) 100%Z _ _);
      [discriminate | lia | vm_compute; reflexivity | reflexivity | lia].
  - refine (proj2 (proj2 (Hh 25%Z _ _ _ _)) 50%Z _ _);
      [discriminate | lia | vm_compute; reflexivity | reflexivity | lia].
Defined.

(** [resize(width=109)] on the icon (100 x 50): the factor 109/100 and
    the products are doubles, the height comes out a little above 54.5
    and is stored as 55, where the exact 54.5 would round to 54. *)
Example resize_rounds_the_doubles :
  _width (img (snd (resize sizing_decoder (Some (Int 109)) None icon)))
    = Some 109%Z /\
  _height (img (snd (resize sizing_decoder (Some (Int 109)) None icon)))
    = Some 55%Z /\
  round_half_even (inject_Z 50 * inject_Z 109 / inject_Z 100) = 54%Z.
Proof. repeat split; vm_compute; reflexivity. Qed.

Lemma scale_does_not_compound_witness :
  fst (scale sizing_decoder (Some (Int 2)) None true icon) = Ok tt /\
  _width (img (snd (scale sizing_decoder (Some (Int 2)) None true
                      (exec sizing_decoder [WriteWidth (Int 7)]
                         (snd (scale sizing_decoder (Some (Int 2)) None true icon))))))
    = _width (img (snd (scale sizing_decoder (Some (Int 2)) None true icon))).
Proof.
  split; [reflexivity |].
  refine (proj1 (scale_does_not_compound sizing_decoder (Some (Int 2)) None true
                   [WriteWidth (Int 7)] icon
                   (snd (scale sizing_decoder (Some (Int 2)) None true icon))
                   (snd (scale sizing_decoder (Some (Int 2)) None true
                           (exec sizing_decoder [WriteWidth (Int 7)]
                              (snd (scale sizing_decoder (Some (Int 2)) None true
                                      icon)))))
                   _ _)); vm_compute; reflexivity.
Defined.

Lemma eq_compares_bytes_angle_and_size_witness :
  defaults_ok sizing_decoder icon /\
  defaults_ok sizing_decoder
    (with_img (fun _ => Img_init [] "other" "/icons/other.png") icon) /\
  __eq__ sizing_decoder NotAnImg icon = (Ok false, icon, None) /\
  exists b st' o',
    __eq__ sizing_decoder (Another (Img_init [] "other" "/icons/other.png")) icon
      = (Ok b, st', o').
Proof.
  pose proof (proj1 (Inv_initial sizing_decoder [] "icon" "/icons/icon.png")) as H1.
  pose proof (proj1 (Inv_initial sizing_decoder [] "other" "/icons/other.png")) as H2.
  split; [exact H1 |]. split; [exact H2 |].
  destruct (eq_compares_bytes_angle_and_size sizing_decoder icon
              (Img_init [] "other" "/icons/other.png") H1 H2) as (Hn & _ & _ & Hr).
  split; [exact Hn |].
  apply (Hr 100%Z 50%Z 100%Z 50%Z); reflexivity.
Defined.

End ImageRuns.

Section LoaderRuns.
Import Py Loading.
Local Open Scope string_scope.

Lemma loader_result_is_first_matches_witness :
  exists result,
    Loader_call two_dirs_read two_dirs_glob elements
      (<["directories" := OList ["/A"; "/B"]]> ∅) ["icon"; "logo.svg"] = Ok result /\
    forall n, n ∈ ["icon"; "logo.svg"] -> is_Some (result !! n).
Proof.
  destruct (Loader_call two_dirs_read two_dirs_glob elements
              (<["directories" := OList ["/A"; "/B"]]> ∅) ["icon"; "logo.svg"])
    as [result | e] eqn:E.
  - exists result. split; [reflexivity |].
    apply (loader_result_is_first_matches two_dirs_read two_dirs_glob elements
             ["icon"; "logo.svg"] ["/A"; "/B"] []
             (<["directories" := OList ["/A"; "/B"]]> ∅) result
             elements_order icon_logo_plain eq_refl E).
  - vm_compute in E. discriminate.
Defined.

Lemma unreadable_candidate_raises_witness :
  first_match two_dirs_glob ["/A"; "/B"] (query_of "icon") = Some "/A/icon.png" /\
  no_file_opens "/A/icon.png" = None /\
  exists q p',
    Loader_call no_file_opens two_dirs_glob elements
      (<["directories" := OList ["/A"; "/B"]]> ∅) ["icon"] = Raise (OSError p') /\
    q ∈ set_names ["icon"] /\
    first_match two_dirs_glob ["/A"; "/B"] q = Some p' /\
    no_file_opens p' = None.
Proof.
  split; [reflexivity |]. split; [reflexivity |].
  apply (unreadable_candidate_raises no_file_opens two_dirs_glob elements
           ["icon"] ["/A"; "/B"] [] (<["directories" := OList ["/A"; "/B"]]> ∅)
           "icon" "/A/icon.png").
  - exact elements_order.
  - reflexivity.
  - apply list_elem_of_here.
  - reflexivity.
  - reflexivity.
Defined.

Lemma loader_without_names_witness :
  Loader_init ["/A"; "/B"] [] = Ok (<["directories" := OList ["/A"; "/B"]]> ∅) /\
  Loader_call two_dirs_read two_dirs_glob elements
    (<["directories" := OList ["/A"; "/B"]]> ∅) [] = Ok ∅.
Proof.
  split; [reflexivity |].
  exact (proj1 (loader_without_names two_dirs_read two_dirs_glob elements
                  ["/A"; "/B"] [] (<["directories" := OList ["/A"; "/B"]]> ∅)
                  elements_order eq_refl)).
Defined.

End LoaderRuns.

(* ===================================================================== *)
(** ** The image handle: what a write costs                                *)
(* ===================================================================== *)

Section ImageCosts.
Import Py Images.

Variable decode : list Byte.byte -> option Z -> option Z -> Decoded.

(** A size that is read without a change of the state is stored, or
    memoized with the natural size. *)
Lemma width_known st w :
  width decode st = (Ok w, st) <->
  _width (img st) = Some w \/
  (_width (img st) = None /\ exists h0, _default_size (img st) = Some (w, h0)).
Proof.
  unfold width, default_size, bind, get_img, ret, modify_img.
  destruct (_width (img st)) as [w1 |] eqn:E.
  - split; [intros [= ->]; auto |].
    intros [[= ->] | (H & _)]; [reflexivity | discriminate].
  - destruct (_default_size (img st)) as [[a b] |] eqn:D; simpl.
    + split; [intros [= ->]; eauto |].
      intros [H | (_ & h0 & [= -> ->])]; [discriminate | reflexivity].
    + destruct (default_surface decode st) as [[surf | e] st1]; simpl.
      * split.
        -- intros H. injection H as _ H.
           apply (f_equal (fun x => _default_size (img x))) in H. simpl in H.
           congruence.
        -- intros [H | (_ & h0 & H)]; discriminate.
      * split; [discriminate |]. intros [H | (_ & h0 & H)]; discriminate.
Qed.

Lemma height_known st h :
  height decode st = (Ok h, st) <->
  _height (img st) = Some h \/
  (_height (img st) = None /\ exists w0, _default_size (img st) = Some (w0, h)).
Proof.
  unfold height, default_size, bind, get_img, ret, modify_img.
  destruct (_height (img st)) as [h1 |] eqn:E.
  - split; [intros [= ->]; auto |].
    intros [[= ->] | (H & _)]; [reflexivity | discriminate].
  - destruct (_default_size (img st)) as [[a b] |] eqn:D; simpl.
    + split; [intros [= ->]; eauto |].
      intros [H | (_ & w0 & [= -> ->])]; [discriminate | reflexivity].
    + destruct (default_surface decode st) as [[surf | e] st1]; simpl.
      * split.
        -- intros H. injection H as _ H.
           apply (f_equal (fun x => _default_size (img x))) in H. simpl in H.
           congruence.
        -- intros [H | (_ & w0 & H)]; discriminate.
      * split; [discriminate |]. intros [H | (_ & w0 & H)]; discriminate.
Qed.

Lemma width_known_frame st st' w :
  width decode st = (Ok w, st) ->
  _width (img st') = _width (img st) ->
  _default_size (img st') = _default_size (img st) ->
  width decode st' = (Ok w, st').
Proof.
  intros H Ew Ed. apply width_known. apply width_known in H.
  rewrite Ew, Ed. exact H.
Qed.

Lemma height_known_frame st st' h :
  height decode st = (Ok h, st) ->
  _height (img st') = _height (img st) ->
  _default_size (img st') = _default_size (img st) ->
  height decode st' = (Ok h, st').
Proof.
  intros H Eh Ed. apply height_known. apply height_known in H.
  rewrite Eh, Ed. exact H.
Qed.

(** A surface read on an image without cached surface, of known size. *)
Lemma surface_decodes st w h sw sh :
  _surface (img st) = None ->
  width decode st = (Ok w, st) -> height decode st = (Ok h, st) ->
  decode (bytes_img (img st)) (Some w) (Some h) = DecodedSurface sw sh ->
  surface decode st
  = (Ok (mkSurface (next_id st) sw sh),
     mkState (set_surface_attr (Some (mkSurface (next_id st) sw sh)) (img st))
       (S (next_id st))
       (decode_calls st ++ [(bytes_img (img st), Some w, Some h)])
       (finished st) (warnings st)).
Proof.
  intros E Hw Hh Hd. unfold surface, bind, get_img. rewrite E, Hw, Hh.
  unfold get_cairo_surface, Images.decode. rewrite Hd. reflexivity.
Qed.

(** A pattern read on an image with a cached surface and no cached
    pattern, of known size. *)
Lemma pattern_builds st s w h :
  _pattern (img st) = None -> _surface (img st) = Some s ->
  width decode st = (Ok w, st) -> height decode st = (Ok h, st) ->
  (1 <= w)%Z -> (1 <= h)%Z ->
  pattern decode st
  = (Ok (mkPattern (next_id st) s w h (current_theta st)),
     mkState (set_pattern_attr
                (Some (mkPattern (next_id st) s w h (current_theta st))) (img st))
       (S (next_id st)) (decode_calls st) (finished st) (warnings st)).
Proof.
  intros Ep Es Hw Hh H1 H2. unfold pattern, bind, get_img. rewrite Ep.
  rewrite (surface_cached decode st s Es), Hw, Hh, theta_spec.
  unfold Images.get_cairo_pattern.
  replace (w =? 0)%Z with false by (symmetry; apply Z.eqb_neq; lia).
  replace (h =? 0)%Z with false by (symmetry; apply Z.eqb_neq; lia).
  rewrite !andb_false_r. reflexivity.
Qed.

Lemma _reset_eager st w h :
  width decode st = (Ok w, st) -> height decode st = (Ok h, st) ->
  (1 <= w)%Z -> (1 <= h)%Z ->
  (forall w' h', exists sw sh,
     decode (bytes_img (img st)) (Some w') (Some h') = DecodedSurface sw sh) ->
  resets_eagerly (_reset decode) st w h.
Proof.
  intros Hw Hh H1 H2 Hdec. destruct (Hdec w h) as (sw & sh & Hd).
  unfold resets_eagerly, _reset, reset_surface, reset_pattern, bind, hasattr.
  destruct (_surface (img st)) as [s |] eqn:Es.
  - (* a cached surface is finished and dropped *)
    rewrite (surface_cached decode st s Es). rewrite (surface_cached decode st s Es).
    unfold finish, del_surface, modify_img.
    match goal with
    | |- context [pattern decode ?x] => set (st2 := x)
    end.
    assert (Hw2 : width decode st2 = (Ok w, st2))
      by (apply (width_known_frame st); [exact Hw | reflexivity | reflexivity]).
    assert (Hh2 : height decode st2 = (Ok h, st2))
      by (apply (height_known_frame st); [exact Hh | reflexivity | reflexivity]).
    destruct (_pattern (img st)) as [p |] eqn:Ep.
    + rewrite (pattern_cached decode st2 p) by exact Ep.
      unfold del_pattern, modify_img. eexists. split; [reflexivity |]. simpl.
      rewrite app_nil_r. repeat split; intros; try reflexivity; congruence.
    + unfold pattern, bind, get_img.
      replace (_pattern (img st2)) with (@None Pattern) by (symmetry; exact Ep).
      rewrite (surface_decodes st2 w h sw sh) by (try assumption; reflexivity).
      match goal with
      | |- context [width decode ?x] => set (st3 := x)
      end.
      assert (Hw3 : width decode st3 = (Ok w, st3))
        by (apply (width_known_frame st); [exact Hw | reflexivity | reflexivity]).
      assert (Hh3 : height decode st3 = (Ok h, st3))
        by (apply (height_known_frame st); [exact Hh | reflexivity | reflexivity]).
      rewrite Hw3, Hh3, theta_spec. unfold Images.get_cairo_pattern.
      replace (w =? 0)%Z with false by (symmetry; apply Z.eqb_neq; lia).
      replace (h =? 0)%Z with false by (symmetry; apply Z.eqb_neq; lia).
      rewrite !andb_false_r. unfold del_pattern, modify_img.
      eexists. split; [reflexivity |]. simpl.
      repeat split; intros; try reflexivity; congruence.
  - (* no cached surface: one is decoded, finished and dropped *)
    rewrite (surface_decodes st w h sw sh Es Hw Hh Hd).
    match goal with
    | |- context [surface decode ?x] => set (st1 := x)
    end.
    rewrite (surface_cached decode st1 (mkSurface (next_id st) sw sh))
      by reflexivity.
    unfold finish, del_surface, modify_img.
    match goal with
    | |- context [pattern decode ?x] => set (st2 := x)
    end.
    assert (Hw2 : width decode st2 = (Ok w, st2))
      by (apply (width_known_frame st); [exact Hw | reflexivity | reflexivity]).
    assert (Hh2 : height decode st2 = (Ok h, st2))
      by (apply (height_known_frame st); [exact Hh | reflexivity | reflexivity]).
    destruct (_pattern (img st)) as [p |] eqn:Ep.
    + rewrite (pattern_cached decode st2 p) by exact Ep.
      unfold del_pattern, modify_img. eexists. split; [reflexivity |]. simpl.
      repeat split; intros; try reflexivity; congruence.
    + unfold pattern, bind, get_img.
      replace (_pattern (img st2)) with (@None Pattern) by (symmetry; exact Ep).
      rewrite (surface_decodes st2 w h sw sh) by (try assumption; reflexivity).
      match goal with
      | |- context [width decode ?x] => set (st3 := x)
      end.
      assert (Hw3 : width decode st3 = (Ok w, st3))
        by (apply (width_known_frame st); [exact Hw | reflexivity | reflexivity]).
      assert (Hh3 : height decode st3 = (Ok h, st3))
        by (apply (height_known_frame st); [exact Hh | reflexivity | reflexivity]).
      rewrite Hw3, Hh3, theta_spec. unfold Images.get_cairo_pattern.
      replace (w =? 0)%Z with false by (symmetry; apply Z.eqb_neq; lia).
      replace (h =? 0)%Z with false by (symmetry; apply Z.eqb_neq; lia).
      rewrite !andb_false_r. unfold del_pattern, modify_img.
      eexists. split; [reflexivity |]. simpl. rewrite <- app_assoc. simpl.
      repeat split; intros; try reflexivity; congruence.
Qed.

(** A write of theta, width or height resets eagerly.  On an image whose
    size is known (stored, or memoized with the natural size) and with a
    decoder that decodes at any size, the write of a width or a height,
    and the write of a theta that [float] converts, returns after one
    decoder call at the new size for each cache that was empty: a surface
    that is not cached is decoded only to be finished at once, and a
    pattern that is not cached is built on one more newly decoded surface,
    which stays cached.  With both caches filled the write does not
    decode; on an image with nothing cached it decodes twice.  A theta
    that [float] does not convert (an int beyond the doubles) raises
    before anything is stored or reset. *)
Theorem writes_decode_eagerly st v w h :
  width decode st = (Ok w, st) -> height decode st = (Ok h, st) ->
  (1 <= w)%Z -> (1 <= h)%Z ->
  (forall w' h', exists sw sh,
     decode (bytes_img (img st)) (Some w') (Some h') = DecodedSurface sw sh) ->
  match to_float v with
  | Ok _ => resets_eagerly (set_theta decode v) st w h
  | Raise e => e = OverflowError /\ set_theta decode v st = (Raise e, st)
  end /\
  resets_eagerly (set_width decode v) st (Z.max (round v) 1) h /\
  resets_eagerly (set_height decode v) st w (Z.max (round v) 1).
Proof.
  intros Hw Hh H1 H2 Hdec. split; [| split].
  - unfold set_theta, bind at 1, lift.
    destruct (to_float v) as [t | e] eqn:Et.
    + apply (_reset_eager (with_img (set_theta_attr (Some t)) st) w h);
        [| | exact H1 | exact H2 | exact Hdec].
      * apply (width_known_frame st); [exact Hw | reflexivity | reflexivity].
      * apply (height_known_frame st); [exact Hh | reflexivity | reflexivity].
    + split; [| reflexivity].
      destruct v as [z | q]; simpl in Et; [| discriminate].
      destruct (round_double (inject_Z z)); [discriminate |]. congruence.
  - apply (_reset_eager (with_img (set_width_attr (Some (Z.max (round v) 1))) st)
             (Z.max (round v) 1) h); [| | lia | exact H2 | exact Hdec].
    + apply width_known. left. reflexivity.
    + apply (height_known_frame st); [exact Hh | reflexivity | reflexivity].
  - apply (_reset_eager (with_img (set_height_attr (Some (Z.max (round v) 1))) st)
             w (Z.max (round v) 1)); [| | exact H1 | lia | exact Hdec].
    + apply (width_known_frame st); [exact Hw | reflexivity | reflexivity].
    + apply height_known. left. reflexivity.
Qed.

End ImageCosts.

(* ===================================================================== *)
(** ** The image handle: the natural surface                               *)
(* ===================================================================== *)

Section ImageNaturalSurface.
Import Py Images.

Variable decode : list Byte.byte -> option Z -> option Z -> Decoded.

(** A natural surface that a step memoizes is a new object. *)
Lemma default_surface_fresh st r st' :
  default_surface decode st = (r, st') ->
  forall s0, _default_surface (img st') = Some s0 ->
    _default_surface (img st) = Some s0 \/ next_id st <= surf_id s0.
Proof.
  unfold default_surface, bind, get_img, ret, modify_img.
  destruct (_default_surface (img st)) as [s1 |] eqn:E;
    [intros [= <- <-] s0 E0; left; congruence |].
  destruct (get_cairo_surface decode (bytes_img (img st)) None None st)
    as [[s | e] st1] eqn:G;
    apply get_cairo_surface_spec in G; destruct G as (Hi & Hf & Hr);
    intros [= <- <-] s0 E0.
  - simpl in E0. injection E0 as <-. destruct Hr as (_ & Hid & _). right. lia.
  - rewrite Hi in E0. congruence.
Qed.

Lemma default_size_fresh st r st' :
  default_size decode st = (r, st') ->
  forall s0, _default_surface (img st') = Some s0 ->
    _default_surface (img st) = Some s0 \/ next_id st <= surf_id s0.
Proof.
  unfold default_size, bind, get_img, ret, modify_img.
  destruct (_default_size (img st)) as [sz |] eqn:E;
    [intros [= <- <-]; auto |].
  destruct (default_surface decode st) as [[s | e] st1] eqn:G;
    intros [= <- <-]; exact (default_surface_fresh _ _ _ G).
Qed.

Lemma width_fresh st r st' :
  width decode st = (r, st') ->
  forall s0, _default_surface (img st') = Some s0 ->
    _default_surface (img st) = Some s0 \/ next_id st <= surf_id s0.
Proof.
  unfold width, bind, get_img, ret.
  destruct (_width (img st)) as [w |]; [intros [= <- <-]; auto |].
  destruct (default_size decode st) as [[sz | e] st1] eqn:G;
    intros [= <- <-]; exact (default_size_fresh _ _ _ G).
Qed.

Lemma height_fresh st r st' :
  height decode st = (r, st') ->
  forall s0, _default_surface (img st') = Some s0 ->
    _default_surface (img st) = Some s0 \/ next_id st <= surf_id s0.
Proof.
  unfold height, bind, get_img, ret.
  destruct (_height (img st)) as [h |]; [intros [= <- <-]; auto |].
  destruct (default_size decode st) as [[sz | e] st1] eqn:G;
    intros [= <- <-]; exact (default_size_fresh _ _ _ G).
Qed.

Lemma Apart_Quiet st st' :
  Quiet st st' ->
  (forall s0, _default_surface (img st') = Some s0 ->
     _default_surface (img st) = Some s0 \/ next_id st <= surf_id s0) ->
  Live st -> Apart st -> Apart st'.
Proof.
  intros (M & S & P & F) Hfr (L1 & L2 & _) A s0 E0. rewrite F, S.
  destruct (Hfr s0 E0) as [E | Hle]; [apply A; exact E |].
  split.
  - intros Hin. apply L1 in Hin. lia.
  - intros s Es. destruct (L2 s Es) as (_ & Hlt). lia.
Qed.

Lemma Apart_frame st st' :
  _default_surface (img st') = _default_surface (img st) ->
  _surface (img st') = _surface (img st) \/ _surface (img st') = None ->
  finished st' = finished st ->
  Apart st -> Apart st'.
Proof.
  intros Ed Es Ef A s0 E0. rewrite Ed in E0. destruct (A s0 E0) as (A1 & A2).
  rewrite Ef. split; [exact A1 |].
  intros s E. destruct Es as [Es | Es]; rewrite Es in E; [auto | discriminate].
Qed.

Lemma width_step st r st' :
  defaults_ok decode st -> Live st -> Apart st ->
  width decode st = (r, st') ->
  defaults_ok decode st' /\ Live st' /\ Apart st'.
Proof.
  intros Hd L A G. pose proof (width_fresh _ _ _ G) as Hfr.
  apply width_spec in G. destruct G as (Q & R).
  split; [apply (R Hd) |]. split; [exact (Live_Quiet _ _ Q L) |].
  exact (Apart_Quiet _ _ Q Hfr L A).
Qed.

Lemma height_step st r st' :
  defaults_ok decode st -> Live st -> Apart st ->
  height decode st = (r, st') ->
  defaults_ok decode st' /\ Live st' /\ Apart st'.
Proof.
  intros Hd L A G. pose proof (height_fresh _ _ _ G) as Hfr.
  apply height_spec in G. destruct G as (Q & R).
  split; [apply (R Hd) |]. split; [exact (Live_Quiet _ _ Q L) |].
  exact (Apart_Quiet _ _ Q Hfr L A).
Qed.

Lemma default_size_step st r st' :
  defaults_ok decode st -> Live st -> Apart st ->
  default_size decode st = (r, st') ->
  defaults_ok decode st' /\ Live st' /\ Apart st'.
Proof.
  intros Hd L A G. pose proof (default_size_fresh _ _ _ G) as Hfr.
  apply default_size_spec in G. destruct G as (Q & R).
  split; [apply (R Hd) |]. split; [exact (Live_Quiet _ _ Q L) |].
  exact (Apart_Quiet _ _ Q Hfr L A).
Qed.

Lemma surface_Apart st r st' :
  defaults_ok decode st -> Live st -> Apart st ->
  surface decode st = (r, st') -> Apart st'.
Proof.
  intros Hd L A. unfold surface, bind, get_img, ret, modify_img.
  destruct (_surface (img st)) as [s |] eqn:E; [intros [= <- <-]; exact A |].
  destruct (width decode st) as [[w | e] st1] eqn:G1;
    destruct (width_step _ _ _ Hd L A G1) as (Hd1 & L1 & A1);
    [| intros [= <- <-]; exact A1].
  destruct (height decode st1) as [[h | e] st2] eqn:G2;
    destruct (height_step _ _ _ Hd1 L1 A1 G2) as (Hd2 & L2 & A2);
    [| intros [= <- <-]; exact A2].
  destruct (get_cairo_surface decode (bytes_img (img st)) (Some w) (Some h) st2)
    as [[s | e] st3] eqn:G3;
    apply get_cairo_surface_spec in G3; destruct G3 as (Hi & Hf & Hr);
    intros [= <- <-].
  - destruct Hr as (_ & Hid & _). intros s0 E0. simpl in E0. rewrite Hi in E0.
    destruct (A2 s0 E0) as (A21 & _). simpl. rewrite Hf. split; [exact A21 |].
    intros s1 [= <-]. destruct Hd2 as (Hd2 & _). destruct (Hd2 s0 E0). lia.
  - apply (Apart_frame st2); [rewrite Hi; reflexivity | rewrite Hi; auto
                              | exact Hf | exact A2].
Qed.

Lemma surface_step st r st' :
  defaults_ok decode st -> Live st -> Apart st ->
  surface decode st = (r, st') ->
  defaults_ok decode st' /\ Live st' /\ Apart st'.
Proof.
  intros Hd L A G. split; [| split].
  - pose proof G as G'. apply surface_spec in G'. destruct G' as (_ & _ & _ & R).
    apply (R Hd).
  - exact (surface_Live decode _ _ _ Hd L G).
  - exact (surface_Apart _ _ _ Hd L A G).
Qed.

Lemma pattern_Apart st r st' :
  defaults_ok decode st -> Live st -> Apart st ->
  pattern decode st = (r, st') -> Apart st'.
Proof.
  intros Hd L A. unfold pattern, bind, get_img, ret, modify_img.
  destruct (_pattern (img st)) as [p0 |] eqn:E; [intros [= <- <-]; exact A |].
  destruct (surface decode st) as [[surf | e] st1] eqn:G1;
    destruct (surface_step _ _ _ Hd L A G1) as (Hd1 & L1 & A1);
    [| intros [= <- <-]; exact A1].
  destruct (width decode st1) as [[w | e] st2] eqn:G2;
    destruct (width_step _ _ _ Hd1 L1 A1 G2) as (Hd2 & L2 & A2);
    [| intros [= <- <-]; exact A2].
  destruct (height decode st2) as [[h | e] st3] eqn:G3;
    destruct (height_step _ _ _ Hd2 L2 A2 G3) as (Hd3 & L3 & A3);
    [| intros [= <- <-]; exact A3].
  rewrite theta_spec.
  destruct (get_cairo_pattern surf w h (current_theta st3) st3) as [[p | e] st4] eqn:G4;
    apply get_cairo_pattern_spec in G4; destruct G4 as (Hi & Hf & Hr);
    intros [= <- <-].
  - apply (Apart_frame st3); simpl; [rewrite Hi; reflexivity | rewrite Hi; auto
                                     | exact Hf | exact A3].
  - apply (Apart_frame st3); [rewrite Hi; reflexivity | rewrite Hi; auto
                              | exact Hf | exact A3].
Qed.

Lemma reset_surface_Apart st r st' :
  defaults_ok decode st -> Live st -> Apart st ->
  reset_surface decode st = (r, st') -> Apart st'.
Proof.
  intros Hd L A. unfold reset_surface, bind, hasattr.
  destruct (surface decode st) as [[s | e] st1] eqn:G1;
    destruct (surface_step _ _ _ Hd L A G1) as (Hd1 & L1 & A1).
  - apply surface_read_caches in G1.
    rewrite (surface_cached decode _ _ G1).
    unfold finish, del_surface, modify_img. intros [= <- <-].
    intros s0 E0. simpl in E0. destruct (A1 s0 E0) as (A11 & A12). simpl.
    split; [| intros s1 Es1; discriminate].
    intros Hin. apply elem_of_cons in Hin. destruct Hin as [Heq | Hin]; [| auto].
    apply (A12 s G1). symmetry. exact Heq.
  - destruct e; intros [= <- <-]; exact A1.
Qed.

Lemma reset_pattern_Apart st r st' :
  defaults_ok decode st ->
  (forall i, i ∈ finished st -> i < next_id st) ->
  _surface (img st) = None -> Apart st ->
  reset_pattern decode st = (r, st') -> Apart st'.
Proof.
  intros Hd F Es A. unfold reset_pattern, bind, hasattr.
  destruct (_pattern (img st)) as [p |] eqn:Ep.
  - rewrite (pattern_cached decode _ _ Ep). unfold del_pattern, modify_img.
    intros [= <- <-]. apply (Apart_frame st); simpl; auto.
  - assert (L : Live st).
    { split; [exact F |]. split; [intros s Hs | intros p Hp]; congruence. }
    destruct (pattern decode st) as [[p | e] st1] eqn:G1;
      pose proof (pattern_Apart _ _ _ Hd L A G1) as A1.
    + unfold del_pattern, modify_img. intros [= <- <-].
      apply (Apart_frame st1); simpl; auto.
    + destruct e; intros [= <- <-]; exact A1.
Qed.

Lemma _reset_Apart st r st' :
  defaults_ok decode st -> Live st -> Apart st ->
  _reset decode st = (r, st') -> Apart st'.
Proof.
  intros Hd L A. unfold _reset, bind.
  destruct (reset_surface decode st) as [[[] | e] st1] eqn:G1;
    pose proof (reset_surface_Apart _ _ _ Hd L A G1) as A1;
    apply (reset_surface_Live decode _ _ _ Hd L) in G1;
    destruct G1 as (Hd1 & F1 & H1).
  - apply reset_pattern_Apart; assumption.
  - intros [= <- <-]. exact A1.
Qed.

(** The three facts that every operation keeps together. *)
Lemma apart_leaf {A} (m : M A) :
  preserves (fun st => defaults_ok decode st /\ Live st) m ->
  (forall st r st', defaults_ok decode st -> Live st -> Apart st ->
     m st = (r, st') -> Apart st') ->
  preserves (fun st => defaults_ok decode st /\ Live st /\ Apart st) m.
Proof.
  intros Hs Ha st (Hd & L & HA).
  destruct (Hs st (conj Hd L)) as (Hd' & L').
  split; [exact Hd' |]. split; [exact L' |].
  destruct (m st) as [r st'] eqn:G. exact (Ha st r st' Hd L HA G).
Qed.

Lemma apart_skip {A} (m : M A) :
  (forall st, snd (m st) = st) ->
  preserves (fun st => defaults_ok decode st /\ Live st /\ Apart st) m.
Proof. intros H st HP. rewrite H. exact HP. Qed.

Lemma apart_attrs f :
  (forall i, bytes_img (f i) = bytes_img i) ->
  (forall i, _default_surface (f i) = _default_surface i) ->
  (forall i, _default_size (f i) = _default_size i) ->
  (forall i, _surface (f i) = _surface i \/ _surface (f i) = None) ->
  (forall i, _pattern (f i) = _pattern i \/ _pattern (f i) = None) ->
  preserves (fun st => defaults_ok decode st /\ Live st /\ Apart st) (modify_img f).
Proof.
  intros Hb Hs Hz Hc Hp. apply apart_leaf; [apply sound_attrs; assumption |].
  intros st r st' _ _ A. unfold modify_img. intros [= <- <-].
  apply (Apart_frame st); simpl; auto.
Qed.

Lemma apart__reset :
  preserves (fun st => defaults_ok decode st /\ Live st /\ Apart st) (_reset decode).
Proof. apply apart_leaf; [apply sound__reset | apply _reset_Apart]. Qed.

Lemma apart_default_size :
  preserves (fun st => defaults_ok decode st /\ Live st /\ Apart st)
    (default_size decode).
Proof.
  apply apart_leaf; [apply sound_default_size |].
  intros st r st' Hd L A G. apply (default_size_step _ _ _ Hd L A G).
Qed.

Lemma apart_set_width v :
  preserves (fun st => defaults_ok decode st /\ Live st /\ Apart st)
    (set_width decode v).
Proof.
  unfold set_width. apply preserves_bind; [apply apart_attrs; auto |].
  intros _. apply apart__reset.
Qed.

Lemma apart_set_height v :
  preserves (fun st => defaults_ok decode st /\ Live st /\ Apart st)
    (set_height decode v).
Proof.
  unfold set_height. apply preserves_bind; [apply apart_attrs; auto |].
  intros _. apply apart__reset.
Qed.

Lemma apart_set_theta v :
  preserves (fun st => defaults_ok decode st /\ Live st /\ Apart st)
    (set_theta decode v).
Proof.
  unfold set_theta. apply preserves_bind; [intros st H; exact H |]. intros t.
  apply preserves_bind; [apply apart_attrs; auto |].
  intros _. apply apart__reset.
Qed.

Lemma apart_set_computed set c :
  (forall v, preserves (fun st => defaults_ok decode st /\ Live st /\ Apart st)
               (set v)) ->
  preserves (fun st => defaults_ok decode st /\ Live st /\ Apart st)
    (set_computed set c).
Proof.
  intros H. destruct c; simpl; [apply H | |]; intros st G; exact G.
Qed.

Lemma apart_scale wf hf lock :
  preserves (fun st => defaults_ok decode st /\ Live st /\ Apart st)
    (scale decode wf hf lock).
Proof.
  unfold scale.
  destruct (negb (truthy_opt wf || truthy_opt hf)); [intros st H; exact H |].
  apply preserves_bind; [apply apart_default_size |]. intros size.
  apply preserves_bind; [intros st H; exact H |]. intros res.
  apply preserves_bind; [apply apart_set_computed, apart_set_width |]. intros _.
  apply apart_set_computed, apart_set_height.
Qed.

Lemma apart_resize w h :
  preserves (fun st => defaults_ok decode st /\ Live st /\ Apart st)
    (resize decode w h).
Proof.
  unfold resize.
  apply preserves_bind; [apply apart_default_size |]. intros [width0 height0].
  apply preserves_bind.
  { destruct w; [| intros st H; exact H].
    apply preserves_bind; intros; intros st H; exact H. }
  intros width_factor. apply preserves_bind.
  { destruct h; [| intros st H; exact H].
    apply preserves_bind; intros; intros st H; exact H. }
  intros height_factor.
  destruct (truthy_opt w && truthy_opt h); [apply apart_scale |].
  destruct (truthy_opt w || truthy_opt h); [apply apart_scale |].
  intros st H; exact H.
Qed.

Lemma apart_run_op o :
  preserves (fun st => defaults_ok decode st /\ Live st /\ Apart st)
    (run_op decode o).
Proof.
  destruct o; simpl.
  - apply preserves_void, apart_default_size.
  - apply preserves_void. apply apart_leaf; [apply sound_width |].
    intros st r st' Hd L A G. apply (width_step _ _ _ Hd L A G).
  - apply preserves_void. apply apart_leaf; [apply sound_height |].
    intros st r st' Hd L A G. apply (height_step _ _ _ Hd L A G).
  - apply preserves_void. intros st H. rewrite theta_spec. exact H.
  - apply apart_set_width.
  - apply apart_set_height.
  - apply apart_set_theta.
  - unfold del_width. apply preserves_bind; [intros st H; exact H |]. intros i.
    destruct (_width i); [apply apart_attrs; auto | intros st H; exact H].
  - unfold del_height. apply preserves_bind; [intros st H; exact H |]. intros i.
    destruct (_height i); [apply apart_attrs; auto | intros st H; exact H].
  - unfold del_theta. apply preserves_bind; [intros st H; exact H |]. intros i.
    destruct (_theta i); [apply apart_attrs; auto | intros st H; exact H].
  - apply preserves_void. apply apart_leaf; [apply sound_surface |].
    apply surface_Apart.
  - apply apart_attrs; auto.
  - apply preserves_void. apply apart_leaf; [apply sound_pattern |].
    apply pattern_Apart.
  - apply apart_attrs; auto.
  - apply apart_resize.
  - apply apart_scale.
Qed.

Lemma apart_exec ops st :
  defaults_ok decode st /\ Live st /\ Apart st ->
  defaults_ok decode (exec decode ops st) /\ Live (exec decode ops st) /\
  Apart (exec decode ops st).
Proof.
  revert st. induction ops as [| o ops IH]; intros st H; simpl; [exact H |].
  apply IH. apply (apart_run_op o st H).
Qed.

(** The natural surface, which [default_surface] decodes once and keeps,
    stays usable: whatever was done with the handle, operations that
    raised and deletions included, the surface that a [default_surface]
    read returns was not finished, though every write finishes a surface
    of the image; and it is not the surface that is cached. *)
Theorem natural_surface_is_never_finished bytes nm pth ops :
  let st := exec decode ops (initial (Img_init bytes nm pth)) in
  forall s0 st', default_surface decode st = (Ok s0, st') ->
    (surf_id s0 ∉ finished st') /\
    (forall s, _surface (img st') = Some s -> surf_id s <> surf_id s0).
Proof.
  intros st s0 st' G.
  assert (H0 : defaults_ok decode (initial (Img_init bytes nm pth)) /\
               Live (initial (Img_init bytes nm pth)) /\
               Apart (initial (Img_init bytes nm pth))).
  { split; [apply (Inv_initial decode bytes nm pth) |]. split.
    - split; [| split]; simpl.
      + intros i Hi. apply not_elem_of_nil in Hi. contradiction.
      + intros s Hs. discriminate.
      + intros p Hp. discriminate.
    - intros s Hs. discriminate. }
  destruct (apart_exec ops _ H0) as (Hd & L & A). fold st in Hd, L, A.
  pose proof (default_surface_fresh _ _ _ G) as Hfr.
  apply default_surface_spec in G. destruct G as (Q & _ & R).
  destruct (R Hd) as (Hd' & Es0 & _).
  pose proof (Apart_Quiet _ _ Q Hfr L A) as A'.
  destruct (A' s0 Es0) as (A1 & A2).
  split; [exact A1 | exact A2].
Qed.

End ImageNaturalSurface.

Section ImageCostRuns.
Import Py Images.

Lemma sizing_decoder_decodes bytes :
  forall w' h', exists sw sh,
    sizing_decoder bytes (Some w') (Some h') = DecodedSurface sw sh.
Proof. intros w' h'. exists w', h'. reflexivity. Qed.

Lemma writes_decode_eagerly_witness :
  width sizing_decoder (snd (default_size sizing_decoder icon))
    = (Ok 100%Z, snd (default_size sizing_decoder icon)) /\
  height sizing_decoder (snd (default_size sizing_decoder icon))
    = (Ok 50%Z, snd (default_size sizing_decoder icon)) /\
  resets_eagerly (set_theta sizing_decoder (Int 90))
    (snd (default_size sizing_decoder icon)) 100 50.
Proof.
  split; [reflexivity |]. split; [reflexivity |].
  refine (proj1 (writes_decode_eagerly sizing_decoder
                   (snd (default_size sizing_decoder icon)) (Int 90) 100 50
                   _ _ _ _ _));
    [reflexivity | reflexivity | lia | lia | apply sizing_decoder_decodes].
Defined.

Lemma natural_surface_is_never_finished_witness :
  exists s0,
    fst (default_surface sizing_decoder
           (exec sizing_decoder [ReadPattern; WriteTheta (Int 90)] icon)) = Ok s0 /\
    surf_id s0 ∉ finished (snd (default_surface sizing_decoder
           (exec sizing_decoder [ReadPattern; WriteTheta (Int 90)] icon))).
Proof.
  eexists. split; [vm_compute; reflexivity |].
  refine (proj1 (natural_surface_is_never_finished sizing_decoder [] "icon"
                   "/icons/icon.png" [ReadPattern; WriteTheta (Int 90)] _ _ _)).
  vm_compute. reflexivity.
Defined.

End ImageCostRuns.
